(** * Node manager of the Titan scheduler: registry, keepalive sweep,
      weight distribution and the points formula.

    Shallow embedding of [node/scheduler/node/manager.go].

    - Go [int], [int64] and [time.Duration] are [Z] with the 64-bit
      wrap-around written out ([wrap64]); [time.Time] is a [Z] count of
      nanoseconds.
    - Go [float64] is Rocq's primitive binary64 [float]; every arithmetic
      operation is rounded on its own (no fused multiply-add), as the
      default amd64 build does.
    - [*Node] is an optional heap address; dereferencing [nil] panics, and a
      panic is the [None] result of the state monad [M].
    - [sync.Map] is a [gmap] from node id to [*Node]; [Range] walks the
      entries the map had when the walk started. *)

From Stdlib Require Import ZArith Floats.
From stdpp Require Import gmap strings list fin_maps.

Set Warnings "-inexact-float,-clear-no-such-hyp".
Local Open Scope Z_scope.

(** ** Machine integers and time *)

(** Go's [int] on the 64-bit targets the scheduler is built for. *)
Definition wrap64 (z : Z) : Z := (z + 2 ^ 63) mod 2 ^ 64 - 2 ^ 63.

Definition Nanosecond : Z := 1.
Definition Second : Z := 1000000000 * Nanosecond.
Definition Minute : Z := 60 * Second.

(** keepaliveTime is the interval between keepalive requests *)
Definition keepaliveTime : Z := 30 * Second.
(** keepalive saves information every 2 times *)
Definition saveInfoInterval : Z := 2.

(** [time.Time.After]: strictly later. *)
Definition After (a b : Z) : bool := b <? a.

(** ** Node data *)

(** Modelled from the spec: [types.NodeType] is declared outside this file.
    The spec names the two tiers; every other value of the Go type is
    [NodeOther]. *)
Inductive NodeType := NodeEdge | NodeCandidate | NodeOther.

(** Modelled from the spec: [types.NatType] is declared outside this file;
    "NAT traversal class (enum: FullCone, Restricted, PortRestricted,
    Symmetric, Unknown)". *)
Inductive NatType :=
  | NatTypeFullCone | NatTypeRestricted | NatTypePortRestricted
  | NatTypeSymmetric | NatTypeUnknown.

#[global] Instance NodeType_eq_dec : EqDecision NodeType.
Proof. solve_decision. Defined.

(** [types.NodeInfo], the fields the points formula reads. *)
Record NodeInfo := mkNodeInfo {
  CPUCores : Z;
  Memory : float;
  DiskSpace : float
}.

(** Modelled from the spec: the [Node] struct is declared outside this file;
    these are the fields and accessors the manager reads and writes. *)
Record Node := mkNode {
  NodeID : string;
  Type_ : NodeType;
  Info : NodeInfo;
  BandwidthUp : Z;
  NATType : NatType;
  DiskUsage : float;
  LastRequestTime : Z;
  OnlineDuration : Z;
  selectWeights : list Z
}.

(** The assignments [node.selectWeights = ws] and
    [node.OnlineDuration = d]. *)
Definition set_selectWeights (ws : list Z) (n : Node) : Node :=
  mkNode (NodeID n) (Type_ n) (Info n) (BandwidthUp n) (NATType n)
    (DiskUsage n) (LastRequestTime n) (OnlineDuration n) ws.
Definition set_OnlineDuration (d : Z) (n : Node) : Node :=
  mkNode (NodeID n) (Type_ n) (Info n) (BandwidthUp n) (NATType n)
    (DiskUsage n) (LastRequestTime n) d (selectWeights n).

(** ** The points formula *)

Module Scoring.

(** [float64(n)] of an integer: round to nearest, ties to even. *)
Definition float_of_int (z : Z) : float :=
  SF2Prim (binary_normalize prec emax z 0 false).

(** [int(x)] of a float: the fraction is discarded.  Go leaves the result
    implementation-dependent when the value does not fit; that case is
    [None]. *)
Definition trunc_SF (x : spec_float) : option Z :=
  match x with
  | S754_zero _ => Some 0
  | S754_finite s m e =>
      let a := if 0 <=? e then Zpos m * 2 ^ e else Zpos m / 2 ^ (- e) in
      let z := if s then - a else a in
      if (- 2 ^ 63 <=? z) && (z <? 2 ^ 63) then Some z else None
  | _ => None
  end.

Definition int_of_float (x : float) : option Z := trunc_SF (Prim2SF x).

Definition bytesToGB (bytes : float) : float :=
  (bytes / 1024 / 1024 / 1024)%float.

Definition calculateMN (natType : NatType) : float :=
  match natType with
  | NatTypeFullCone => 2.5
  | NatTypeRestricted => 2
  | NatTypePortRestricted => 1.5
  | NatTypeSymmetric => 1
  | NatTypeUnknown => 0
  end%float.

Definition min (a b : float) : float := if (a <? b)%float then a else b.

(** [a > b] is [b < a]. *)
Definition max (a b : float) : float := if (b <? a)%float then a else b.

Definition weighting (num : Z) : float :=
  (if (num <=? 2000)%Z then 2
   else if (num <=? 5000)%Z then 1.8
   else if (num <=? 5000)%Z then 1.8
   else if (num <=? 10000)%Z then 1.6
   else if (num <=? 15000)%Z then 1.4
   else if (num <=? 25000)%Z then 1.3
   else if (num <=? 35000)%Z then 1.2
   else if (num <=? 50000)%Z then 1.1
   else 1)%float.

(** The section 4.3 table of the specification, in its own words. *)
Definition populationWeighting (p : Z) : float :=
  (if (p <=? 2000)%Z then 2.0
   else if (p <=? 5000)%Z then 1.8
   else if (p <=? 10000)%Z then 1.6
   else if (p <=? 15000)%Z then 1.4
   else if (p <=? 25000)%Z then 1.3
   else if (p <=? 35000)%Z then 1.2
   else if (p <=? 50000)%Z then 1.1
   else 1.0)%float.

(** [for k := 1.0; k <= bound; k++ { sum += k }].  The result is [None]
    when [fuel] iterations were not enough to reach the exit test. *)
Fixpoint sum_upto (fuel : nat) (k bound sum : float) : option float :=
  match fuel with
  | O => None
  | S fuel' =>
      if (k <=? bound)%float
      then sum_upto fuel' (k + 1)%float bound (sum + k)%float
      else Some sum
  end.

(** Both loops are bounded by [min(_, 4)], so five tests always suffice
    (see [calculateMC_total]). *)
Definition calculateMC (i j : float) : option float :=
  sum1 ← sum_upto 5 1 (min i 4) 0;
  sum2 ← sum_upto 5 1 (min j 4) 0;
  Some ((sum1 + sum2) * 0.7)%float.

(** calculateAndSavePoints Calculate and save the points of the node;
    [edges] is [m.Edges], the only field of the manager it reads. *)
Definition calculateAndSavePoints (edges : Z) (n : Node) : option Z :=
  mc ← calculateMC (float_of_int (CPUCores (Info n))) (Memory (Info n));
  let mb := (10 + min (float_of_int (BandwidthUp n) / 100) 5 * 2)%float in
  let mbn := (mb * calculateMN (NATType n))%float in
  let size := bytesToGB (DiskSpace (Info n)) in
  let ms := (min size 2000 * (0.01 + 1 / max size 1000))%float in
  let weighting := weighting edges in
  let online := 1.0%float in
  int_of_float ((mc + mbn + ms) * weighting * online)%float.

End Scoring.

(** ** Collaborators declared outside this file *)

(** Modelled from the spec: [Node.IsAbnormal], [Manager.getNodeScoreLevel]
    and [weightManager.getWeightNum] are declared outside this file.
    "Abnormal is a derived predicate evaluated from capability/liveness
    facts by an external collaborator"; [getWeightNum] is the spec's
    [SlotCountForScore], "deterministic tier lookup".  None of the
    operations below writes what they read from the database or the
    configuration, so they are pure functions here; being abnormal is
    decided by the facts of the node, not by the handles it holds. *)
Class Collaborators := {
  IsAbnormal : Node → bool;
  getNodeScoreLevel : string → Z;
  getWeightNum : Z → nat;
  IsAbnormal_selectWeights :
    ∀ (n : Node) (ws : list Z), IsAbnormal (set_selectWeights ws n) = IsAbnormal n
}.

(** ** The weight ledger *)

Module Ledger.

(** Modelled from the spec: the [weightManager] is declared outside this
    file.  Section 4.4: a pool per tier of weight slots, each slot a handle
    associated with a node id. *)
Record weightManager := mkWeightManager {
  edgeWeights : gmap Z string;
  candidateWeights : gmap Z string
}.

(** Modelled from the spec: "produces slotCount distinct weighted entries
    associated with nodeID, inserted into the tier's selection pool";
    the handles are returned to the caller. *)
Fixpoint distributeWeight (pool : gmap Z string) (nodeID : string) (n : nat)
  : list Z * gmap Z string :=
  match n with
  | O => ([], pool)
  | S n' =>
      let w := fresh (dom pool) in
      let '(ws, pool') := distributeWeight (<[w := nodeID]> pool) nodeID n' in
      (w :: ws, pool')
  end.

(** Modelled from the spec: "removes exactly the given handles from the
    selection pool; repaying an empty/absent set is a no-op". *)
Definition repayWeight (pool : gmap Z string) (weights : list Z)
  : gmap Z string :=
  foldr delete pool weights.

(** Modelled from the spec: "ResetAll(): clears both pools entirely". *)
Definition cleanWeights (w : weightManager) : weightManager :=
  mkWeightManager ∅ ∅.

(** The slots a node id holds in one pool. *)
Definition slotsOf (nodeID : string) (pool : gmap Z string) : gmap Z string :=
  filter (λ kv, kv.2 = nodeID) pool.

End Ledger.

Import Ledger.

(** ** The manager *)

Inductive Topic := EventNodeOnline | EventNodeOffline.

(** [types.NodeSnapshot] *)
Record NodeSnapshot := mkNodeSnapshot {
  snapNodeID : string;
  snapOnlineDuration : Z;
  snapDiskUsage : float;
  snapLastSeen : Z
}.

(** Calls that leave the manager, in the order they are made. *)
Inductive Event :=
  | EvPub (node : option nat) (topic : Topic)
  | EvClientCloser (node : option nat)
  | EvUpdateOnlineDuration (nodes : list NodeSnapshot).

(** The [Manager] struct together with the [Node] objects its pointers
    reach.  A [*Node] is [None] for [nil] and [Some a] for the object at
    address [a]. *)
Record Manager := mkManager {
  heap : gmap nat Node;
  edgeNodes : gmap string (option nat);
  candidateNodes : gmap string (option nat);
  Edges : Z;
  Candidates : Z;
  weightMgr : weightManager;
  events : list Event
}.

Definition set_heap (f : gmap nat Node → gmap nat Node) (m : Manager) :=
  mkManager (f (heap m)) (edgeNodes m) (candidateNodes m) (Edges m)
    (Candidates m) (weightMgr m) (events m).
Definition set_edgeNodes (f : gmap string (option nat) → gmap string (option nat))
  (m : Manager) :=
  mkManager (heap m) (f (edgeNodes m)) (candidateNodes m) (Edges m)
    (Candidates m) (weightMgr m) (events m).
Definition set_candidateNodes
  (f : gmap string (option nat) → gmap string (option nat)) (m : Manager) :=
  mkManager (heap m) (edgeNodes m) (f (candidateNodes m)) (Edges m)
    (Candidates m) (weightMgr m) (events m).
Definition set_Edges (f : Z → Z) (m : Manager) :=
  mkManager (heap m) (edgeNodes m) (candidateNodes m) (f (Edges m))
    (Candidates m) (weightMgr m) (events m).
Definition set_Candidates (f : Z → Z) (m : Manager) :=
  mkManager (heap m) (edgeNodes m) (candidateNodes m) (Edges m)
    (f (Candidates m)) (weightMgr m) (events m).
Definition set_weightMgr (f : weightManager → weightManager) (m : Manager) :=
  mkManager (heap m) (edgeNodes m) (candidateNodes m) (Edges m)
    (Candidates m) (f (weightMgr m)) (events m).
Definition set_events (f : list Event → list Event) (m : Manager) :=
  mkManager (heap m) (edgeNodes m) (candidateNodes m) (Edges m)
    (Candidates m) (weightMgr m) (f (events m)).


(** *** A state monad with panics *)

Definition M (A : Type) : Type := Manager → option (A * Manager).

#[global] Instance M_ret : MRet M := λ A a s, Some (a, s).
#[global] Instance M_bind : MBind M := λ A B k c s,
  match c s with
  | Some (a, s') => k a s'
  | None => None
  end.

Definition gets {A} (f : Manager → A) : M A := λ s, Some (f s, s).
Definition modify (f : Manager → Manager) : M unit := λ s, Some (tt, f s).
Definition emit (e : Event) : M unit := modify (set_events (λ l, l ++ [e])).

(** [*node]: a nil pointer dereference panics. *)
Definition deref (node : option nat) : M Node := λ s,
  match node with
  | None => None
  | Some a =>
      match heap s !! a with
      | Some n => Some (n, s)
      | None => None
      end
  end.

(** A field assignment [node.f = v]. *)
Definition update (node : option nat) (f : Node → Node) : M unit := λ s,
  match node with
  | None => None
  | Some a =>
      match heap s !! a with
      | Some n => Some (tt, set_heap <[a := f n]> s)
      | None => None
      end
  end.

(** [sync.Map.LoadOrStore] and [sync.Map.LoadAndDelete]; the result is the
    [loaded] flag. *)
Definition LoadOrStore (m : gmap string (option nat)) (key : string)
  (value : option nat) : bool * gmap string (option nat) :=
  match m !! key with
  | Some _ => (true, m)
  | None => (false, <[key := value]> m)
  end.

Definition LoadAndDelete (m : gmap string (option nat)) (key : string)
  : bool * gmap string (option nat) :=
  match m !! key with
  | Some _ => (true, delete key m)
  | None => (false, m)
  end.

(** [sync.Map.Range] with a callback that always returns [true]: the
    callback runs once per entry. *)
Fixpoint range (f : string → option nat → M unit)
  (entries : list (string * option nat)) : M unit :=
  match entries with
  | [] => mret tt
  | (key, value) :: rest => f key value;; range f rest
  end.

(** *** Registry operations *)

Section Operations.
Context `{Collaborators}.

Definition distributeEdgeWeight (nodeID : string) (n : nat) : M (list Z) :=
  λ s,
  let '(ws, pool) := distributeWeight (edgeWeights (weightMgr s)) nodeID n in
  Some (ws, set_weightMgr
              (λ w, mkWeightManager pool (candidateWeights w)) s).

Definition distributeCandidateWeight (nodeID : string) (n : nat)
  : M (list Z) := λ s,
  let '(ws, pool) :=
    distributeWeight (candidateWeights (weightMgr s)) nodeID n in
  Some (ws, set_weightMgr (λ w, mkWeightManager (edgeWeights w) pool) s).

Definition repayEdgeWeight (weights : list Z) : M unit :=
  modify (set_weightMgr (λ w,
    mkWeightManager (repayWeight (edgeWeights w) weights)
      (candidateWeights w))).

Definition repayCandidateWeight (weights : list Z) : M unit :=
  modify (set_weightMgr (λ w,
    mkWeightManager (edgeWeights w)
      (repayWeight (candidateWeights w) weights))).

(** DistributeNodeWeight Distribute Node Weight *)
Definition DistributeNodeWeight (node : option nat) : M unit :=
  n ← deref node;
  if IsAbnormal n then mret tt
  else
    let score := getNodeScoreLevel (NodeID n) in
    let wNum := getWeightNum score in
    match Type_ n with
    | NodeCandidate =>
        ws ← distributeCandidateWeight (NodeID n) wNum;
        update node (set_selectWeights ws)
    | NodeEdge =>
        ws ← distributeEdgeWeight (NodeID n) wNum;
        update node (set_selectWeights ws)
    | NodeOther => mret tt
    end.

(** RepayNodeWeight Repay Node Weight *)
Definition RepayNodeWeight (node : option nat) : M unit :=
  n ← deref node;
  match Type_ n with
  | NodeCandidate =>
      repayCandidateWeight (selectWeights n);;
      update node (set_selectWeights [])
  | NodeEdge =>
      repayEdgeWeight (selectWeights n);;
      update node (set_selectWeights [])
  | NodeOther => mret tt
  end.

(** storeEdgeNode adds an edge node to the manager's list of edge nodes *)
Definition storeEdgeNode (node : option nat) : M unit :=
  match node with
  | None => mret tt
  | Some _ =>
      n ← deref node;
      let nodeID := NodeID n in
      edges ← gets edgeNodes;
      let '(loaded, edges') := LoadOrStore edges nodeID node in
      modify (set_edgeNodes (λ _, edges'));;
      if loaded then mret tt
      else
        modify (set_Edges (λ c, wrap64 (c + 1)));;
        DistributeNodeWeight node;;
        emit (EvPub node EventNodeOnline)
  end.

(** adds a candidate node to the manager's list of candidate nodes *)
Definition storeCandidateNode (node : option nat) : M unit :=
  match node with
  | None => mret tt
  | Some _ =>
      n ← deref node;
      let nodeID := NodeID n in
      candidates ← gets candidateNodes;
      let '(loaded, candidates') := LoadOrStore candidates nodeID node in
      modify (set_candidateNodes (λ _, candidates'));;
      if loaded then mret tt
      else
        modify (set_Candidates (λ c, wrap64 (c + 1)));;
        DistributeNodeWeight node;;
        emit (EvPub node EventNodeOnline)
  end.

(** deleteEdgeNode removes an edge node from the manager's list of edge
    nodes *)
Definition deleteEdgeNode (node : option nat) : M unit :=
  RepayNodeWeight node;;
  emit (EvPub node EventNodeOffline);;
  n ← deref node;
  let nodeID := NodeID n in
  edges ← gets edgeNodes;
  let '(loaded, edges') := LoadAndDelete edges nodeID in
  modify (set_edgeNodes (λ _, edges'));;
  if negb loaded then mret tt
  else modify (set_Edges (λ c, wrap64 (c - 1))).

(** deleteCandidateNode removes a candidate node from the manager's list of
    candidate nodes *)
Definition deleteCandidateNode (node : option nat) : M unit :=
  RepayNodeWeight node;;
  emit (EvPub node EventNodeOffline);;
  n ← deref node;
  let nodeID := NodeID n in
  candidates ← gets candidateNodes;
  let '(loaded, candidates') := LoadAndDelete candidates nodeID in
  modify (set_candidateNodes (λ _, candidates'));;
  if negb loaded then mret tt
  else modify (set_Candidates (λ c, wrap64 (c - 1))).

(** The minutes added on a save tick:
    [int((saveInfoInterval * keepaliveTime) / time.Minute)]. *)
Definition saveMinutes : Z :=
  wrap64 (Z.quot (wrap64 (saveInfoInterval * keepaliveTime)) Minute).

(** nodeKeepalive checks if a node has sent a keepalive recently and updates
    node status accordingly *)
Definition nodeKeepalive (node : option nat) (t : Z) (isSave : bool)
  : M bool :=
  n ← deref node;
  let lastTime := LastRequestTime n in
  if negb (After lastTime t) then
    emit (EvClientCloser node);;
    match Type_ n with
    | NodeCandidate => deleteCandidateNode node
    | NodeEdge => deleteEdgeNode node
    | NodeOther => mret tt
    end;;
    mret false
  else
    (if isSave
     then update node
            (λ n, set_OnlineDuration (wrap64 (OnlineDuration n + saveMinutes)) n)
     else mret tt);;
    mret true.

(** The callback of both [Range] calls of [nodesKeepalive]; the snapshots
    collected so far are [nodes]. *)
Definition keepaliveEntry (now t : Z) (isSave : bool)
  (nodes : list NodeSnapshot) (node : option nat) : M (list NodeSnapshot) :=
  match node with
  | None => mret nodes
  | Some _ =>
      alive ← nodeKeepalive node t isSave;
      if alive : bool then
        n ← deref node;
        mret (nodes ++ [mkNodeSnapshot (NodeID n) (OnlineDuration n)
                          (DiskUsage n) now])
      else mret nodes
  end.

Fixpoint keepaliveRange (now t : Z) (isSave : bool)
  (entries : list (string * option nat)) (nodes : list NodeSnapshot)
  : M (list NodeSnapshot) :=
  match entries with
  | [] => mret nodes
  | (_, node) :: rest =>
      nodes' ← keepaliveEntry now t isSave nodes node;
      keepaliveRange now t isSave rest nodes'
  end.

(** nodesKeepalive checks all nodes in the manager's lists for keepalive;
    [now] is the reading of [time.Now()]. *)
Definition nodesKeepalive (now : Z) (isSave : bool) : M unit :=
  let t := now - keepaliveTime in
  edges ← gets (λ s, map_to_list (edgeNodes s));
  nodes ← keepaliveRange now t isSave edges [];
  candidates ← gets (λ s, map_to_list (candidateNodes s));
  nodes ← keepaliveRange now t isSave candidates nodes;
  if isSave then emit (EvUpdateOnlineDuration nodes) else mret tt.

(** The two callbacks of [redistributeNodeSelectWeights]. *)
Definition redistributeCandidate (key : string) (node : option nat)
  : M unit :=
  n ← deref node;
  if IsAbnormal n then mret tt
  else
    let score := getNodeScoreLevel (NodeID n) in
    let wNum := getWeightNum score in
    ws ← distributeCandidateWeight (NodeID n) wNum;
    update node (set_selectWeights ws).

Definition redistributeEdge (key : string) (node : option nat) : M unit :=
  n ← deref node;
  if IsAbnormal n then mret tt
  else
    let score := getNodeScoreLevel (NodeID n) in
    let wNum := getWeightNum score in
    ws ← distributeEdgeWeight (NodeID n) wNum;
    update node (set_selectWeights ws).

Definition redistributeNodeSelectWeights : M unit :=
  modify (set_weightMgr cleanWeights);;
  candidates ← gets (λ s, map_to_list (candidateNodes s));
  range redistributeCandidate candidates;;
  edges ← gets (λ s, map_to_list (edgeNodes s));
  range redistributeEdge edges.

(** One pass of the loop of [startNodeKeepaliveTimer] after the ticker
    fired: [count] is the loop's counter and [now] the reading of
    [time.Now()] in [nodesKeepalive]. *)
Definition keepaliveTick (now count : Z) : M Z :=
  let count := wrap64 (count + 1) in
  let saveInfo := Z.rem count saveInfoInterval =? 0 in
  nodesKeepalive now saveInfo;;
  mret count.

(** The callback of both [Range] calls of [updateNodeProfits]; [infos] is
    the map filled so far.  The points are [None] where Go leaves the
    conversion [int(x)] to the implementation. *)
Definition profitsEntry (infos : gmap string (option Z)) (node : option nat)
  : M (gmap string (option Z)) :=
  match node with
  | None => mret infos
  | Some _ =>
      n ← deref node;
      if IsAbnormal n then mret infos
      else
        edges ← gets Edges;
        let points := Scoring.calculateAndSavePoints edges n in
        mret (<[NodeID n := points]> infos)
  end.

Fixpoint profitsRange (entries : list (string * option nat))
  (infos : gmap string (option Z)) : M (gmap string (option Z)) :=
  match entries with
  | [] => mret infos
  | (_, node) :: rest =>
      infos' ← profitsEntry infos node;
      profitsRange rest infos'
  end.

(** [updateNodeProfits]; the result is the batch handed to
    [UpdateNodeProfits]. *)
Definition updateNodeProfits : M (gmap string (option Z)) :=
  edges ← gets (λ s, map_to_list (edgeNodes s));
  infos ← profitsRange edges ∅;
  candidates ← gets (λ s, map_to_list (candidateNodes s));
  profitsRange candidates infos.

(** GetAllEdgeNode load all edge node *)
Definition GetAllEdgeNode : M (list (option nat)) :=
  entries ← gets (λ s, map_to_list (edgeNodes s));
  mret (foldl (λ nodes entry, nodes ++ [entry.2]) [] entries).

End Operations.

(** * Properties *)

(** ** Rounding to binary64 is monotone

    [SpecFloat] defines the arithmetic of binary64 floats on mantissas and
    exponents.  This part relates it to integer arithmetic: the value of a
    float in units of [2 ^ -1074], sums, products and quotients as exact
    results rounded to nearest-even, and the monotonicity of that
    rounding.  The points formula uses it in [ScoringFacts]. *)

Module FloatOrder.

Lemma pow2_pos (k : Z) : 0 <= k -> 0 < 2 ^ k.
Proof. intros. apply Z.pow_pos_nonneg; lia. Qed.

Lemma pow2_succ (k : Z) : 0 <= k -> 2 ^ (k + 1) = 2 * 2 ^ k.
Proof. intros. rewrite Z.pow_add_r by lia. lia. Qed.

Lemma pow2_le (a b : Z) : 0 <= a <= b -> 2 ^ a <= 2 ^ b.
Proof. intros. apply Z.pow_le_mono_r; lia. Qed.

Lemma pow2_lt (a b : Z) : 0 <= a < b -> 2 ^ a < 2 ^ b.
Proof. intros. apply Z.pow_lt_mono_r; lia. Qed.

(** *** Number of binary digits *)

Lemma digits2_pos_bounds (p : positive) :
  2 ^ (Zpos (digits2_pos p) - 1) <= Zpos p < 2 ^ Zpos (digits2_pos p).
Proof.
  induction p as [p IH|p IH|]; cbn [digits2_pos].
  - rewrite Pos2Z.inj_succ.
    replace (Z.succ (Zpos (digits2_pos p)) - 1) with (Zpos (digits2_pos p) - 1 + 1) by lia.
    replace (Z.succ (Zpos (digits2_pos p))) with (Zpos (digits2_pos p) + 1) by lia.
    rewrite !pow2_succ by lia. lia.
  - rewrite Pos2Z.inj_succ.
    replace (Z.succ (Zpos (digits2_pos p)) - 1) with (Zpos (digits2_pos p) - 1 + 1) by lia.
    replace (Z.succ (Zpos (digits2_pos p))) with (Zpos (digits2_pos p) + 1) by lia.
    rewrite !pow2_succ by lia. lia.
  - cbn. lia.
Qed.

Lemma Zdigits2_bounds (M : Z) :
  0 < M -> 0 < Zdigits2 M /\ 2 ^ (Zdigits2 M - 1) <= M < 2 ^ Zdigits2 M.
Proof.
  destruct M as [|p|p]; try lia. intros _. cbn [Zdigits2]. split; [lia|].
  apply digits2_pos_bounds.
Qed.

(** The digit count is determined by the bounds. *)
Lemma Zdigits2_unique (M d : Z) :
  0 < d -> 2 ^ (d - 1) <= M < 2 ^ d -> Zdigits2 M = d.
Proof.
  intros Hd [Hlo Hhi].
  assert (0 < M) by (pose proof (pow2_pos (d - 1)); lia).
  destruct (Zdigits2_bounds M) as (Hd' & Hlo' & Hhi'); [lia|].
  destruct (Z.lt_trichotomy (Zdigits2 M) d) as [Hlt|[Heq|Hgt]]; [|exact Heq|].
  - pose proof (pow2_le (Zdigits2 M) (d - 1)). lia.
  - pose proof (pow2_le d (Zdigits2 M - 1)). lia.
Qed.

Lemma Zdigits2_mono (M N : Z) : 0 < M <= N -> Zdigits2 M <= Zdigits2 N.
Proof.
  intros [HM HMN].
  destruct (Zdigits2_bounds M) as (Hd & Hlo & Hhi); [lia|].
  destruct (Zdigits2_bounds N) as (Hd' & Hlo' & Hhi'); [lia|].
  destruct (Z.le_gt_cases (Zdigits2 M) (Zdigits2 N)) as [|Hgt]; [assumption|].
  pose proof (pow2_le (Zdigits2 N) (Zdigits2 M - 1)). lia.
Qed.

Lemma Zdigits2_shift (M k : Z) :
  0 < M -> 0 <= k -> Zdigits2 (M * 2 ^ k) = Zdigits2 M + k.
Proof.
  intros HM Hk. destruct (Zdigits2_bounds M) as (Hd & Hlo & Hhi); [lia|].
  apply Zdigits2_unique; [lia|].
  replace (Zdigits2 M + k - 1) with (Zdigits2 M - 1 + k) by lia.
  rewrite !Z.pow_add_r by lia.
  pose proof (pow2_pos k Hk). nia.
Qed.

(** *** Shifting right with a round bit and a sticky bit *)

Lemma iter_pos_iter {A} (f : A -> A) (p : positive) (x : A) :
  SpecFloat.iter_pos f p x = Pos.iter f x p.
Proof.
  revert x. induction p as [p IH|p IH|]; intros x;
    cbn [SpecFloat.iter_pos Pos.iter].
  - rewrite !IH, !Pos.iter_swap. reflexivity.
  - rewrite !IH. reflexivity.
  - reflexivity.
Qed.

Lemma shr_1_spec (m : Z) (r s : bool) :
  0 <= m ->
  shr_1 (Build_shr_record m r s) = Build_shr_record (m / 2) (Z.odd m) (r || s).
Proof.
  intros Hm. rewrite <- Z.div2_div.
  destruct m as [|[p|p|]|p]; try lia; reflexivity.
Qed.

(** Where the fraction [r / D] lies between 0 and 1. *)
Definition locD (D r : Z) : location :=
  if r =? 0 then loc_Exact else loc_Inexact (2 * r ?= D).

Lemma new_location_locD (D r : Z) :
  0 < D -> 0 <= r < D -> new_location D r = locD D r.
Proof.
  intros HD Hr. unfold new_location, new_location_even, new_location_odd, locD.
  destruct (Z.even D) eqn:Ev; [reflexivity|].
  destruct (r =? 0); [reflexivity|]. f_equal.
  assert (Hodd : Z.odd D = true) by (rewrite <- Z.negb_even, Ev; reflexivity).
  apply Z.odd_spec in Hodd as [k Hk].
  destruct (Z.compare_spec (2 * r + 1) D), (Z.compare_spec (2 * r) D);
    try reflexivity; lia.
Qed.

Lemma locD_bits (q D r : Z) :
  0 <= r < D ->
  let mrs := shr_record_of_loc q (locD D r) in
  shr_m mrs = q /\ loc_of_shr_record mrs = locD D r /\
  (shr_r mrs || shr_s mrs) = negb (r =? 0).
Proof.
  intros Hr. unfold locD.
  destruct (Z.eqb_spec r 0); [repeat split|].
  destruct (2 * r ?= D); repeat split.
Qed.

Lemma div_mod_pair (q D r : Z) :
  0 < D -> 0 <= r < D -> (q * D + r) / D = q /\ (q * D + r) mod D = r.
Proof.
  intros HD Hr. split.
  - symmetry. apply (Z.div_unique _ _ q r); lia.
  - symmetry. apply (Z.mod_unique _ _ q r); lia.
Qed.

(** The record for the quotient [q] and the fraction [r / D], shifted [p]
    times: the mantissa is the quotient by [2 ^ p]; the round bit says
    whether the remainder of [q * D + r] by [D * 2 ^ p] reaches the half,
    the sticky bit whether something is left beyond that. *)
Lemma shr_iter (q D r : Z) (p : positive) :
  0 <= q -> 0 < D -> 0 <= r < D ->
  let M := q * D + r in
  let mrs := SpecFloat.iter_pos shr_1 p (shr_record_of_loc q (locD D r)) in
  shr_m mrs = q / 2 ^ Zpos p /\
  exists t, 0 <= t < D * 2 ^ (Zpos p - 1) /\
    M mod (D * 2 ^ Zpos p)
      = (if shr_r mrs then D * 2 ^ (Zpos p - 1) else 0) + t /\
    shr_s mrs = negb (t =? 0).
Proof.
  intros Hq HD Hr. cbv zeta. rewrite iter_pos_iter.
  destruct (div_mod_pair q D r HD Hr) as [Hdiv Hmod0].
  induction p as [|p IH] using Pos.peano_ind.
  - cbn [Pos.iter].
    destruct (locD_bits q D r Hr) as (Hm & _ & Hrs).
    destruct (shr_record_of_loc q (locD D r)) as [m r0 s0].
    cbn [shr_m shr_r shr_s] in *. subst m.
    rewrite shr_1_spec by assumption. cbn [shr_m shr_r shr_s].
    split; [reflexivity|]. exists r. change (2 ^ 1) with 2.
    change (2 ^ (1 - 1)) with 1. rewrite Z.mul_1_r.
    split; [lia|]. split; [|assumption].
    rewrite Z.rem_mul_r by lia. rewrite Hdiv, Hmod0, Zmod_odd.
    destruct (Z.odd q); lia.
  - rewrite Pos.iter_succ.
    destruct (Pos.iter shr_1 _ p) as [m r1 s1].
    cbn [shr_m shr_r shr_s] in IH.
    destruct IH as (Hm & t & Ht & Hmod & Hs).
    pose proof (pow2_pos (Zpos p) ltac:(lia)) as Hpp.
    pose proof (pow2_pos (Zpos p - 1) ltac:(lia)) as Hpp1.
    assert (Hm0 : 0 <= m) by (rewrite Hm; apply Z.div_pos; lia).
    rewrite shr_1_spec by assumption. cbn [shr_m shr_r shr_s].
    rewrite Pos2Z.inj_succ.
    replace (Z.succ (Zpos p) - 1) with (Zpos p) by lia.
    replace (Z.succ (Zpos p)) with (Zpos p + 1) by lia.
    assert (H2 : 2 ^ Zpos p = 2 * 2 ^ (Zpos p - 1)).
    { rewrite <- pow2_succ by lia. f_equal. lia. }
    split.
    + rewrite Hm, Z.div_div by lia. rewrite pow2_succ by lia.
      f_equal. lia.
    + exists ((q * D + r) mod (D * 2 ^ Zpos p)).
      split; [apply Z.mod_pos_bound; nia|]. split.
      * rewrite pow2_succ by lia.
        replace (D * (2 * 2 ^ Zpos p)) with (D * 2 ^ Zpos p * 2) by lia.
        rewrite Z.rem_mul_r by nia.
        rewrite <- Z.div_div, Hdiv, <- Hm, Zmod_odd by lia.
        destruct (Z.odd m); lia.
      * rewrite Hmod, Hs.
        destruct r1; destruct (Z.eqb_spec t 0);
          match goal with |- _ = negb (?a =? 0) => destruct (Z.eqb_spec a 0) end;
          cbn; try reflexivity; nia.
Qed.

(** Round to nearest, ties to even, of [M / P]. *)
Definition rneD (M P : Z) : Z :=
  let q := M / P in
  let r := M mod P in
  match 2 * r ?= P with
  | Lt => q
  | Eq => if Z.even q then q else q + 1
  | Gt => q + 1
  end.

Lemma rneD_1 (M : Z) : rneD M 1 = M.
Proof. unfold rneD. rewrite Z.mod_1_r, Z.div_1_r. reflexivity. Qed.

Lemma round_locD (q D r : Z) :
  0 < D -> 0 <= r < D ->
  round_nearest_even q (locD D r) = rneD (q * D + r) D.
Proof.
  intros HD Hr. destruct (div_mod_pair q D r HD Hr) as [Hdiv Hmod].
  unfold rneD, locD. rewrite Hdiv, Hmod.
  destruct (Z.eqb_spec r 0) as [->|Hne]; cbn [round_nearest_even].
  - destruct (Z.compare_spec (2 * 0) D); first [reflexivity | lia].
  - reflexivity.
Qed.

Lemma shr_round (q D r : Z) (p : positive) :
  0 <= q -> 0 < D -> 0 <= r < D ->
  let mrs := SpecFloat.iter_pos shr_1 p (shr_record_of_loc q (locD D r)) in
  round_nearest_even (shr_m mrs) (loc_of_shr_record mrs)
  = rneD (q * D + r) (D * 2 ^ Zpos p).
Proof.
  intros Hq HD Hr. cbv zeta.
  destruct (shr_iter q D r p Hq HD Hr) as (Hm & t & Ht & Hmod & Hs).
  destruct (div_mod_pair q D r HD Hr) as [Hdiv _].
  destruct (SpecFloat.iter_pos shr_1 p _) as [m r1 s1].
  cbn [shr_m shr_r shr_s] in *. subst m. unfold rneD.
  pose proof (pow2_pos (Zpos p) ltac:(lia)) as Hpp.
  pose proof (pow2_pos (Zpos p - 1) ltac:(lia)) as Hpp1.
  assert (H2 : 2 ^ Zpos p = 2 * 2 ^ (Zpos p - 1)).
  { rewrite <- pow2_succ by lia. f_equal. lia. }
  rewrite <- Z.div_div, Hdiv by lia.
  rewrite Hmod. subst s1.
  destruct r1; destruct (Z.eqb_spec t 0);
    cbn [negb loc_of_shr_record round_nearest_even];
    match goal with |- _ = match ?a ?= ?b with _ => _ end =>
      destruct (Z.compare_spec a b) end; try reflexivity; nia.
Qed.

(** The first stage of [binary_round_aux]. *)
Lemma shr_fexp_round (q D r e : Z) :
  0 <= q -> 0 < D -> 0 <= r < D ->
  let n := Z.max 0 (fexp prec emax (Zdigits2 q + e) - e) in
  let '(mrs, e') := shr_fexp prec emax q e (locD D r) in
  round_nearest_even (shr_m mrs) (loc_of_shr_record mrs)
    = rneD (q * D + r) (D * 2 ^ n) /\
  e' = e + n.
Proof.
  intros Hq HD Hr. cbv zeta. unfold shr_fexp, shr.
  destruct (locD_bits q D r Hr) as (Hm & Hloc & _).
  destruct (fexp prec emax (Zdigits2 q + e) - e) as [|p|p] eqn:En.
  - rewrite Hm, Hloc, round_locD by assumption.
    change (Z.max 0 0) with 0. change (2 ^ 0) with 1. rewrite Z.mul_1_r. lia.
  - rewrite shr_round by assumption. rewrite Z.max_r by lia.
    split; reflexivity.
  - rewrite Hm, Hloc, round_locD by assumption.
    rewrite Z.max_l by lia. change (2 ^ 0) with 1. rewrite Z.mul_1_r. lia.
Qed.

(** *** Properties of [rneD] *)

Lemma rneD_mono (M1 M2 P : Z) :
  0 < P -> M1 <= M2 -> rneD M1 P <= rneD M2 P.
Proof.
  intros HP HM. unfold rneD.
  pose proof (Z.div_mod M1 P ltac:(lia)) as E1.
  pose proof (Z.div_mod M2 P ltac:(lia)) as E2.
  pose proof (Z.mod_pos_bound M1 P HP) as B1.
  pose proof (Z.mod_pos_bound M2 P HP) as B2.
  pose proof (Z.div_le_mono M1 M2 P HP HM) as Hq.
  set (q1 := M1 / P) in *. set (q2 := M2 / P) in *.
  set (r1 := M1 mod P) in *. set (r2 := M2 mod P) in *.
  destruct (Z.compare_spec (2 * r1) P), (Z.compare_spec (2 * r2) P);
    destruct (Z.even q1) eqn:Ev1; destruct (Z.even q2) eqn:Ev2;
    try nia;
    (assert (q1 = q2 \/ q1 < q2) as [<-|Hlt] by lia; [congruence || nia | nia]).
Qed.

Lemma rneD_scale (M P k : Z) :
  0 < P -> 0 < k -> rneD (M * k) (P * k) = rneD M P.
Proof.
  intros HP Hk. unfold rneD.
  rewrite Z.div_mul_cancel_r by lia.
  rewrite Z.mul_mod_distr_r by lia.
  rewrite Z.mul_assoc, <- Zmult_compare_compat_r by lia.
  reflexivity.
Qed.

Lemma rneD_bounds (M P : Z) : M / P <= rneD M P <= M / P + 1.
Proof.
  unfold rneD. destruct (_ ?= _); [destruct (Z.even _)| |]; lia.
Qed.

Lemma rneD_upper (M P p : Z) :
  0 < P -> 0 <= p -> M < P * 2 ^ p -> rneD M P <= 2 ^ p.
Proof.
  intros HP Hp HM. pose proof (rneD_bounds M P).
  assert (M / P < 2 ^ p); [|lia].
  apply Z.div_lt_upper_bound; assumption.
Qed.

Lemma rneD_lower (M P p : Z) :
  0 < P -> 0 <= p -> P * 2 ^ p <= M -> 2 ^ p <= rneD M P.
Proof.
  intros HP Hp HM. pose proof (rneD_bounds M P).
  assert (2 ^ p <= M / P); [|lia].
  apply Z.div_le_lower_bound; assumption.
Qed.

Lemma rneD_nonneg (M P : Z) : 0 < P -> 0 <= M -> 0 <= rneD M P.
Proof.
  intros HP HM. pose proof (rneD_bounds M P).
  pose proof (Z.div_pos M P HM HP). lia.
Qed.

(** *** The two stages of [binary_round_aux] *)

(** The second stage: renormalise after a carry, and check the range. *)
Definition finish (s : bool) (q E : Z) : spec_float :=
  let '(mrs, e) := shr_fexp prec emax q E loc_Exact in
  match shr_m mrs with
  | Z0 => S754_zero s
  | Zpos m =>
      if e <=? emax - prec then S754_finite s m e else S754_infinity s
  | Zneg _ => S754_nan
  end.

(** Rounding of the quotient [N / D] scaled by [2 ^ e], as [SFdiv] does
    it. *)
Definition divR (s : bool) (N D e : Z) : spec_float :=
  binary_round_aux prec emax s (N / D) e (locD D (N mod D)).

(** Rounding of the integer [M] scaled by [2 ^ e], as [SFadd] and [SFmul]
    do it. *)
Definition rnd (s : bool) (M e : Z) : spec_float :=
  binary_round_aux prec emax s M e loc_Exact.

Lemma rnd_divR (s : bool) (M e : Z) : rnd s M e = divR s M 1 e.
Proof. unfold rnd, divR. rewrite Z.div_1_r, Z.mod_1_r. reflexivity. Qed.

Lemma divR_finish (s : bool) (N D e : Z) :
  0 <= N -> 0 < D ->
  let n := Z.max 0 (fexp prec emax (Zdigits2 (N / D) + e) - e) in
  divR s N D e = finish s (rneD N (D * 2 ^ n)) (e + n).
Proof.
  intros HN HD. cbv zeta. unfold divR, binary_round_aux.
  pose proof (Z.mod_pos_bound N D HD) as Hr.
  pose proof (Z.div_pos N D HN HD) as Hq.
  pose proof (shr_fexp_round (N / D) D (N mod D) e Hq HD Hr) as H.
  cbv zeta in H.
  destruct (shr_fexp prec emax (N / D) e _) as [mrs e'].
  destruct H as [-> ->].
  rewrite (Z.mul_comm (N / D)), <- Z.div_mod by lia. reflexivity.
Qed.

Lemma fexp_eq (x : Z) : fexp prec emax x = Z.max (x - 53) (-1074).
Proof. reflexivity. Qed.

Lemma fexp_mono (x y : Z) : x <= y -> fexp prec emax x <= fexp prec emax y.
Proof. rewrite !fexp_eq. lia. Qed.

Lemma finish_zero (s : bool) (E : Z) : -1074 <= E -> finish s 0 E = S754_zero s.
Proof.
  intros HE. unfold finish, shr_fexp, shr. cbn [Zdigits2 shr_record_of_loc].
  rewrite fexp_eq.
  destruct (Z.max (0 + E - 53) (-1074) - E) eqn:En; try lia; reflexivity.
Qed.

Lemma finish_small (s : bool) (q E : Z) :
  -1074 <= E -> 0 < q < 2 ^ 53 ->
  finish s q E = if E <=? 971 then S754_finite s (Z.to_pos q) E
                 else S754_infinity s.
Proof.
  intros HE Hq. unfold finish, shr_fexp, shr. cbn [shr_record_of_loc].
  rewrite fexp_eq.
  destruct (Zdigits2_bounds q) as (Hd & Hlo & Hhi); [lia|].
  assert (Zdigits2 q <= 53).
  { destruct (Z.le_gt_cases (Zdigits2 q) 53); [assumption|].
    pose proof (pow2_le 53 (Zdigits2 q - 1)). lia. }
  destruct (Z.max (Zdigits2 q + E - 53) (-1074) - E) eqn:En; try lia;
    cbn [shr_m]; destruct q; try lia; reflexivity.
Qed.

Lemma finish_carry (s : bool) (E : Z) :
  -1074 <= E ->
  finish s (2 ^ 53) E
  = if E + 1 <=? 971 then S754_finite s (Z.to_pos (2 ^ 52)) (E + 1)
    else S754_infinity s.
Proof.
  intros HE. unfold finish, shr_fexp, shr. cbn [shr_record_of_loc].
  rewrite fexp_eq. change (Zdigits2 (2 ^ 53)) with 54.
  replace (Z.max (54 + E - 53) (-1074) - E) with 1 by lia.
  reflexivity.
Qed.

(** *** Rounding is monotone *)

(** What [finish] returns for a mantissa [m] at exponent [e]. *)
Definition pack (s : bool) (m e : Z) : spec_float :=
  if m =? 0 then S754_zero s
  else if e <=? 971 then S754_finite s (Z.to_pos m) e
  else S754_infinity s.

(** The mantissa and exponent after the carry of a rounded mantissa. *)
Definition carried (q E : Z) : Z * Z :=
  if q =? 2 ^ 53 then (2 ^ 52, E + 1) else (q, E).

Lemma finish_pack (s : bool) (q E : Z) :
  -1074 <= E -> 0 <= q <= 2 ^ 53 ->
  finish s q E = pack s (fst (carried q E)) (snd (carried q E)).
Proof.
  intros HE Hq. unfold carried, pack.
  destruct (Z.eqb_spec q (2 ^ 53)) as [->|Hne]; cbn [fst snd].
  - rewrite finish_carry by assumption. reflexivity.
  - destruct (Z.eqb_spec q 0) as [->|Hnz].
    + apply finish_zero. assumption.
    + apply finish_small; [assumption | lia].
Qed.

Lemma Zdigits2_nonneg (M : Z) : 0 <= Zdigits2 M.
Proof. destruct M; cbn [Zdigits2]; lia. Qed.

Lemma Zdigits2_upper (M : Z) : 0 <= M -> M < 2 ^ Zdigits2 M.
Proof.
  intros HM. destruct (Z.eq_dec M 0) as [->|Hne]; [reflexivity|].
  apply Zdigits2_bounds. lia.
Qed.

Lemma Zdigits2_mono0 (M N : Z) : 0 <= M <= N -> Zdigits2 M <= Zdigits2 N.
Proof.
  intros [HM HMN]. destruct (Z.eq_dec M 0) as [->|Hne].
  - apply Zdigits2_nonneg.
  - apply Zdigits2_mono. lia.
Qed.

(** The result of rounding at a scale below every representable one: the
    exponent is that of the binade of the quotient, and the rounded mantissa
    fills it. *)
Lemma divR_desc (s : bool) (N D e0 : Z) :
  0 <= N -> 0 < D -> e0 <= -1074 ->
  let E := fexp prec emax (Zdigits2 (N / D) + e0) in
  let q := rneD N (D * 2 ^ (E - e0)) in
  divR s N D e0 = pack s (fst (carried q E)) (snd (carried q E)) /\
  -1074 <= E /\ 0 <= q <= 2 ^ 53 /\ (-1074 < E -> 2 ^ 52 <= q).
Proof.
  intros HN HD He0. cbv zeta. rewrite divR_finish by lia.
  rewrite !fexp_eq.
  pose proof (Z.div_pos N D HN HD) as HQ.
  pose proof (Zdigits2_upper (N / D) HQ) as Hhi.
  pose proof (Zdigits2_nonneg (N / D)) as Hd.
  pose proof (Z.mul_succ_div_gt N D HD) as Hlt.
  pose proof (Z.mul_div_le N D HD) as Hle.
  set (Q := N / D) in *. set (d := Zdigits2 Q) in *.
  replace (Z.max 0 (Z.max (d + e0 - 53) (-1074) - e0))
    with (Z.max (d + e0 - 53) (-1074) - e0) by lia.
  replace (e0 + (Z.max (d + e0 - 53) (-1074) - e0))
    with (Z.max (d + e0 - 53) (-1074)) by lia.
  set (E := Z.max (d + e0 - 53) (-1074)).
  pose proof (pow2_pos (E - e0) ltac:(lia)) as HPn.
  assert (Hq : 0 <= rneD N (D * 2 ^ (E - e0)) <= 2 ^ 53).
  { split; [apply rneD_nonneg; nia|].
    apply rneD_upper; [nia | lia|].
    rewrite <- Z.mul_assoc, <- Z.pow_add_r by lia.
    pose proof (pow2_le d (E - e0 + 53) ltac:(lia)). nia. }
  assert (Hlow : -1074 < E -> 2 ^ 52 <= rneD N (D * 2 ^ (E - e0))).
  { intros HE. apply rneD_lower; [nia | lia|].
    rewrite <- Z.mul_assoc, <- Z.pow_add_r by lia.
    replace (E - e0 + 52) with (d - 1) by lia.
    assert (Hd0 : 0 < d) by (unfold E in HE; lia).
    assert (0 < Q).
    { destruct (Z.eq_dec Q 0) as [HQ0|]; [|lia].
      unfold d in Hd0. rewrite HQ0 in Hd0. cbn [Zdigits2] in Hd0. lia. }
    destruct (Zdigits2_bounds Q ltac:(lia)) as (_ & Hlo & _). fold d in Hlo.
    nia. }
  split; [apply finish_pack; lia|]. split; [lia|]. split; assumption.
Qed.

Lemma SFleb_pack (m1 e1 m2 e2 : Z) :
  0 <= m1 -> 0 <= m2 ->
  m1 = 0 \/ (0 < m2 /\ (e1 < e2 \/ (e1 = e2 /\ m1 <= m2))) ->
  SFleb (pack false m1 e1) (pack false m2 e2) = true.
Proof.
  intros H1 H2 Hc. unfold pack.
  destruct (Z.eqb_spec m1 0) as [->|Hn1].
  - destruct (m2 =? 0); [reflexivity|]. destruct (e2 <=? 971); reflexivity.
  - destruct Hc as [|[Hp2 Hc]]; [lia|].
    destruct (Z.eqb_spec m2 0); [lia|].
    destruct (Z.leb_spec e1 971), (Z.leb_spec e2 971); try reflexivity; try lia.
    unfold SFleb, SFcompare.
    destruct (Z.compare_spec e1 e2); try reflexivity; try lia.
    change (Pos.compare_cont Eq (Z.to_pos m1) (Z.to_pos m2))
      with (Pos.compare (Z.to_pos m1) (Z.to_pos m2)).
    destruct (Pos.compare_spec (Z.to_pos m1) (Z.to_pos m2)); try reflexivity.
    lia.
Qed.

(** Rounding at a fixed scale is monotone in the numerator. *)
Lemma divR_mono (N1 N2 D e0 : Z) :
  0 <= N1 <= N2 -> 0 < D -> e0 <= -1074 ->
  SFleb (divR false N1 D e0) (divR false N2 D e0) = true.
Proof.
  intros [H1 H12] HD He0.
  destruct (divR_desc false N1 D e0 H1 HD He0) as (-> & HE1 & Hq1 & Hl1).
  destruct (divR_desc false N2 D e0 ltac:(lia) HD He0) as (-> & HE2 & Hq2 & Hl2).
  pose proof (Z.div_pos N1 D H1 HD) as HQ1.
  pose proof (Z.div_le_mono N1 N2 D HD H12) as HQ.
  pose proof (Zdigits2_mono0 (N1 / D) (N2 / D) ltac:(lia)) as Hd.
  pose proof (fexp_mono (Zdigits2 (N1 / D) + e0) (Zdigits2 (N2 / D) + e0)
                ltac:(lia)) as HE.
  set (E1 := fexp prec emax (Zdigits2 (N1 / D) + e0)) in *.
  set (E2 := fexp prec emax (Zdigits2 (N2 / D) + e0)) in *.
  assert (Hq : E1 = E2 ->
               rneD N1 (D * 2 ^ (E1 - e0)) <= rneD N2 (D * 2 ^ (E2 - e0))).
  { intros <-. apply rneD_mono; [|lia].
    pose proof (pow2_pos (E1 - e0) ltac:(lia)). nia. }
  set (q1 := rneD N1 (D * 2 ^ (E1 - e0))) in *.
  set (q2 := rneD N2 (D * 2 ^ (E2 - e0))) in *.
  assert (H52 : 2 ^ 52 < 2 ^ 53) by (apply pow2_lt; lia).
  pose proof (pow2_pos 52 ltac:(lia)) as Hp52.
  unfold carried.
  destruct (Z.eqb_spec q1 (2 ^ 53)), (Z.eqb_spec q2 (2 ^ 53));
    cbn [fst snd]; apply SFleb_pack; try lia.
Qed.

(** *** Signs *)

Definition nonneg (x : spec_float) : bool :=
  match x with
  | S754_zero _ | S754_finite false _ _ | S754_infinity false => true
  | _ => false
  end.

Lemma pack_opp (m e : Z) : pack true m e = SFopp (pack false m e).
Proof. unfold pack. destruct (m =? 0), (e <=? 971); reflexivity. Qed.

Lemma pack_nonneg (m e : Z) : nonneg (pack false m e) = true.
Proof. unfold pack. destruct (m =? 0), (e <=? 971); reflexivity. Qed.

Lemma divR_opp (N D e0 : Z) :
  0 <= N -> 0 < D -> e0 <= -1074 ->
  divR true N D e0 = SFopp (divR false N D e0).
Proof.
  intros HN HD He0.
  destruct (divR_desc true N D e0 HN HD He0) as (-> & _).
  destruct (divR_desc false N D e0 HN HD He0) as (-> & _).
  apply pack_opp.
Qed.

Lemma divR_nonneg (N D e0 : Z) :
  0 <= N -> 0 < D -> e0 <= -1074 -> nonneg (divR false N D e0) = true.
Proof.
  intros HN HD He0. destruct (divR_desc false N D e0 HN HD He0) as (-> & _).
  apply pack_nonneg.
Qed.

Lemma SFopp_involutive (x : spec_float) : SFopp (SFopp x) = x.
Proof. destruct x; cbn [SFopp]; rewrite ?negb_involutive; reflexivity. Qed.

Ltac sf_cases :=
  unfold SFleb, SFltb, SFcompare;
  repeat match goal with
    | b : bool |- _ => destruct b
    end; cbn [negb]; try discriminate; try reflexivity;
  repeat match goal with
    | |- context [Pos.compare_cont Eq ?a ?b] =>
        change (Pos.compare_cont Eq a b) with (Pos.compare a b)
    | H : context [Pos.compare_cont Eq ?a ?b] |- _ =>
        change (Pos.compare_cont Eq a b) with (Pos.compare a b) in H
    end;
  repeat match goal with
    | H : context [Z.compare ?a ?b] |- _ =>
        destruct (Z.compare_spec a b)
    | H : context [Pos.compare ?a ?b] |- _ =>
        destruct (Pos.compare_spec a b)
    | |- context [Z.compare ?a ?b] =>
        destruct (Z.compare_spec a b)
    | |- context [Pos.compare ?a ?b] =>
        destruct (Pos.compare_spec a b)
    end; cbn [CompOpp] in *; try discriminate; try reflexivity; try lia.

Lemma SFleb_opp (x y : spec_float) :
  SFleb x y = true -> SFleb (SFopp y) (SFopp x) = true.
Proof.
  destruct x as [sx|sx| |sx mx ex], y as [sy|sy| |sy my ey];
    cbn [SFopp]; intros H; revert H; sf_cases.
Qed.

Lemma SFleb_nonpos_nonneg (x y : spec_float) :
  nonneg (SFopp x) = true -> nonneg y = true -> SFleb x y = true.
Proof.
  destruct x as [sx|sx| |sx mx ex], y as [sy|sy| |sy my ey];
    cbn [SFopp nonneg]; intros Hx Hy; revert Hx Hy; sf_cases.
Qed.

Lemma SFleb_zero_nonneg (s : bool) (y : spec_float) :
  nonneg y = true -> SFleb (S754_zero s) y = true.
Proof.
  destruct y as [sy|sy| |sy my ey]; cbn [nonneg]; intros H; revert H; sf_cases.
Qed.

(** Rounding of the signed quotient [T / D] scaled by [2 ^ e0]. *)
Definition RzD (e0 D T : Z) : spec_float :=
  match T with
  | Z0 => S754_zero false
  | Zpos p => divR false (Zpos p) D e0
  | Zneg p => divR true (Zpos p) D e0
  end.

(** Rounding of the signed integer [T] scaled by [2 ^ e0]. *)
Definition Rz (e0 T : Z) : spec_float :=
  match T with
  | Z0 => S754_zero false
  | Zpos p => rnd false (Zpos p) e0
  | Zneg p => rnd true (Zpos p) e0
  end.

Lemma Rz_RzD (e0 T : Z) : Rz e0 T = RzD e0 1 T.
Proof. destruct T; cbn [Rz RzD]; rewrite ?rnd_divR; reflexivity. Qed.

Theorem RzD_mono (e0 D T1 T2 : Z) :
  e0 <= -1074 -> 0 < D -> T1 <= T2 ->
  SFleb (RzD e0 D T1) (RzD e0 D T2) = true.
Proof.
  intros He0 HD HT. unfold RzD.
  destruct T1 as [|p1|p1], T2 as [|p2|p2]; try lia.
  - reflexivity.
  - apply SFleb_zero_nonneg, divR_nonneg; lia.
  - apply divR_mono; lia.
  - apply SFleb_nonpos_nonneg; [|reflexivity].
    rewrite divR_opp, SFopp_involutive by lia. apply divR_nonneg; lia.
  - apply SFleb_nonpos_nonneg; [|apply divR_nonneg; lia].
    rewrite divR_opp, SFopp_involutive by lia. apply divR_nonneg; lia.
  - rewrite !divR_opp by lia. apply SFleb_opp, divR_mono; lia.
Qed.

Theorem Rz_mono (e0 T1 T2 : Z) :
  e0 <= -1074 -> T1 <= T2 -> SFleb (Rz e0 T1) (Rz e0 T2) = true.
Proof. intros. rewrite !Rz_RzD. apply RzD_mono; lia. Qed.

Lemma RzD_cond (s : bool) (M D e0 : Z) :
  0 < M -> RzD e0 D (cond_Zopp s M) = divR s M D e0.
Proof. destruct M; try lia. destruct s; reflexivity. Qed.

Lemma Rz_cond (s : bool) (M e0 : Z) :
  0 < M -> Rz e0 (cond_Zopp s M) = rnd s M e0.
Proof. destruct M; try lia. destruct s; reflexivity. Qed.

(** Rounded results are valid floats. *)
Lemma pack_valid (s : bool) (q E : Z) :
  -1074 <= E -> 0 <= q <= 2 ^ 53 -> (-1074 < E -> 2 ^ 52 <= q) ->
  valid_binary (pack s (fst (carried q E)) (snd (carried q E))) = true.
Proof.
  intros HE Hq Hlow. unfold carried, pack.
  assert (H52 : 2 ^ 52 < 2 ^ 53) by (apply pow2_lt; lia).
  pose proof (pow2_pos 52 ltac:(lia)) as Hp52.
  assert (Hcanon : forall m e, 0 < m < 2 ^ 53 -> -1074 <= e ->
            (-1074 < e -> 2 ^ 52 <= m) -> e <= 971 ->
            valid_binary (S754_finite s (Z.to_pos m) e) = true).
  { intros m e Hm He Hl He'. cbn [SpecFloat.valid_binary].
    unfold bounded, canonical_mantissa. apply andb_true_intro. split.
    - apply Z.eqb_eq. rewrite fexp_eq.
      pose proof (digits2_pos_bounds (Z.to_pos m)) as [Hlo Hhi].
      rewrite Z2Pos.id in Hlo, Hhi by lia.
      set (d := Zpos (digits2_pos (Z.to_pos m))) in *.
      assert (0 < d) by (unfold d; lia).
      assert (d <= 53).
      { destruct (Z.le_gt_cases d 53); [assumption|].
        pose proof (pow2_le 53 (d - 1)). lia. }
      destruct (Z.eq_dec e (-1074)) as [->|]; [lia|].
      assert (d = 53); [|lia].
      destruct (Z.le_gt_cases 53 d); [lia|].
      pose proof (pow2_le d 52). lia.
    - apply Z.leb_le. exact He'. }
  destruct (Z.eqb_spec q (2 ^ 53)) as [->|Hne]; cbn [fst snd].
  - destruct (Z.eqb_spec (2 ^ 52) 0); [lia|].
    destruct (Z.leb_spec (E + 1) 971); [|reflexivity].
    apply Hcanon; lia.
  - destruct (Z.eqb_spec q 0); [reflexivity|].
    destruct (Z.leb_spec E 971); [|reflexivity].
    apply Hcanon; lia.
Qed.

Lemma RzD_valid (e0 D T : Z) :
  e0 <= -1074 -> 0 < D -> valid_binary (RzD e0 D T) = true.
Proof.
  intros He0 HD. destruct T as [|p|p]; cbn [RzD]; [reflexivity| |].
  - destruct (divR_desc false (Zpos p) D e0 ltac:(lia) HD He0)
      as (-> & HE & Hq & Hl).
    apply pack_valid; assumption.
  - destruct (divR_desc true (Zpos p) D e0 ltac:(lia) HD He0)
      as (-> & HE & Hq & Hl).
    apply pack_valid; assumption.
Qed.

(** *** The value of a float, in units of [2 ^ -1074] *)

Definition V (x : spec_float) : Z :=
  match x with
  | S754_finite s m e => cond_Zopp s (Zpos m * 2 ^ (e + 1074))
  | _ => 0
  end.

Definition is_finite (x : spec_float) : bool :=
  match x with
  | S754_zero _ | S754_finite _ _ _ => true
  | _ => false
  end.

Lemma valid_finite (s : bool) (m : positive) (e : Z) :
  valid_binary (S754_finite s m e) = true ->
  -1074 <= e <= 971 /\ Zpos (digits2_pos m) <= 53 /\
  (-1074 < e -> Zpos (digits2_pos m) = 53) /\
  fexp prec emax (Zpos (digits2_pos m) + e) = e.
Proof.
  cbn [SpecFloat.valid_binary]. unfold bounded, canonical_mantissa.
  intros [Hc He]%andb_prop. apply Z.eqb_eq in Hc. apply Z.leb_le in He.
  change (emax - prec) with 971 in He. pose proof Hc as Hc'.
  rewrite fexp_eq in Hc'. lia.
Qed.

(** The result depends on the value only, not on the scale at which the
    numerator is given. *)
Lemma divR_scale (s : bool) (N D e k : Z) :
  0 <= N -> 0 < D -> 0 <= k ->
  e <= fexp prec emax (Zdigits2 (N / D) + e) ->
  1 <= N / D \/ e <= -1074 ->
  divR s (N * 2 ^ k) D (e - k) = divR s N D e.
Proof.
  intros HN HD Hk Hmode HQ. pose proof (pow2_pos k Hk) as HK.
  rewrite !divR_finish by nia.
  pose proof (Z.div_pos N D HN HD) as HQ0.
  pose proof (Z.mul_succ_div_gt N D HD) as Hlt.
  pose proof (Z.mul_div_le N D HD) as Hle.
  assert (Hlo : N / D * 2 ^ k <= N * 2 ^ k / D).
  { apply Z.div_le_lower_bound; [lia|]. nia. }
  assert (Hhi : N * 2 ^ k / D < (N / D + 1) * 2 ^ k).
  { apply Z.div_lt_upper_bound; [lia|]. nia. }
  assert (HE : fexp prec emax (Zdigits2 (N * 2 ^ k / D) + (e - k))
               = fexp prec emax (Zdigits2 (N / D) + e)).
  { destruct (Z.le_gt_cases 1 (N / D)) as [Hge|Hz].
    - f_equal.
      destruct (Zdigits2_bounds (N / D) ltac:(lia)) as (Hd & Hl & Hh).
      rewrite (Zdigits2_unique (N * 2 ^ k / D) (Zdigits2 (N / D) + k)); [lia|lia|].
      replace (Zdigits2 (N / D) + k - 1) with (Zdigits2 (N / D) - 1 + k) by lia.
      rewrite !Z.pow_add_r by lia. nia.
    - assert (N / D = 0) as HQz by lia. destruct HQ as [|He]; [lia|].
      rewrite HQz in *. cbn [Zdigits2].
      assert (Zdigits2 (N * 2 ^ k / D) <= k).
      { destruct (Z.le_gt_cases (Zdigits2 (N * 2 ^ k / D)) k); [assumption|].
        assert (0 < N * 2 ^ k / D).
        { destruct (Z.eq_dec (N * 2 ^ k / D) 0) as [E0|]; [|lia].
          rewrite E0 in *. cbn [Zdigits2] in *. lia. }
        destruct (Zdigits2_bounds (N * 2 ^ k / D) ltac:(lia)) as (_ & Hl & _).
        pose proof (pow2_le k (Zdigits2 (N * 2 ^ k / D) - 1) ltac:(lia)). lia. }
      rewrite !fexp_eq. lia. }
  rewrite HE. set (E := fexp prec emax (Zdigits2 (N / D) + e)) in *.
  replace (Z.max 0 (E - (e - k))) with (E - e + k) by lia.
  replace (Z.max 0 (E - e)) with (E - e) by lia.
  rewrite Z.pow_add_r, Z.mul_assoc by lia.
  rewrite rneD_scale by (pose proof (pow2_pos (E - e)); nia).
  f_equal. lia.
Qed.

Lemma rnd_scale (s : bool) (M e k : Z) :
  0 < M -> 0 <= k -> e <= fexp prec emax (Zdigits2 M + e) ->
  rnd s (M * 2 ^ k) (e - k) = rnd s M e.
Proof.
  intros HM Hk Hmode. rewrite !rnd_divR.
  apply divR_scale; rewrite ?Z.div_1_r; lia.
Qed.

Lemma iter_xO (m d : positive) :
  Zpos (Pos.iter xO m d) = Zpos m * 2 ^ Zpos d.
Proof.
  induction d as [|d IH] using Pos.peano_ind.
  - cbn [Pos.iter]. change (2 ^ 1) with 2. lia.
  - rewrite Pos.iter_succ, Pos2Z.inj_xO, IH, Pos2Z.inj_succ.
    replace (Z.succ (Zpos d)) with (Zpos d + 1) by lia.
    rewrite pow2_succ by lia. lia.
Qed.

Lemma shl_align_spec (m : positive) (e e' : Z) :
  e' <= e ->
  Zpos (fst (shl_align m e e')) = Zpos m * 2 ^ (e - e') /\
  snd (shl_align m e e') = e'.
Proof.
  intros He. unfold shl_align.
  destruct (e' - e) as [|d|d] eqn:Ed; try lia; cbn [fst snd].
  - replace (e - e') with 0 by lia. change (2 ^ 0) with 1. lia.
  - rewrite iter_xO. replace (e - e') with (Zpos d) by lia. lia.
Qed.

Lemma binary_round_rnd (s : bool) (m : positive) (e : Z) :
  -1074 <= e ->
  binary_round prec emax s m e = rnd s (Zpos m * 2 ^ (e + 1074)) (-1074).
Proof.
  intros He. unfold binary_round.
  set (E := fexp prec emax (Zpos (digits2_pos m) + e)).
  assert (HE : -1074 <= E) by (unfold E; rewrite fexp_eq; lia).
  destruct (Z.le_gt_cases E e) as [Hle|Hgt].
  - destruct (shl_align_spec m e E Hle) as [Hm He'].
    destruct (shl_align m e E) as [mz ez]. cbn [fst snd] in *. subst ez.
    fold (rnd s (Zpos mz) E).
    rewrite <- (rnd_scale s (Zpos mz) E (E + 1074)); try lia.
    + f_equal; [|lia]. rewrite Hm, <- Z.mul_assoc, <- Z.pow_add_r by lia.
      do 2 f_equal. lia.
    + rewrite Hm, Zdigits2_shift by lia. cbn [Zdigits2].
      replace (Zpos (digits2_pos m) + (e - E) + E)
        with (Zpos (digits2_pos m) + e) by lia. fold E. lia.
  - unfold shl_align. destruct (E - e) as [|d|d] eqn:Ed; try lia.
    fold (rnd s (Zpos m) e).
    rewrite <- (rnd_scale s (Zpos m) e (e + 1074)); try lia.
    + f_equal. lia.
    + cbn [Zdigits2]. fold E. lia.
Qed.

Lemma cond_Zopp_mul (s : bool) (x y : Z) :
  cond_Zopp s x * y = cond_Zopp s (x * y).
Proof. destruct s; cbn [cond_Zopp]; lia. Qed.

Lemma binary_normalize_Rz (T e : Z) :
  -1074 <= e ->
  binary_normalize prec emax T e false = Rz (-1074) (T * 2 ^ (e + 1074)).
Proof.
  intros He. pose proof (pow2_pos (e + 1074) ltac:(lia)) as HP.
  destruct T as [|p|p]; cbn [binary_normalize].
  - reflexivity.
  - rewrite binary_round_rnd by assumption.
    rewrite <- (Rz_cond false) by lia. reflexivity.
  - rewrite binary_round_rnd by assumption.
    rewrite <- (Rz_cond true) by lia. cbn [cond_Zopp]. f_equal. lia.
Qed.

(** The sum of two finite floats is the exact sum, rounded. *)
Lemma SFadd_finite (sa sb : bool) (ma mb : positive) (ea eb : Z) :
  -1074 <= ea -> -1074 <= eb ->
  SFadd prec emax (S754_finite sa ma ea) (S754_finite sb mb eb)
  = Rz (-1074) (V (S754_finite sa ma ea) + V (S754_finite sb mb eb)).
Proof.
  intros Ha Hb. cbn [SFadd V].
  destruct (shl_align_spec ma ea (Z.min ea eb) ltac:(lia)) as [Hma _].
  destruct (shl_align_spec mb eb (Z.min ea eb) ltac:(lia)) as [Hmb _].
  rewrite binary_normalize_Rz by lia. f_equal.
  rewrite Hma, Hmb, Z.mul_add_distr_r, !cond_Zopp_mul.
  rewrite <- !Z.mul_assoc, <- !Z.pow_add_r by lia.
  do 2 f_equal; f_equal; f_equal; lia.
Qed.

(** A representable value rounds to itself. *)
Lemma rnd_id (s : bool) (m : positive) (e : Z) :
  valid_binary (S754_finite s m e) = true ->
  rnd s (Zpos m * 2 ^ (e + 1074)) (-1074) = S754_finite s m e.
Proof.
  intros (He & Hd & _ & Hc)%valid_finite.
  replace (rnd s (Zpos m * 2 ^ (e + 1074)) (-1074)) with (rnd s (Zpos m) e).
  2:{ rewrite <- (rnd_scale s (Zpos m) e (e + 1074));
        [f_equal; lia | lia | lia | cbn [Zdigits2]; lia]. }
  rewrite rnd_divR, divR_finish by lia. rewrite Z.div_1_r. cbn [Zdigits2].
  rewrite Hc. replace (Z.max 0 (e - e)) with 0 by lia.
  change (1 * 2 ^ 0) with 1. rewrite rneD_1, Z.add_0_r.
  pose proof (digits2_pos_bounds m) as [_ Hhi].
  pose proof (pow2_le (Zpos (digits2_pos m)) 53 ltac:(lia)).
  rewrite finish_small by lia.
  destruct (Z.leb_spec e 971); [reflexivity | lia].
Qed.

(** The product of two finite floats is the exact product, rounded. *)
Lemma SFmul_finite (sa sb : bool) (ma mb : positive) (ea eb : Z) :
  valid_binary (S754_finite sa ma ea) = true ->
  valid_binary (S754_finite sb mb eb) = true ->
  SFmul prec emax (S754_finite sa ma ea) (S754_finite sb mb eb)
  = Rz (-2148) (V (S754_finite sa ma ea) * V (S754_finite sb mb eb)).
Proof.
  intros (Hea & Hda & Hna & _)%valid_finite (Heb & Hdb & Hnb & _)%valid_finite.
  cbn [SFmul V]. fold (rnd (xorb sa sb) (Zpos (ma * mb)) (ea + eb)).
  pose proof (digits2_pos_bounds ma) as [Hla Hha].
  pose proof (digits2_pos_bounds mb) as [Hlb Hhb].
  set (da := Zpos (digits2_pos ma)) in *. set (db := Zpos (digits2_pos mb)) in *.
  assert (Hda0 : 0 < da) by (unfold da; lia).
  assert (Hdb0 : 0 < db) by (unfold db; lia).
  pose proof (pow2_pos (da - 1) ltac:(lia)) as Hpa.
  pose proof (pow2_pos (db - 1) ltac:(lia)) as Hpb.
  assert (HD : da + db - 1 <= Zdigits2 (Zpos (ma * mb))).
  { destruct (Zdigits2_bounds (Zpos (ma * mb)) ltac:(lia)) as (_ & _ & Hhi).
    destruct (Z.le_gt_cases (da + db - 1) (Zdigits2 (Zpos (ma * mb))))
      as [|Hgt]; [assumption|].
    cbn [Zdigits2] in *.
    set (D := Zpos (digits2_pos (ma * mb))) in *.
    assert (HD0 : 0 < D) by (unfold D; lia).
    pose proof (pow2_le D (da - 1 + (db - 1)) ltac:(lia)) as Hle.
    rewrite Z.pow_add_r in Hle by lia. rewrite Pos2Z.inj_mul in Hhi. nia. }
  pose proof (pow2_pos (ea + 1074) ltac:(lia)) as HPa.
  pose proof (pow2_pos (eb + 1074) ltac:(lia)) as HPb.
  replace (cond_Zopp sa (Zpos ma * 2 ^ (ea + 1074)) *
           cond_Zopp sb (Zpos mb * 2 ^ (eb + 1074)))
    with (cond_Zopp (xorb sa sb)
            (Zpos (ma * mb) * 2 ^ (ea + eb + 2148))).
  2:{ replace (ea + eb + 2148) with (ea + 1074 + (eb + 1074)) by lia.
      rewrite Z.pow_add_r, Pos2Z.inj_mul by lia.
      destruct sa, sb; cbn [xorb cond_Zopp]; lia. }
  rewrite Rz_cond by (pose proof (pow2_pos (ea + eb + 2148)); nia).
  rewrite <- (rnd_scale _ (Zpos (ma * mb)) (ea + eb) (ea + eb + 2148));
    [f_equal; lia | lia | lia |].
  rewrite fexp_eq. lia.
Qed.

Lemma shiftl_match (m s : Z) :
  0 <= s ->
  match s with
  | 0 => m
  | Zpos _ => Z.shiftl m s
  | Zneg _ => 0
  end = m * 2 ^ s.
Proof.
  intros Hs. destruct s as [|p|p]; try lia.
  rewrite Z.shiftl_mul_pow2 by lia. reflexivity.
Qed.

(** The quotient of two finite floats is the exact quotient, rounded. *)
Lemma SFdiv_finite (sa sb : bool) (ma mb : positive) (ea eb : Z) :
  valid_binary (S754_finite sa ma ea) = true ->
  valid_binary (S754_finite sb mb eb) = true ->
  SFdiv prec emax (S754_finite sa ma ea) (S754_finite sb mb eb)
  = divR (xorb sa sb) (Zpos ma * 2 ^ (ea + 1074) * 2 ^ (1926 - eb))
      (Zpos mb) (-3000).
Proof.
  intros (Hea & Hda & Hna & _)%valid_finite (Heb & Hdb & Hnb & _)%valid_finite.
  cbn [SFdiv]. unfold SFdiv_core_binary. cbn [Zdigits2].
  pose proof (digits2_pos_bounds ma) as [Hla Hha].
  pose proof (digits2_pos_bounds mb) as [Hlb Hhb].
  set (d1 := Zpos (digits2_pos ma)) in *. set (d2 := Zpos (digits2_pos mb)) in *.
  assert (Hd1 : 0 < d1) by (unfold d1; lia).
  assert (Hd2 : 0 < d2) by (unfold d2; lia).
  rewrite fexp_eq.
  set (e' := Z.min (Z.max (d1 + ea - (d2 + eb) - 53) (-1074)) (ea - eb)).
  set (s := ea - eb - e').
  assert (Hs : 0 <= s) by (unfold s, e'; lia).
  rewrite (shiftl_match (Zpos ma) s Hs).
  pose proof (pow2_pos s Hs) as HPs.
  set (N := Zpos ma * 2 ^ s) in *.
  assert (Heucl : Z.div_eucl N (Zpos mb) = (N / Zpos mb, N mod Zpos mb)).
  { unfold Z.div, Z.modulo. destruct (Z.div_eucl N (Zpos mb)). reflexivity. }
  rewrite Heucl.
  rewrite new_location_locD by (try apply Z.mod_pos_bound; lia).
  fold (divR (xorb sa sb) N (Zpos mb) e').
  assert (HQ : 1 <= N / Zpos mb \/ e' <= -1074).
  { destruct (Z.le_gt_cases e' (-1074)) as [|He']; [right; assumption|].
    left. apply Z.div_le_lower_bound; [lia|].
    assert (53 - d1 + d2 <= s) by (unfold s, e' in *; lia).
    pose proof (pow2_le (53 - d1 + d2) s ltac:(lia)) as Hle.
    pose proof (pow2_pos (d1 - 1) ltac:(lia)) as Hp1.
    assert (H2 : 2 ^ (d1 - 1) * 2 ^ (53 - d1 + d2) = 2 ^ (52 + d2)).
    { rewrite <- Z.pow_add_r by lia. f_equal. lia. }
    pose proof (pow2_le d2 (52 + d2) ltac:(lia)).
    unfold N. nia. }
  assert (Hmode : e' <= fexp prec emax (Zdigits2 (N / Zpos mb) + e')).
  { rewrite fexp_eq.
    destruct (Z.le_gt_cases e' (-1074)) as [|He']; [lia|].
    assert (53 - d1 + d2 <= s) by (unfold s, e' in *; lia).
    assert (2 ^ 52 <= N / Zpos mb).
    { apply Z.div_le_lower_bound; [lia|].
      pose proof (pow2_le (53 - d1 + d2) s ltac:(lia)) as Hle.
      pose proof (pow2_pos (d1 - 1) ltac:(lia)) as Hp1.
      assert (H2 : 2 ^ (d1 - 1) * 2 ^ (53 - d1 + d2) = 2 ^ 52 * 2 ^ d2).
      { rewrite <- !Z.pow_add_r by lia. f_equal. lia. }
      pose proof (pow2_pos 52 ltac:(lia)).
      unfold N. nia. }
    pose proof (pow2_pos 52 ltac:(lia)).
    destruct (Zdigits2_bounds (N / Zpos mb) ltac:(lia)) as (_ & _ & Hhi).
    destruct (Z.le_gt_cases 53 (Zdigits2 (N / Zpos mb))); [lia|].
    pose proof (pow2_le (Zdigits2 (N / Zpos mb)) 52
                  ltac:(pose proof (Zdigits2_nonneg (N / Zpos mb)); lia)).
    lia. }
  rewrite <- (divR_scale _ N (Zpos mb) e' (e' + 3000));
    [|unfold N; nia|lia|unfold e'; lia|assumption|assumption].
  f_equal; [|lia]. unfold N.
  rewrite <- !Z.mul_assoc, <- !Z.pow_add_r by (unfold s, e'; lia).
  do 2 f_equal. unfold s. lia.
Qed.

(** *** The order of floats *)

Lemma SFleb_trans (x y z : spec_float) :
  SFleb x y = true -> SFleb y z = true -> SFleb x z = true.
Proof.
  destruct x as [sx|sx| |sx mx ex], y as [sy|sy| |sy my ey],
           z as [sz|sz| |sz mz ez]; intros H1 H2; revert H1 H2; sf_cases.
Qed.

Lemma SFltb_leb_trans (x y z : spec_float) :
  SFltb x y = true -> SFleb y z = true -> SFltb x z = true.
Proof.
  destruct x as [sx|sx| |sx mx ex], y as [sy|sy| |sy my ey],
           z as [sz|sz| |sz mz ez]; intros H1 H2; revert H1 H2; sf_cases.
Qed.

Lemma SFleb_ltb_trans (x y z : spec_float) :
  SFleb x y = true -> SFltb y z = true -> SFltb x z = true.
Proof.
  destruct x as [sx|sx| |sx mx ex], y as [sy|sy| |sy my ey],
           z as [sz|sz| |sz mz ez]; intros H1 H2; revert H1 H2; sf_cases.
Qed.

Lemma SFltb_leb (x y : spec_float) : SFltb x y = true -> SFleb x y = true.
Proof.
  destruct x as [sx|sx| |sx mx ex], y as [sy|sy| |sy my ey];
    intros H; revert H; sf_cases.
Qed.

(** Without a NaN, one of [x < y] and [y <= x] holds. *)
Lemma SFltb_false_leb (x y : spec_float) :
  SFltb x y = false -> SFleb x x = true -> SFleb y y = true ->
  SFleb y x = true.
Proof.
  destruct x as [sx|sx| |sx mx ex], y as [sy|sy| |sy my ey];
    intros H1 H2 H3; revert H1 H2 H3; sf_cases.
Qed.

Lemma SFleb_refl_finite (x : spec_float) : is_finite x = true -> SFleb x x = true.
Proof.
  destruct x as [sx|sx| |sx mx ex]; cbn [is_finite]; try discriminate; intros _.
  - reflexivity.
  - unfold SFleb, SFcompare. rewrite Z.compare_refl.
    change (Pos.compare_cont Eq mx mx) with (Pos.compare mx mx).
    rewrite Pos.compare_refl. destruct sx; reflexivity.
Qed.

Lemma SFleb_not_nan (x y : spec_float) :
  SFleb x y = true -> SFleb x x = true /\ SFleb y y = true.
Proof.
  destruct x as [sx|sx| |sx mx ex], y as [sy|sy| |sy my ey];
    intros H; split; revert H; try discriminate; intros _;
    unfold SFleb, SFcompare; rewrite ?Z.compare_refl;
    repeat match goal with
      | |- context [Pos.compare_cont Eq ?a ?a] =>
          change (Pos.compare_cont Eq a a) with (Pos.compare a a);
          rewrite Pos.compare_refl
      | b : bool |- _ => destruct b
      end; reflexivity.
Qed.

(** On valid finite floats the order is the order of the values. *)
Lemma SFleb_V (x y : spec_float) :
  valid_binary x = true -> valid_binary y = true ->
  is_finite x = true -> is_finite y = true ->
  SFleb x y = true -> V x <= V y.
Proof.
  destruct x as [sx|sx| |sx mx ex], y as [sy|sy| |sy my ey];
    cbn [is_finite]; try discriminate; intros Vx Vy _ _.
  - cbn [V]. pose proof (pow2_pos (ey + 1074)).
    apply valid_finite in Vy. destruct sy; [discriminate|].
    intros _. cbn [cond_Zopp]. nia.
  - cbn [V]. pose proof (pow2_pos (ex + 1074)).
    apply valid_finite in Vx. destruct sx; [|discriminate].
    intros _. cbn [cond_Zopp]. nia.
  - apply valid_finite in Vx as (Hex & Hdx & Hnx & _).
    apply valid_finite in Vy as (Hey & Hdy & Hny & _).
    pose proof (digits2_pos_bounds mx) as [Hlx Hhx].
    pose proof (digits2_pos_bounds my) as [Hly Hhy].
    pose proof (pow2_le (Zpos (digits2_pos mx)) 53 ltac:(lia)) as Hx53.
    pose proof (pow2_le (Zpos (digits2_pos my)) 53 ltac:(lia)) as Hy53.
    pose proof (pow2_pos (ex + 1074) ltac:(lia)) as HPx.
    pose proof (pow2_pos (ey + 1074) ltac:(lia)) as HPy.
    assert (Hlt : forall m1 e1 m2 e2,
               -1074 <= e1 < e2 -> Zpos m1 < 2 ^ 53 -> 2 ^ 52 <= Zpos m2 ->
               Zpos m1 * 2 ^ (e1 + 1074) <= Zpos m2 * 2 ^ (e2 + 1074)).
    { intros m1 e1 m2 e2 He H1 H2.
      replace (e2 + 1074) with (e1 + 1074 + (e2 - e1)) by lia.
      rewrite (Z.pow_add_r 2 (e1 + 1074) (e2 - e1)) by lia.
      pose proof (pow2_pos (e1 + 1074) ltac:(lia)).
      pose proof (pow2_le 1 (e2 - e1) ltac:(lia)) as Hge.
      change (2 ^ 1) with 2 in Hge. change (2 ^ 53) with (2 ^ 52 * 2) in H1.
      pose proof (pow2_pos 52 ltac:(lia)) as H52.
      set (P := 2 ^ (e1 + 1074)) in *. set (Q := 2 ^ (e2 - e1)) in *.
      set (C := 2 ^ 52) in *.
      assert (C * 2 <= Zpos m2 * Q) by (apply Z.mul_le_mono_nonneg; lia).
      assert (Zpos m1 * P <= C * 2 * P) by (apply Z.mul_le_mono_nonneg_r; lia).
      assert (C * 2 * P <= Zpos m2 * Q * P)
        by (apply Z.mul_le_mono_nonneg_r; lia).
      lia. }
    cbn [V]. unfold SFleb, SFcompare.
    change (Pos.compare_cont Eq mx my) with (Pos.compare mx my).
    destruct sx, sy; cbn [cond_Zopp]; try discriminate; try (intros _; nia).
    + destruct (Z.compare_spec ex ey) as [->|Hl|Hg];
        [destruct (Pos.compare_spec mx my) | |]; cbn [CompOpp];
        try discriminate; intros _.
      * subst. lia.
      * nia.
      * assert (Zpos (digits2_pos mx) = 53) as E53 by lia.
        rewrite E53 in Hlx. change (2 ^ (53 - 1)) with (2 ^ 52) in Hlx.
        pose proof (Hlt my ey mx ex ltac:(lia) ltac:(lia) Hlx). lia.
    + destruct (Z.compare_spec ex ey) as [->|Hl|Hg];
        [destruct (Pos.compare_spec mx my) | |];
        try discriminate; intros _.
      * subst. lia.
      * nia.
      * assert (Zpos (digits2_pos my) = 53) as E53 by lia.
        rewrite E53 in Hly. change (2 ^ (53 - 1)) with (2 ^ 52) in Hly.
        pose proof (Hlt mx ex my ey ltac:(lia) ltac:(lia) Hly). lia.
Qed.

(** *** Addition and multiplication are monotone *)

Lemma Rz_refl (e0 T : Z) : e0 <= -1074 -> SFleb (Rz e0 T) (Rz e0 T) = true.
Proof. intros. apply Rz_mono; lia. Qed.

Lemma V_zero (s : bool) : V (S754_zero s) = 0.
Proof. reflexivity. Qed.

Lemma Rz_V (x : spec_float) :
  valid_binary x = true -> is_finite x = true ->
  x = Rz (-1074) (V x) \/ exists s, x = S754_zero s.
Proof.
  destruct x as [s|s| |s m e]; cbn [is_finite]; try discriminate; intros Hv _.
  - right. exists s. reflexivity.
  - left. cbn [V]. rewrite Rz_cond.
    + symmetry. apply rnd_id. assumption.
    + apply valid_finite in Hv. pose proof (pow2_pos (e + 1074)). nia.
Qed.

(** Up to the sign of a zero result, [SFadd] is the rounded exact sum. *)
Lemma SFadd_exact (x y : spec_float) :
  valid_binary x = true -> valid_binary y = true ->
  is_finite x = true -> is_finite y = true ->
  SFleb (SFadd prec emax x y) (Rz (-1074) (V x + V y)) = true /\
  SFleb (Rz (-1074) (V x + V y)) (SFadd prec emax x y) = true.
Proof.
  intros Vx Vy Fx Fy.
  destruct x as [sx|sx| |sx mx ex]; try discriminate;
    destruct y as [sy|sy| |sy my ey]; try discriminate.
  - destruct sx, sy; split; reflexivity.
  - destruct (Rz_V _ Vy Fy) as [E|[s E]]; [|discriminate].
    rewrite V_zero, Z.add_0_l, <- E. cbn [SFadd].
    split; apply SFleb_refl_finite; reflexivity.
  - destruct (Rz_V _ Vx Fx) as [E|[s E]]; [|discriminate].
    rewrite V_zero, Z.add_0_r, <- E. cbn [SFadd].
    split; apply SFleb_refl_finite; reflexivity.
  - rewrite SFadd_finite.
    + split; apply Rz_refl; lia.
    + apply valid_finite in Vx. lia.
    + apply valid_finite in Vy. lia.
Qed.

Theorem SFadd_mono (a a' b b' : spec_float) :
  valid_binary a = true -> valid_binary a' = true ->
  valid_binary b = true -> valid_binary b' = true ->
  is_finite a = true -> is_finite a' = true ->
  is_finite b = true -> is_finite b' = true ->
  V a <= V a' -> V b <= V b' ->
  SFleb (SFadd prec emax a b) (SFadd prec emax a' b') = true.
Proof.
  intros Va Va' Vb Vb' Fa Fa' Fb Fb' Ha Hb.
  destruct (SFadd_exact a b Va Vb Fa Fb) as [H1 _].
  destruct (SFadd_exact a' b' Va' Vb' Fa' Fb') as [_ H2].
  eapply SFleb_trans; [exact H1|]. eapply SFleb_trans; [|exact H2].
  apply Rz_mono; lia.
Qed.

(** Up to the sign of a zero result, [SFmul] is the rounded exact
    product. *)
Lemma SFmul_exact (x y : spec_float) :
  valid_binary x = true -> valid_binary y = true ->
  is_finite x = true -> is_finite y = true ->
  SFleb (SFmul prec emax x y) (Rz (-2148) (V x * V y)) = true /\
  SFleb (Rz (-2148) (V x * V y)) (SFmul prec emax x y) = true.
Proof.
  intros Vx Vy Fx Fy.
  destruct x as [sx|sx| |sx mx ex]; try discriminate;
    destruct y as [sy|sy| |sy my ey]; try discriminate.
  - split; reflexivity.
  - rewrite V_zero, Z.mul_0_l. split; reflexivity.
  - rewrite V_zero, Z.mul_0_r. split; reflexivity.
  - rewrite SFmul_finite by assumption. split; apply Rz_refl; lia.
Qed.

Theorem SFmul_mono_nonneg (a a' w : spec_float) :
  valid_binary a = true -> valid_binary a' = true -> valid_binary w = true ->
  is_finite a = true -> is_finite a' = true -> is_finite w = true ->
  V a <= V a' -> 0 <= V w ->
  SFleb (SFmul prec emax a w) (SFmul prec emax a' w) = true.
Proof.
  intros Va Va' Vw Fa Fa' Fw Ha Hw.
  destruct (SFmul_exact a w Va Vw Fa Fw) as [H1 _].
  destruct (SFmul_exact a' w Va' Vw Fa' Fw) as [_ H2].
  eapply SFleb_trans; [exact H1|]. eapply SFleb_trans; [|exact H2].
  apply Rz_mono; [lia|]. apply Z.mul_le_mono_nonneg_r; assumption.
Qed.

Lemma SFadd_finite_inv (x y : spec_float) :
  is_finite (SFadd prec emax x y) = true -> is_finite x = true /\ is_finite y = true.
Proof.
  destruct x as [sx|sx| |sx mx ex], y as [sy|sy| |sy my ey];
    cbn [is_finite]; try (intros _; split; reflexivity);
    cbn [SFadd]; try discriminate;
    destruct sx; try destruct sy; cbn [is_finite]; discriminate.
Qed.

Lemma SFmul_finite_inv (x y : spec_float) :
  is_finite (SFmul prec emax x y) = true -> is_finite x = true /\ is_finite y = true.
Proof.
  destruct x as [sx|sx| |sx mx ex], y as [sy|sy| |sy my ey];
    cbn [is_finite]; try (intros _; split; reflexivity);
    cbn [SFmul is_finite]; discriminate.
Qed.

(** *** Division by a positive float is monotone *)

(** Up to the sign of a zero result, [SFdiv] by a positive number is the
    rounded exact quotient. *)
Lemma SFdiv_exact (x : spec_float) (mw : positive) (ew : Z) :
  valid_binary x = true -> valid_binary (S754_finite false mw ew) = true ->
  is_finite x = true ->
  let q := RzD (-3000) (Zpos mw) (V x * 2 ^ (1926 - ew)) in
  SFleb (SFdiv prec emax x (S754_finite false mw ew)) q = true /\
  SFleb q (SFdiv prec emax x (S754_finite false mw ew)) = true.
Proof.
  intros Vx Vw Fx. cbv zeta.
  destruct x as [sx|sx| |sx mx ex]; try discriminate.
  - rewrite V_zero, Z.mul_0_l. split; reflexivity.
  - rewrite SFdiv_finite by assumption. cbn [V].
    apply valid_finite in Vx as (Hex & _). apply valid_finite in Vw as (Hew & _).
    pose proof (pow2_pos (ex + 1074) ltac:(lia)).
    pose proof (pow2_pos (1926 - ew) ltac:(lia)).
    rewrite cond_Zopp_mul, RzD_cond by nia. rewrite xorb_false_r.
    assert (Hr : forall T, SFleb (RzD (-3000) (Zpos mw) T)
                             (RzD (-3000) (Zpos mw) T) = true)
      by (intros T; apply RzD_mono; lia).
    rewrite <- (RzD_cond sx) by nia. split; apply Hr.
Qed.

Lemma SFleb_inf_r (x : spec_float) :
  SFleb x x = true -> SFleb x (S754_infinity false) = true.
Proof. destruct x as [s|[|]| |[|] m e]; try discriminate; reflexivity. Qed.

Lemma SFleb_inf_l (x : spec_float) :
  SFleb x x = true -> SFleb (S754_infinity true) x = true.
Proof. destruct x as [s|[|]| |[|] m e]; try discriminate; reflexivity. Qed.

Lemma SFdiv_not_nan (x : spec_float) (mw : positive) (ew : Z) :
  valid_binary x = true -> valid_binary (S754_finite false mw ew) = true ->
  SFleb x x = true ->
  SFleb (SFdiv prec emax x (S754_finite false mw ew))
        (SFdiv prec emax x (S754_finite false mw ew)) = true.
Proof.
  intros Vx Vw Hx. destruct (is_finite x) eqn:Fx.
  - destruct (SFdiv_exact x mw ew Vx Vw Fx) as [H1 H2].
    eapply SFleb_trans; eassumption.
  - destruct x as [s|[|]| |s m e]; try discriminate; reflexivity.
Qed.

Theorem SFdiv_mono_pos (a a' : spec_float) (mw : positive) (ew : Z) :
  valid_binary a = true -> valid_binary a' = true ->
  valid_binary (S754_finite false mw ew) = true ->
  SFleb a a' = true ->
  SFleb (SFdiv prec emax a (S754_finite false mw ew))
        (SFdiv prec emax a' (S754_finite false mw ew)) = true.
Proof.
  intros Va Va' Vw Hle.
  destruct (SFleb_not_nan a a' Hle) as [Na Na'].
  pose proof (SFdiv_not_nan a mw ew Va Vw Na) as Da.
  pose proof (SFdiv_not_nan a' mw ew Va' Vw Na') as Da'.
  destruct (is_finite a) eqn:Fa, (is_finite a') eqn:Fa'.
  - destruct (SFdiv_exact a mw ew Va Vw Fa) as [H1 _].
    destruct (SFdiv_exact a' mw ew Va' Vw Fa') as [_ H2].
    eapply SFleb_trans; [exact H1|]. eapply SFleb_trans; [|exact H2].
    apply RzD_mono; [lia | lia|].
    apply valid_finite in Vw as (Hew & _).
    pose proof (pow2_pos (1926 - ew) ltac:(lia)).
    apply Z.mul_le_mono_nonneg_r; [lia|]. apply SFleb_V; assumption.
  - destruct a' as [s'|[|]| |s' m' e']; try discriminate.
    + destruct a as [s|[|]| |[|] m e]; discriminate.
    + apply SFleb_inf_r. assumption.
  - destruct a as [s|[|]| |s m e]; try discriminate.
    + apply SFleb_inf_l. assumption.
    + destruct a' as [s'|[|]| |[|] m' e']; discriminate.
  - destruct a as [s|[|]| |s m e]; try discriminate;
      destruct a' as [s'|[|]| |s' m' e']; try discriminate; reflexivity.
Qed.

(** Conversion of integers. *)
Lemma binary_normalize_valid (z : Z) :
  valid_binary (binary_normalize prec emax z 0 false) = true.
Proof.
  rewrite binary_normalize_Rz, Rz_RzD by lia. apply RzD_valid; lia.
Qed.

Lemma binary_normalize_mono (z z' : Z) :
  z <= z' ->
  SFleb (binary_normalize prec emax z 0 false)
        (binary_normalize prec emax z' 0 false) = true.
Proof.
  intros Hz. rewrite !binary_normalize_Rz by lia. apply Rz_mono; [lia|].
  apply Z.mul_le_mono_nonneg_r; [|assumption].
  apply Z.lt_le_incl, pow2_pos. lia.
Qed.

(** *** Multiplication by a positive float, infinities included *)

Lemma SFmul_not_nan (x : spec_float) (mw : positive) (ew : Z) :
  valid_binary x = true -> valid_binary (S754_finite false mw ew) = true ->
  SFleb x x = true ->
  SFleb (SFmul prec emax x (S754_finite false mw ew))
        (SFmul prec emax x (S754_finite false mw ew)) = true.
Proof.
  intros Vx Vw Hx. destruct (is_finite x) eqn:Fx.
  - destruct (SFmul_exact x _ Vx Vw Fx eq_refl) as [H1 H2].
    eapply SFleb_trans; eassumption.
  - destruct x as [s|[|]| |s m e]; try discriminate; reflexivity.
Qed.

Theorem SFmul_mono_pos (a a' : spec_float) (mw : positive) (ew : Z) :
  valid_binary a = true -> valid_binary a' = true ->
  valid_binary (S754_finite false mw ew) = true ->
  SFleb a a' = true ->
  SFleb (SFmul prec emax a (S754_finite false mw ew))
        (SFmul prec emax a' (S754_finite false mw ew)) = true.
Proof.
  intros Va Va' Vw Hle.
  destruct (SFleb_not_nan a a' Hle) as [Na Na'].
  pose proof (SFmul_not_nan a mw ew Va Vw Na) as Da.
  pose proof (SFmul_not_nan a' mw ew Va' Vw Na') as Da'.
  destruct (is_finite a) eqn:Fa, (is_finite a') eqn:Fa'.
  - apply SFmul_mono_nonneg; try assumption; try reflexivity.
    + apply SFleb_V; assumption.
    + cbn [V cond_Zopp]. apply valid_finite in Vw as (Hew & _).
      pose proof (pow2_pos (ew + 1074) ltac:(lia)). nia.
  - destruct a' as [s'|[|]| |s' m' e']; try discriminate.
    + destruct a as [s|[|]| |[|] m e]; discriminate.
    + apply SFleb_inf_r. assumption.
  - destruct a as [s|[|]| |s m e]; try discriminate.
    + apply SFleb_inf_l. assumption.
    + destruct a' as [s'|[|]| |[|] m' e']; discriminate.
  - destruct a as [s|[|]| |s m e]; try discriminate;
      destruct a' as [s'|[|]| |s' m' e']; try discriminate; reflexivity.
Qed.


End FloatOrder.

(** ** The points formula *)

Module ScoringFacts.
Import Scoring FloatOrder.

(** Order of floats through their specification. *)
Lemma ltb_leb_false (x y z : float) :
  (x <? y)%float = true → (y <=? z)%float = true → (z <=? x)%float = false.
Proof.
  rewrite ltb_spec, !leb_spec.
  destruct (Prim2SF x) as [sx| sx | |sx mx ex],
           (Prim2SF y) as [sy| sy | |sy my ey],
           (Prim2SF z) as [sz| sz | |sz mz ez];
    unfold SFltb, SFleb, SFcompare;
    repeat match goal with
      | b : bool |- _ => destruct b
      end; try discriminate; try reflexivity;
    repeat match goal with
      | |- context [Z.compare ?a ?b] =>
          let E := fresh "E" in destruct (Z.compare_spec a b) as [E|E|E]
      | |- context [Pos.compare_cont Eq ?a ?b] =>
          change (Pos.compare_cont Eq a b) with (Pos.compare a b);
          let E := fresh "E" in destruct (Pos.compare_spec a b) as [E|E|E]
      end; simpl; try discriminate; try reflexivity; try lia.
Qed.

(** The loops of [calculateMC] stop within five tests on every input. *)
Lemma sum_upto_min_total (i : float) :
  ∃ r, sum_upto 5 1 (min i 4) 0 = Some r.
Proof.
  assert (Hb : (5 <=? min i 4)%float = false).
  { unfold min. destruct (i <? 4)%float eqn:Hi; [|reflexivity].
    apply (ltb_leb_false i 4 5 Hi). reflexivity. }
  cbv [sum_upto].
  repeat match goal with
    | |- context [(?k <=? ?b)%float] =>
        lazymatch k with
        | context [PrimFloat.add] => let k' := eval vm_compute in k in change k with k'
        | _ => destruct (k <=? b)%float eqn:?
        end
    end; eauto; congruence.
Qed.

Lemma calculateMC_total (i j : float) : ∃ r, calculateMC i j = Some r.
Proof.
  unfold calculateMC.
  destruct (sum_upto_min_total i) as [r1 ->], (sum_upto_min_total j) as [r2 ->].
  simpl. eauto.
Qed.

(** C6: the population weighting at the six boundary counts, and its
    agreement with the section 4.3 table at every population: the repeated
    [<= 5000] test changes nothing. *)
Theorem weighting_table :
  weighting 2000 = 2%float ∧ weighting 2001 = 1.8%float ∧
  weighting 5000 = 1.8%float ∧ weighting 5001 = 1.6%float ∧
  weighting 10000 = 1.6%float ∧ weighting 10001 = 1.4%float ∧
  ∀ p : Z, weighting p = populationWeighting p.
Proof.
  repeat split.
  intros p. unfold weighting, populationWeighting.
  repeat (destruct (_ <=? _)%Z; try reflexivity).
Qed.

(** 1500 GB in bytes. *)
Definition disk1500GB : float := 1610612736000%float.

(** C5: 4 cores, memory 4, bandwidth 200, FullCone NAT, 1500 GB of disk and
    1000 edges give exactly 130 points, through cpu/memory 14, bandwidth 35,
    disk 16, weighting 2 and online factor 1. *)
Theorem points_scenario (id : string) (ty : NodeType) (du : float)
  (seen dur : Z) (ws : list Z) :
  let n := mkNode id ty (mkNodeInfo 4 4 disk1500GB) 200 NatTypeFullCone
             du seen dur ws in
  calculateMC (float_of_int (CPUCores (Info n))) (Memory (Info n))
    = Some 14%float ∧
  ((10 + min (float_of_int (BandwidthUp n) / 100) 5 * 2)
     * calculateMN (NATType n))%float = 35%float ∧
  bytesToGB (DiskSpace (Info n)) = 1500%float ∧
  (min 1500 2000 * (0.01 + 1 / max 1500 1000))%float = 16%float ∧
  weighting 1000 = 2%float ∧
  ((14 + 35 + 16) * 2 * 1.0)%float = 130%float ∧
  calculateAndSavePoints 1000 n = Some 130.
Proof. vm_compute. repeat split. Qed.

(** *** Floats of the formula: order, finiteness, monotone operations *)

Definition fle (x y : float) : Prop := (x <=? y)%float = true.
Definition ffinite (x : float) : Prop := is_finite (Prim2SF x) = true.

Lemma fle_trans (x y z : float) : fle x y -> fle y z -> fle x z.
Proof. unfold fle. rewrite !leb_spec. apply SFleb_trans. Qed.

Lemma fle_refl (x : float) : ffinite x -> fle x x.
Proof. unfold fle, ffinite. rewrite leb_spec. apply SFleb_refl_finite. Qed.

Lemma fle_V (x y : float) :
  ffinite x -> ffinite y -> fle x y -> V (Prim2SF x) <= V (Prim2SF y).
Proof.
  unfold fle, ffinite. rewrite leb_spec. intros Fx Fy.
  apply SFleb_V; auto using Prim2SF_valid.
Qed.

Lemma add_mono (x x' y y' : float) :
  ffinite x -> ffinite x' -> ffinite y -> ffinite y' ->
  fle x x' -> fle y y' -> fle (x + y) (x' + y').
Proof.
  intros Fx Fx' Fy Fy' Hx Hy. unfold fle. rewrite leb_spec, !add_spec.
  apply SFadd_mono; auto using Prim2SF_valid, fle_V.
Qed.

Lemma mul_mono (x x' w : float) :
  ffinite x -> ffinite x' -> ffinite w ->
  fle x x' -> fle 0 w -> fle (x * w) (x' * w).
Proof.
  intros Fx Fx' Fw Hx Hw. unfold fle. rewrite leb_spec, !mul_spec.
  apply SFmul_mono_nonneg; auto using Prim2SF_valid, fle_V.
  apply (fle_V 0 w); [reflexivity | assumption | assumption].
Qed.

Lemma ffinite_add (x y : float) : ffinite (x + y) -> ffinite x /\ ffinite y.
Proof. unfold ffinite. rewrite add_spec. apply SFadd_finite_inv. Qed.

Lemma ffinite_mul (x y : float) : ffinite (x * y) -> ffinite x /\ ffinite y.
Proof. unfold ffinite. rewrite mul_spec. apply SFmul_finite_inv. Qed.

(** [int(x)] is the value of [x] with its fraction dropped. *)
Lemma trunc_SF_V (x : spec_float) (p : Z) :
  valid_binary x = true -> trunc_SF x = Some p ->
  is_finite x = true /\ p = Z.quot (V x) (2 ^ 1074).
Proof.
  destruct x as [s|s| |s m e]; cbn [trunc_SF]; try discriminate.
  - intros _ [= <-]. split; reflexivity.
  - intros (He & _)%valid_finite. cbv zeta.
    assert (Ha : (if 0 <=? e then Zpos m * 2 ^ e else Zpos m / 2 ^ (- e))
                 = (Zpos m * 2 ^ (e + 1074)) / 2 ^ 1074).
    { destruct (Z.leb_spec 0 e).
      - rewrite Z.pow_add_r, Z.mul_assoc, Z.div_mul by lia. reflexivity.
      - replace 1074 with (- e + (e + 1074)) at 2 by lia.
        rewrite (Z.pow_add_r 2 (- e)) by lia.
        rewrite Z.div_mul_cancel_r; [reflexivity| |];
          apply Z.neq_sym, Z.lt_neq, pow2_pos; lia. }
    rewrite Ha. set (X := Zpos m * 2 ^ (e + 1074)).
    assert (HX : 0 <= X) by (unfold X; pose proof (pow2_pos (e + 1074)); nia).
    destruct (_ && _); [|discriminate]. intros [= <-].
    split; [reflexivity|]. cbn [V]. fold X.
    destruct s; cbn [cond_Zopp].
    + rewrite Z.quot_opp_l, Z.quot_div_nonneg by lia. reflexivity.
    + rewrite Z.quot_div_nonneg by lia. reflexivity.
Qed.

Lemma int_of_float_finite (x : float) (p : Z) :
  int_of_float x = Some p -> ffinite x.
Proof.
  unfold int_of_float, ffinite. intros H.
  apply trunc_SF_V in H as [H _]; auto using Prim2SF_valid.
Qed.

Lemma int_of_float_mono (x y : float) (p q : Z) :
  fle x y -> int_of_float x = Some p -> int_of_float y = Some q -> p <= q.
Proof.
  unfold int_of_float. intros Hle Hx Hy.
  apply trunc_SF_V in Hx as [Fx ->]; auto using Prim2SF_valid.
  apply trunc_SF_V in Hy as [Fy ->]; auto using Prim2SF_valid.
  apply Z.quot_le_mono; [lia|]. apply fle_V; assumption.
Qed.

(** The last line of [calculateAndSavePoints] is monotone in the three
    scores. *)
Lemma points_combine (mc mc' mbn mbn' ms ms' w : float) (p p' : Z) :
  fle mc mc' -> fle mbn mbn' -> fle ms ms' -> fle 0 w ->
  int_of_float ((mc + mbn + ms) * w * 1)%float = Some p ->
  int_of_float ((mc' + mbn' + ms') * w * 1)%float = Some p' ->
  p <= p'.
Proof.
  intros Hmc Hmbn Hms Hw Hp Hp'.
  pose proof (int_of_float_finite _ _ Hp) as F4.
  pose proof (int_of_float_finite _ _ Hp') as F4'.
  destruct (ffinite_mul _ _ F4) as [F3 F1].
  destruct (ffinite_mul _ _ F3) as [F2 Fw].
  destruct (ffinite_add _ _ F2) as [Ft Fms].
  destruct (ffinite_add _ _ Ft) as [Fmc Fmbn].
  destruct (ffinite_mul _ _ F4') as [F3' _].
  destruct (ffinite_mul _ _ F3') as [F2' _].
  destruct (ffinite_add _ _ F2') as [Ft' Fms'].
  destruct (ffinite_add _ _ Ft') as [Fmc' Fmbn'].
  apply (int_of_float_mono _ _ _ _) with (2 := Hp) (3 := Hp').
  apply mul_mono; [assumption | assumption | assumption | | reflexivity].
  apply mul_mono; [assumption | assumption | assumption | | assumption].
  apply add_mono; [assumption | assumption | assumption | assumption | | assumption].
  apply add_mono; assumption.
Qed.

Lemma fle_not_nan (x y : float) : fle x y -> fle x x /\ fle y y.
Proof. unfold fle. rewrite !leb_spec. apply SFleb_not_nan. Qed.

(** Multiplying and dividing by a positive constant keeps the order, also
    of infinities. *)
Lemma mul_mono_pos (x x' w : float) (mw : positive) (ew : Z) :
  Prim2SF w = S754_finite false mw ew -> fle x x' -> fle (x * w) (x' * w).
Proof.
  unfold fle. rewrite !leb_spec, !mul_spec. intros Hw.
  pose proof (Prim2SF_valid w) as Vw. rewrite Hw in *.
  apply SFmul_mono_pos; auto using Prim2SF_valid.
Qed.

Lemma div_mono (x x' w : float) (mw : positive) (ew : Z) :
  Prim2SF w = S754_finite false mw ew -> fle x x' -> fle (x / w) (x' / w).
Proof.
  unfold fle. rewrite !leb_spec, !div_spec. intros Hw.
  pose proof (Prim2SF_valid w) as Vw. rewrite Hw in *.
  apply SFdiv_mono_pos; auto using Prim2SF_valid.
Qed.

Lemma float_of_int_mono (z z' : Z) :
  z <= z' -> fle (float_of_int z) (float_of_int z').
Proof.
  intros H. unfold fle, float_of_int.
  rewrite leb_spec, !Prim2SF_SF2Prim by apply binary_normalize_valid.
  apply binary_normalize_mono. assumption.
Qed.

Lemma min_mono (a a' c : float) :
  fle c c -> fle a a' -> fle (min a c) (min a' c).
Proof.
  intros Hc Ha. destruct (fle_not_nan _ _ Ha) as [Na Na'].
  unfold min.
  destruct (a <? c)%float eqn:E, (a' <? c)%float eqn:E'; try assumption.
  - unfold fle. rewrite leb_spec. rewrite ltb_spec in E.
    apply SFltb_leb. assumption.
  - rewrite ltb_spec in E. unfold fle in *. rewrite leb_spec in *.
    eapply SFleb_trans; [apply SFltb_false_leb; eassumption | assumption].
Qed.

(** **** The cpu and memory score *)

(** What one loop of [calculateMC] adds up, by the bound it runs to. *)
Definition loopSum (b : float) : float :=
  (if 1 <=? b then
     if 2 <=? b then
       if 3 <=? b then
         if 4 <=? b then 10 else 6
       else 3
     else 1
   else 0)%float.

Lemma min4_below5 (i : float) : (5 <=? min i 4)%float = false.
Proof.
  unfold min. destruct (i <? 4)%float eqn:Hi; [|reflexivity].
  apply (ltb_leb_false i 4 5 Hi). reflexivity.
Qed.

Lemma sum_upto_loopSum (b : float) :
  (5 <=? b)%float = false -> sum_upto 5 1 b 0 = Some (loopSum b).
Proof.
  intros H. cbv [sum_upto loopSum].
  change (1 + 1)%float with 2%float. change (2 + 1)%float with 3%float.
  change (3 + 1)%float with 4%float. change (4 + 1)%float with 5%float.
  change (0 + 1)%float with 1%float. change (1 + 2)%float with 3%float.
  change (3 + 3)%float with 6%float. change (6 + 4)%float with 10%float.
  rewrite H.
  destruct (1 <=? b)%float, (2 <=? b)%float, (3 <=? b)%float,
    (4 <=? b)%float; reflexivity.
Qed.

Lemma loopSum_finite (b : float) : ffinite (loopSum b).
Proof.
  unfold loopSum.
  destruct (1 <=? b)%float, (2 <=? b)%float, (3 <=? b)%float,
    (4 <=? b)%float; reflexivity.
Qed.

Lemma loopSum_mono (b b' : float) : fle b b' -> fle (loopSum b) (loopSum b').
Proof.
  intros Hb.
  assert (Hk : forall k : float,
             (k <=? b)%float = true -> (k <=? b')%float = true).
  { intros k Hk. unfold fle in Hb. rewrite leb_spec in *.
    eapply SFleb_trans; eassumption. }
  unfold loopSum.
  destruct (1 <=? b)%float eqn:E1; [rewrite (Hk _ E1)|];
  [destruct (2 <=? b)%float eqn:E2; [rewrite (Hk _ E2)|];
   [destruct (3 <=? b)%float eqn:E3; [rewrite (Hk _ E3)|];
    [destruct (4 <=? b)%float eqn:E4; [rewrite (Hk _ E4)|]|]|]|];
  repeat match goal with
    | |- context [(?k <=? b')%float] => destruct (k <=? b')%float
    end; reflexivity.
Qed.

Definition cpuMemoryScore (i j : float) : float :=
  ((loopSum (min i 4) + loopSum (min j 4)) * 0.7)%float.

Lemma calculateMC_loopSum (i j : float) :
  calculateMC i j = Some (cpuMemoryScore i j).
Proof.
  unfold calculateMC.
  rewrite !sum_upto_loopSum by apply min4_below5. reflexivity.
Qed.

Lemma loopSum_min_mono (i i' : float) :
  i = i' \/ fle i i' -> fle (loopSum (min i 4)) (loopSum (min i' 4)).
Proof.
  intros [<- | H].
  - apply fle_refl, loopSum_finite.
  - apply loopSum_mono, min_mono; [reflexivity | assumption].
Qed.

Lemma cpuMemoryScore_mono (i i' j j' : float) :
  i = i' \/ fle i i' -> j = j' \/ fle j j' ->
  fle (cpuMemoryScore i j) (cpuMemoryScore i' j').
Proof.
  intros Hi Hj. unfold cpuMemoryScore.
  eapply mul_mono_pos; [reflexivity|].
  apply add_mono; auto using loopSum_finite, loopSum_min_mono.
Qed.

(** **** The bandwidth score *)

Definition bandwidthScore (bw : Z) (natType : NatType) : float :=
  ((10 + min (float_of_int bw / 100) 5 * 2) * calculateMN natType)%float.

Lemma bandwidthScore_mono (bw bw' : Z) (natType : NatType) :
  bw <= bw' ->
  ffinite (bandwidthScore bw natType) ->
  ffinite (bandwidthScore bw' natType) ->
  fle (bandwidthScore bw natType) (bandwidthScore bw' natType).
Proof.
  unfold bandwidthScore. intros Hb F F'.
  destruct (ffinite_mul _ _ F) as [Fb Fn].
  destruct (ffinite_mul _ _ F') as [Fb' _].
  destruct (ffinite_add _ _ Fb) as [_ Ft].
  destruct (ffinite_add _ _ Fb') as [_ Ft'].
  apply mul_mono; try assumption.
  - apply add_mono; try assumption; try reflexivity.
    eapply mul_mono_pos; [reflexivity|].
    apply min_mono; [reflexivity|].
    eapply div_mono; [reflexivity|].
    apply float_of_int_mono. assumption.
  - destruct natType; reflexivity.
Qed.

(** **** The disk score *)

Definition diskScore (d : float) : float :=
  let size := bytesToGB d in
  (min size 2000 * (0.01 + 1 / max size 1000))%float.

Lemma bytesToGB_mono (d d' : float) :
  fle d d' -> fle (bytesToGB d) (bytesToGB d').
Proof.
  intros H. unfold bytesToGB.
  eapply div_mono; [reflexivity|].
  eapply div_mono; [reflexivity|].
  eapply div_mono; [reflexivity|]. assumption.
Qed.

Lemma min_2000_low (s : float) : fle s 1000 -> min s 2000 = s.
Proof.
  unfold fle, min. rewrite leb_spec. intros H.
  assert (E : (s <? 2000)%float = true).
  { rewrite ltb_spec. eapply SFleb_ltb_trans; [exact H | reflexivity]. }
  rewrite E. reflexivity.
Qed.

Lemma max_1000_low (s : float) : fle s 1000 -> max s 1000 = 1000%float.
Proof.
  unfold fle, max. rewrite leb_spec. intros H.
  destruct (1000 <? s)%float eqn:E; [|reflexivity].
  rewrite ltb_spec in E.
  pose proof (SFltb_leb_trans _ _ _ E H) as C. discriminate C.
Qed.

(** Up to 1000 GB the disk score is the size times a constant. *)
Lemma diskScore_mono_low (d d' : float) :
  fle d d' -> fle (bytesToGB d') 1000 -> fle (diskScore d) (diskScore d').
Proof.
  intros Hd Hs'. pose proof (bytesToGB_mono _ _ Hd) as Hs.
  pose proof (fle_trans _ _ _ Hs Hs') as Hs0.
  unfold diskScore. cbv zeta.
  rewrite !min_2000_low, !max_1000_low by assumption.
  eapply mul_mono_pos; [reflexivity | assumption].
Qed.

(** **** The points *)

Lemma calculateAndSavePoints_scores (edges : Z) (n : Node) :
  calculateAndSavePoints edges n
  = int_of_float
      ((cpuMemoryScore (float_of_int (CPUCores (Info n))) (Memory (Info n))
        + bandwidthScore (BandwidthUp n) (NATType n)
        + diskScore (DiskSpace (Info n)))
       * weighting edges * 1)%float.
Proof.
  unfold calculateAndSavePoints. rewrite calculateMC_loopSum. reflexivity.
Qed.

Lemma points_finite (mc mbn ms w : float) (p : Z) :
  int_of_float ((mc + mbn + ms) * w * 1)%float = Some p ->
  ffinite mc /\ ffinite mbn /\ ffinite ms.
Proof.
  intros Hp. pose proof (int_of_float_finite _ _ Hp) as F4.
  destruct (ffinite_mul _ _ F4) as [F3 _].
  destruct (ffinite_mul _ _ F3) as [F2 _].
  destruct (ffinite_add _ _ F2) as [Ft Fms].
  destruct (ffinite_add _ _ Ft) as [Fmc Fmbn]. auto.
Qed.

Lemma weighting_nonneg (edges : Z) : fle 0 (weighting edges).
Proof.
  unfold weighting. repeat (destruct (_ <=? _)%Z; [reflexivity|]).
  reflexivity.
Qed.

(** C7: with the NAT class and the edge population fixed, more CPU cores,
    more memory and more upstream bandwidth never lower the points, whatever
    the values, and neither does more disk space as long as the disk score
    itself does not drop, which is the case up to 1000 GB.  Between 1000 and
    2000 GB the rounding of the disk score can lower it by one unit in the
    last place (see the examples).  The points
    are [None] only when the final conversion to [int] is undefined. *)
Theorem points_monotone (edges : Z) (n n' : Node) (p p' : Z) :
  NATType n = NATType n' ->
  CPUCores (Info n) <= CPUCores (Info n') ->
  Memory (Info n) = Memory (Info n')
    \/ fle (Memory (Info n)) (Memory (Info n')) ->
  BandwidthUp n <= BandwidthUp n' ->
  DiskSpace (Info n) = DiskSpace (Info n')
    \/ (fle (DiskSpace (Info n)) (DiskSpace (Info n'))
        /\ fle (bytesToGB (DiskSpace (Info n'))) 1000)
    \/ fle (diskScore (DiskSpace (Info n))) (diskScore (DiskSpace (Info n'))) ->
  calculateAndSavePoints edges n = Some p ->
  calculateAndSavePoints edges n' = Some p' ->
  p <= p'.
Proof.
  intros HN Hc Hm Hb Hd Hp Hp'.
  rewrite calculateAndSavePoints_scores in Hp, Hp'. rewrite HN in Hp.
  destruct (points_finite _ _ _ _ _ Hp) as (_ & Fb & _).
  destruct (points_finite _ _ _ _ _ Hp') as (_ & Fb' & Fs').
  refine (points_combine _ _ _ _ _ _ _ _ _ _ _ _ (weighting_nonneg edges) Hp Hp').
  - apply cpuMemoryScore_mono; [|assumption].
    right. apply float_of_int_mono. assumption.
  - apply bandwidthScore_mono; assumption.
  - destruct Hd as [-> | [[Hd Hs] | Hd]].
    + apply fle_refl. assumption.
    + apply diskScore_mono_low; assumption.
    + assumption.
Qed.

(** *** The range of the cpu and memory score *)

Lemma ltb_trans_const (x y z : float) :
  (x <? y)%float = true -> (y <=? z)%float = true -> (x <? z)%float = true.
Proof. rewrite !ltb_spec, leb_spec. apply SFltb_leb_trans. Qed.

(** [calculateMC] returns on every pair of floats, NaN and the infinities
    included, with a result from 0 to 14.  An argument that is not below 4
    counts as 4, and so does NaN; two such arguments give 14.  Arguments
    below 1 give 0. *)
Theorem calculateMC_range (i j : float) :
  ∃ r, calculateMC i j = Some r ∧ fle 0 r ∧ fle r 14 ∧
       ((i <? 4)%float = false → (j <? 4)%float = false → r = 14%float) ∧
       ((i <? 1)%float = true → (j <? 1)%float = true → r = 0%float).
Proof.
  exists (cpuMemoryScore i j). split; [apply calculateMC_loopSum|].
  assert (Hlow : ∀ x : float, (x <? 1)%float = true → loopSum (min x 4) = 0%float).
  { intros x Hx. unfold min.
    rewrite (ltb_trans_const x 1 4 Hx) by reflexivity.
    unfold loopSum. by rewrite (ltb_leb_false x 1 1 Hx). }
  assert (Hhigh : ∀ x : float, (x <? 4)%float = false → loopSum (min x 4) = 10%float).
  { intros x Hx. unfold min. by rewrite Hx. }
  split; [|split; [|split]].
  - unfold cpuMemoryScore, loopSum.
    repeat (destruct (_ <=? _)%float); reflexivity.
  - unfold cpuMemoryScore, loopSum.
    repeat (destruct (_ <=? _)%float); reflexivity.
  - intros Hi Hj. unfold cpuMemoryScore. by rewrite (Hhigh i Hi), (Hhigh j Hj).
  - intros Hi Hj. unfold cpuMemoryScore. by rewrite (Hlow i Hi), (Hlow j Hj).
Qed.

(** *** The population weighting falls with the population *)

(** More edges never give a larger weighting, and the weighting stays
    between 1 and 2. *)
Theorem weighting_antitone (num num' : Z) :
  num ≤ num' →
  fle (weighting num') (weighting num) ∧
  fle 1 (weighting num) ∧ fle (weighting num) 2.
Proof.
  intros Hle. unfold weighting.
  repeat match goal with
    | |- context [(?a <=? ?b)%Z] => destruct (Z.leb_spec a b)
    end; try lia; repeat split; reflexivity.
Qed.

(** *** An unknown NAT type cancels the bandwidth *)

Lemma ffinite_between (a x b : float) :
  ffinite a -> ffinite b -> fle a x -> fle x b -> ffinite x.
Proof.
  unfold ffinite, fle. rewrite !leb_spec.
  destruct (Prim2SF x) as [sx|[|]| |sx mx ex]; try reflexivity;
    destruct (Prim2SF a) as [sa|sa| |[|] ma ea],
             (Prim2SF b) as [sb|sb| |[|] mb eb]; discriminate.
Qed.

(** The bandwidth term before the NAT factor is finite for every [int64]
    bandwidth. *)
Lemma bandwidthBase_finite (bw : Z) :
  - 2 ^ 63 <= bw < 2 ^ 63 ->
  ffinite (10 + min (float_of_int bw / 100) 5 * 2).
Proof.
  intros [Hlo Hhi].
  assert (Hterm : forall z z' : Z, z <= z' ->
            fle (min (float_of_int z / 100) 5 * 2)
                (min (float_of_int z' / 100) 5 * 2)).
  { intros z z' Hz. eapply mul_mono_pos; [reflexivity|].
    apply min_mono; [reflexivity|].
    eapply div_mono; [reflexivity|]. by apply float_of_int_mono. }
  assert (Ft : ffinite (min (float_of_int bw / 100) 5 * 2)).
  { apply (ffinite_between (min (float_of_int (- 2 ^ 63) / 100) 5 * 2) _
                           (min (float_of_int (2 ^ 63) / 100) 5 * 2));
      [reflexivity | reflexivity | apply Hterm; lia | apply Hterm; lia]. }
  apply (ffinite_between (10 + min (float_of_int (- 2 ^ 63) / 100) 5 * 2) _
                         (10 + min (float_of_int (2 ^ 63) / 100) 5 * 2));
    [reflexivity | reflexivity | |];
    apply add_mono; try reflexivity; try assumption; apply Hterm; lia.
Qed.

Lemma mul_zero_r (x : float) :
  ffinite x -> exists s, Prim2SF (x * 0) = S754_zero s.
Proof.
  unfold ffinite. rewrite mul_spec.
  change (Prim2SF 0) with (S754_zero false).
  destruct (Prim2SF x) as [sx|sx| |sx mx ex]; try discriminate; intros _;
    eexists; reflexivity.
Qed.

Lemma cpuMemoryScore_add_zero (i j z : float) (s : bool) :
  Prim2SF z = S754_zero s ->
  (cpuMemoryScore i j + z)%float = cpuMemoryScore i j.
Proof.
  intros Hz. rewrite <- (SF2Prim_Prim2SF z), Hz.
  unfold cpuMemoryScore, loopSum.
  destruct s; repeat (destruct (_ <=? _)%float); reflexivity.
Qed.

(** Behind a NAT of unknown type the bandwidth does not count: the factor
    is 0, and two nodes that differ in their upstream bandwidth only get
    the same points, whatever the two [int64] bandwidths are. *)
Theorem points_unknown_nat (edges : Z) (n n' : Node) :
  NATType n = NatTypeUnknown → NATType n' = NatTypeUnknown →
  Info n' = Info n →
  - 2 ^ 63 ≤ BandwidthUp n < 2 ^ 63 → - 2 ^ 63 ≤ BandwidthUp n' < 2 ^ 63 →
  calculateAndSavePoints edges n' = calculateAndSavePoints edges n.
Proof.
  intros HN HN' HI Hb Hb'. rewrite !calculateAndSavePoints_scores.
  rewrite HI, HN, HN'. unfold bandwidthScore. cbn [calculateMN].
  destruct (mul_zero_r _ (bandwidthBase_finite _ Hb)) as [s Hz].
  destruct (mul_zero_r _ (bandwidthBase_finite _ Hb')) as [s' Hz'].
  by rewrite (cpuMemoryScore_add_zero _ _ _ _ Hz),
             (cpuMemoryScore_add_zero _ _ _ _ Hz').
Qed.

End ScoringFacts.

(** ** The ledger *)

Module LedgerFacts.

Lemma repayWeight_lookup (pool : gmap Z string) (ws : list Z) (h : Z) :
  repayWeight pool ws !! h = if decide (h ∈ ws) then None else pool !! h.
Proof.
  unfold repayWeight. induction ws as [|w ws IH].
  - case_decide as Hin; [by apply not_elem_of_nil in Hin | done].
  - cbn [foldr]. rewrite lookup_delete, IH.
    repeat destruct (decide _); set_solver.
Qed.

Lemma repayWeight_nil (pool : gmap Z string) : repayWeight pool [] = pool.
Proof. reflexivity. Qed.

(** Repaying touches the given handles only. *)
Lemma repayWeight_other (pool : gmap Z string) (ws : list Z) (h : Z) :
  h ∉ ws → repayWeight pool ws !! h = pool !! h.
Proof. intros Hh. rewrite repayWeight_lookup. by rewrite decide_False. Qed.

Lemma slotsOf_empty_iff (id : string) (pool : gmap Z string) :
  slotsOf id pool = ∅ ↔ ∀ h, pool !! h ≠ Some id.
Proof.
  unfold slotsOf. rewrite map_empty. split; intros Hall h.
  - intros Hh. specialize (Hall h).
    apply map_lookup_filter_None in Hall as [Hn|Hn]; [congruence|].
    by apply (Hn id).
  - apply map_lookup_filter_None. right. intros x Hx. simpl.
    intros ->. by apply (Hall h).
Qed.

(** Allocation adds exactly [n] fresh handles, all owned by [id]. *)
Lemma distributeWeight_spec (n : nat) (pool : gmap Z string) (id : string) :
  ∀ ws pool', distributeWeight pool id n = (ws, pool') →
    length ws = n ∧ NoDup ws ∧
    (∀ h, h ∈ ws → pool !! h = None) ∧
    (∀ h, pool' !! h = if decide (h ∈ ws) then Some id else pool !! h) ∧
    size pool' = (size pool + n)%nat.
Proof.
  revert pool. induction n as [|n IH]; intros pool ws pool'; simpl.
  - intros [= <- <-]. split; [done|]. split; [apply NoDup_nil_2|].
    split; [intros h Hin; by apply not_elem_of_nil in Hin|].
    split; [|lia].
    intros h. case_decide as Hin; [by apply not_elem_of_nil in Hin | done].
  - set (w := fresh (dom pool)).
    destruct (distributeWeight (<[w:=id]> pool) id n) as [ws0 pool0] eqn:E.
    intros [= <- <-].
    assert (Hw : pool !! w = None).
    { apply not_elem_of_dom. apply is_fresh. }
    destruct (IH _ _ _ E) as (Hlen & Hnd & Hfresh & Hlk & Hsz).
    assert (Hw0 : w ∉ ws0).
    { intros Hin. specialize (Hfresh w Hin). by rewrite lookup_insert_eq in Hfresh. }
    repeat split.
    + simpl. by rewrite Hlen.
    + by constructor.
    + intros h [->|Hin]%elem_of_cons; [done|].
      specialize (Hfresh h Hin).
      rewrite lookup_insert in Hfresh. by case_decide.
    + intros h. rewrite Hlk, lookup_insert.
      repeat destruct (decide _); set_solver.
    + rewrite Hsz, map_size_insert_None by done. lia.
Qed.

End LedgerFacts.

(** ** The registry *)

Section RegistryFacts.
Context `{Collaborators}.

Lemma Manager_eta (s : Manager) :
  mkManager (heap s) (edgeNodes s) (candidateNodes s) (Edges s)
    (Candidates s) (weightMgr s) (events s) = s.
Proof. by destruct s. Qed.

Lemma Node_eta (n : Node) :
  mkNode (NodeID n) (Type_ n) (Info n) (BandwidthUp n) (NATType n)
    (DiskUsage n) (LastRequestTime n) (OnlineDuration n) (selectWeights n) = n.
Proof. by destruct n. Qed.

Lemma weightManager_eta (w : weightManager) :
  mkWeightManager (edgeWeights w) (candidateWeights w) = w.
Proof. by destruct w. Qed.

(** Running a bind. *)
Lemma bind_Some {A B} (c : M A) (k : A → M B) (s s1 : Manager) (a : A) :
  c s = Some (a, s1) → (c ≫= k) s = k a s1.
Proof. unfold mbind, M_bind. by intros ->. Qed.

Lemma bind_None {A B} (c : M A) (k : A → M B) (s : Manager) :
  c s = None → (c ≫= k) s = None.
Proof. unfold mbind, M_bind. by intros ->. Qed.

Lemma deref_Some (s : Manager) (a : nat) (n : Node) :
  heap s !! a = Some n → deref (Some a) s = Some (n, s).
Proof. unfold deref. by intros ->. Qed.

Lemma update_Some (s : Manager) (a : nat) (n : Node) (f : Node → Node) :
  heap s !! a = Some n →
  update (Some a) f s = Some (tt, set_heap <[a := f n]> s).
Proof. unfold update. by intros ->. Qed.

(** What [RepayNodeWeight] leaves behind. *)
Definition repaid (a : nat) (n : Node) (s : Manager) : Manager :=
  match Type_ n with
  | NodeCandidate =>
      mkManager (<[a := set_selectWeights [] n]> (heap s)) (edgeNodes s)
        (candidateNodes s) (Edges s) (Candidates s)
        (mkWeightManager (edgeWeights (weightMgr s))
           (repayWeight (candidateWeights (weightMgr s)) (selectWeights n)))
        (events s)
  | NodeEdge =>
      mkManager (<[a := set_selectWeights [] n]> (heap s)) (edgeNodes s)
        (candidateNodes s) (Edges s) (Candidates s)
        (mkWeightManager
           (repayWeight (edgeWeights (weightMgr s)) (selectWeights n))
           (candidateWeights (weightMgr s)))
        (events s)
  | NodeOther => s
  end.

Lemma RepayNodeWeight_run (s : Manager) (a : nat) (n : Node) :
  heap s !! a = Some n →
  RepayNodeWeight (Some a) s = Some (tt, repaid a n s).
Proof.
  intros Hn. unfold RepayNodeWeight, repaid.
  rewrite (bind_Some _ _ _ _ _ (deref_Some _ _ _ Hn)).
  destruct (Type_ n); [| |done].
  - unfold repayEdgeWeight, modify, mbind, M_bind, update. simpl. by rewrite Hn.
  - unfold repayCandidateWeight, modify, mbind, M_bind, update. simpl.
    by rewrite Hn.
Qed.

Lemma repaid_heap (s : Manager) (a : nat) (n : Node) :
  heap s !! a = Some n →
  ∃ n', heap (repaid a n s) !! a = Some n' ∧ NodeID n' = NodeID n ∧
        Type_ n' = Type_ n ∧
        selectWeights n' = match Type_ n with
                           | NodeOther => selectWeights n
                           | _ => []
                           end.
Proof.
  intros Hn. unfold repaid.
  destruct (Type_ n) eqn:Ht; simpl; rewrite ?lookup_insert_eq; eauto.
Qed.

Lemma repaid_frame (s : Manager) (a : nat) (n : Node) :
  edgeNodes (repaid a n s) = edgeNodes s ∧
  candidateNodes (repaid a n s) = candidateNodes s ∧
  Edges (repaid a n s) = Edges s ∧ Candidates (repaid a n s) = Candidates s ∧
  events (repaid a n s) = events s.
Proof. unfold repaid. by destruct (Type_ n). Qed.

(** The state after [deleteEdgeNode] and [deleteCandidateNode]. *)
Lemma deleteEdgeNode_run (s : Manager) (a : nat) (n : Node) :
  heap s !! a = Some n →
  deleteEdgeNode (Some a) s =
    let s1 := repaid a n s in
    Some (tt, mkManager (heap s1) (delete (NodeID n) (edgeNodes s))
                (candidateNodes s)
                (match edgeNodes s !! NodeID n with
                 | Some _ => wrap64 (Edges s - 1)
                 | None => Edges s
                 end)
                (Candidates s) (weightMgr s1)
                (events s ++ [EvPub (Some a) EventNodeOffline])).
Proof.
  intros Hn. unfold deleteEdgeNode.
  rewrite (bind_Some _ _ _ _ _ (RepayNodeWeight_run _ _ _ Hn)).
  destruct (repaid_heap s a n Hn) as (n' & Hn' & Hid & _).
  destruct (repaid_frame s a n) as (He & Hc & HE & HC & Hev).
  unfold emit, modify, gets, mbind, M_bind, deref, LoadAndDelete. simpl.
  rewrite Hn'. cbn. rewrite He, Hid.
  destruct (edgeNodes s !! NodeID n) eqn:Hl; cbn;
    unfold mret, M_ret, set_Edges, set_Candidates, set_edgeNodes,
      set_candidateNodes, set_events; cbn;
    rewrite ?He, ?Hc, ?HE, ?HC, ?Hev; [done|].
  by rewrite delete_id.
Qed.

Lemma deleteCandidateNode_run (s : Manager) (a : nat) (n : Node) :
  heap s !! a = Some n →
  deleteCandidateNode (Some a) s =
    let s1 := repaid a n s in
    Some (tt, mkManager (heap s1) (edgeNodes s)
                (delete (NodeID n) (candidateNodes s)) (Edges s)
                (match candidateNodes s !! NodeID n with
                 | Some _ => wrap64 (Candidates s - 1)
                 | None => Candidates s
                 end)
                (weightMgr s1)
                (events s ++ [EvPub (Some a) EventNodeOffline])).
Proof.
  intros Hn. unfold deleteCandidateNode.
  rewrite (bind_Some _ _ _ _ _ (RepayNodeWeight_run _ _ _ Hn)).
  destruct (repaid_heap s a n Hn) as (n' & Hn' & Hid & _).
  destruct (repaid_frame s a n) as (He & Hc & HE & HC & Hev).
  unfold emit, modify, gets, mbind, M_bind, deref, LoadAndDelete. simpl.
  rewrite Hn'. cbn. rewrite Hc, Hid.
  destruct (candidateNodes s !! NodeID n) eqn:Hl; cbn;
    unfold mret, M_ret, set_Edges, set_Candidates, set_edgeNodes,
      set_candidateNodes, set_events; cbn;
    rewrite ?He, ?Hc, ?HE, ?HC, ?Hev; [done|].
  by rewrite delete_id.
Qed.

(** What [DistributeNodeWeight] leaves behind. *)
Definition distributed (a : nat) (n : Node) (s : Manager) : Manager :=
  if IsAbnormal n then s
  else
    let wNum := getWeightNum (getNodeScoreLevel (NodeID n)) in
    match Type_ n with
    | NodeCandidate =>
        let '(ws, pool) :=
          distributeWeight (candidateWeights (weightMgr s)) (NodeID n) wNum in
        mkManager (<[a := set_selectWeights ws n]> (heap s)) (edgeNodes s)
          (candidateNodes s) (Edges s) (Candidates s)
          (mkWeightManager (edgeWeights (weightMgr s)) pool) (events s)
    | NodeEdge =>
        let '(ws, pool) :=
          distributeWeight (edgeWeights (weightMgr s)) (NodeID n) wNum in
        mkManager (<[a := set_selectWeights ws n]> (heap s)) (edgeNodes s)
          (candidateNodes s) (Edges s) (Candidates s)
          (mkWeightManager pool (candidateWeights (weightMgr s))) (events s)
    | NodeOther => s
    end.

Lemma DistributeNodeWeight_run (s : Manager) (a : nat) (n : Node) :
  heap s !! a = Some n →
  DistributeNodeWeight (Some a) s = Some (tt, distributed a n s).
Proof.
  intros Hn. unfold DistributeNodeWeight, distributed.
  rewrite (bind_Some _ _ _ _ _ (deref_Some _ _ _ Hn)).
  destruct (IsAbnormal n); [done|].
  destruct (Type_ n); [| |done].
  - unfold distributeEdgeWeight, mbind, M_bind, update.
    destruct (distributeWeight _ _ _) as [ws pool]. simpl. by rewrite Hn.
  - unfold distributeCandidateWeight, mbind, M_bind, update.
    destruct (distributeWeight _ _ _) as [ws pool]. simpl. by rewrite Hn.
Qed.

Lemma distributed_frame (s : Manager) (a : nat) (n : Node) :
  edgeNodes (distributed a n s) = edgeNodes s ∧
  candidateNodes (distributed a n s) = candidateNodes s ∧
  Edges (distributed a n s) = Edges s ∧
  Candidates (distributed a n s) = Candidates s ∧
  events (distributed a n s) = events s.
Proof.
  unfold distributed. destruct (IsAbnormal n); [done|].
  destruct (Type_ n); [| |done]; by destruct (distributeWeight _ _ _).
Qed.

(** Allocation rewrites the handle list of the node at [a] and nothing else
    in the heap. *)
Lemma distributed_heap (s : Manager) (a : nat) (n : Node) :
  heap s !! a = Some n →
  ∀ b m, heap s !! b = Some m →
    ∃ ws, heap (distributed a n s) !! b = Some (set_selectWeights ws m).
Proof.
  intros Hn b m Hm.
  assert (Hsame : ∃ ws, heap s !! b = Some (set_selectWeights ws m)).
  { exists (selectWeights m). rewrite Hm. f_equal. by destruct m. }
  unfold distributed. destruct (IsAbnormal n); [done|].
  destruct (Type_ n); [| |done];
    destruct (distributeWeight _ _ _) as [ws pool]; simpl;
    (destruct (decide (a = b)) as [->|Hne];
     [rewrite lookup_insert_eq; exists ws; congruence
     |by rewrite lookup_insert_ne]).
Qed.

(** The number of slots one [DistributeNodeWeight] call adds to each pool. *)
Definition edgeSlotsFor (n : Node) : nat :=
  if IsAbnormal n then 0%nat
  else match Type_ n with
       | NodeEdge => getWeightNum (getNodeScoreLevel (NodeID n))
       | _ => 0%nat
       end.

Definition candidateSlotsFor (n : Node) : nat :=
  if IsAbnormal n then 0%nat
  else match Type_ n with
       | NodeCandidate => getWeightNum (getNodeScoreLevel (NodeID n))
       | _ => 0%nat
       end.

Lemma distributed_size (s : Manager) (a : nat) (n : Node) :
  size (edgeWeights (weightMgr (distributed a n s)))
    = (size (edgeWeights (weightMgr s)) + edgeSlotsFor n)%nat ∧
  size (candidateWeights (weightMgr (distributed a n s)))
    = (size (candidateWeights (weightMgr s)) + candidateSlotsFor n)%nat.
Proof.
  unfold distributed, edgeSlotsFor, candidateSlotsFor.
  destruct (IsAbnormal n); [lia|].
  destruct (Type_ n); [| |lia];
    destruct (distributeWeight _ _ _) as [ws pool] eqn:E;
    apply LedgerFacts.distributeWeight_spec in E as (_ & _ & _ & _ & Hsz);
    simpl; lia.
Qed.

(** The state after [storeEdgeNode] and [storeCandidateNode]. *)
Lemma storeEdgeNode_run (s : Manager) (a : nat) (n : Node) :
  heap s !! a = Some n →
  storeEdgeNode (Some a) s =
    match edgeNodes s !! NodeID n with
    | Some _ => Some (tt, s)
    | None =>
        let s1 := distributed a n
          (mkManager (heap s) (<[NodeID n := Some a]> (edgeNodes s))
             (candidateNodes s) (wrap64 (Edges s + 1)) (Candidates s)
             (weightMgr s) (events s)) in
        Some (tt, set_events (λ l, l ++ [EvPub (Some a) EventNodeOnline]) s1)
    end.
Proof.
  intros Hn. unfold storeEdgeNode.
  rewrite (bind_Some _ _ _ _ _ (deref_Some _ _ _ Hn)).
  unfold gets, LoadOrStore, mbind at 1, M_bind at 1.
  destruct (edgeNodes s !! NodeID n) eqn:Hl.
  - unfold modify, mbind, M_bind, mret, M_ret, set_edgeNodes. simpl.
    by rewrite Manager_eta.
  - unfold modify, mbind at 1 2, M_bind at 1 2. cbn.
    erewrite bind_Some; [|by apply DistributeNodeWeight_run]. done.
Qed.

Lemma storeCandidateNode_run (s : Manager) (a : nat) (n : Node) :
  heap s !! a = Some n →
  storeCandidateNode (Some a) s =
    match candidateNodes s !! NodeID n with
    | Some _ => Some (tt, s)
    | None =>
        let s1 := distributed a n
          (mkManager (heap s) (edgeNodes s)
             (<[NodeID n := Some a]> (candidateNodes s)) (Edges s)
             (wrap64 (Candidates s + 1)) (weightMgr s) (events s)) in
        Some (tt, set_events (λ l, l ++ [EvPub (Some a) EventNodeOnline]) s1)
    end.
Proof.
  intros Hn. unfold storeCandidateNode.
  rewrite (bind_Some _ _ _ _ _ (deref_Some _ _ _ Hn)).
  unfold gets, LoadOrStore, mbind at 1, M_bind at 1.
  destruct (candidateNodes s !! NodeID n) eqn:Hl.
  - unfold modify, mbind, M_bind, mret, M_ret, set_candidateNodes. simpl.
    by rewrite Manager_eta.
  - unfold modify, mbind at 1 2, M_bind at 1 2. cbn.
    erewrite bind_Some; [|by apply DistributeNodeWeight_run]. done.
Qed.

Lemma set_events_frame (f : list Event → list Event) (s : Manager) :
  heap (set_events f s) = heap s ∧ weightMgr (set_events f s) = weightMgr s ∧
  edgeNodes (set_events f s) = edgeNodes s ∧
  candidateNodes (set_events f s) = candidateNodes s ∧
  Edges (set_events f s) = Edges s ∧
  Candidates (set_events f s) = Candidates s.
Proof. done. Qed.

(** C3: joining twice under one identity counts the node once, allocates
    once and publishes once; the second call returns the state it was
    given.  The first call of a new identity adds one to the live count,
    inserts the node, publishes one online event and adds the slots of one
    [DistributeNodeWeight] call (none for an abnormal node). *)
Theorem store_idempotent (s : Manager) (a1 a2 : nat) (n1 n2 : Node) :
  heap s !! a1 = Some n1 → heap s !! a2 = Some n2 → NodeID n2 = NodeID n1 →
  (edgeNodes s !! NodeID n1 = None →
   ∃ s1, storeEdgeNode (Some a1) s = Some (tt, s1) ∧
         storeEdgeNode (Some a2) s1 = Some (tt, s1) ∧
         Edges s1 = wrap64 (Edges s + 1) ∧
         edgeNodes s1 = <[NodeID n1 := Some a1]> (edgeNodes s) ∧
         events s1 = events s ++ [EvPub (Some a1) EventNodeOnline] ∧
         size (edgeWeights (weightMgr s1))
           = (size (edgeWeights (weightMgr s)) + edgeSlotsFor n1)%nat ∧
         size (candidateWeights (weightMgr s1))
           = (size (candidateWeights (weightMgr s)) + candidateSlotsFor n1)%nat)
  ∧
  (candidateNodes s !! NodeID n1 = None →
   ∃ s1, storeCandidateNode (Some a1) s = Some (tt, s1) ∧
         storeCandidateNode (Some a2) s1 = Some (tt, s1) ∧
         Candidates s1 = wrap64 (Candidates s + 1) ∧
         candidateNodes s1 = <[NodeID n1 := Some a1]> (candidateNodes s) ∧
         events s1 = events s ++ [EvPub (Some a1) EventNodeOnline] ∧
         size (edgeWeights (weightMgr s1))
           = (size (edgeWeights (weightMgr s)) + edgeSlotsFor n1)%nat ∧
         size (candidateWeights (weightMgr s1))
           = (size (candidateWeights (weightMgr s)) + candidateSlotsFor n1)%nat).
Proof.
  intros H1 H2 Hid. split; intros Hnew.
  - rewrite (storeEdgeNode_run _ _ _ H1), Hnew.
    set (s0 := mkManager _ _ _ _ _ _ _).
    eexists. split; [reflexivity|].
    destruct (distributed_frame s0 a1 n1) as (He & Hc & HE & HC & Hev).
    destruct (distributed_heap s0 a1 n1 H1 a2 n2 H2) as [ws Hh].
    destruct (distributed_size s0 a1 n1) as [Hs1 Hs2].
    split.
    + rewrite (storeEdgeNode_run _ _ (set_selectWeights ws n2)) by done.
      cbn. rewrite He, Hid. cbn. by rewrite lookup_insert_eq.
    + cbn. rewrite He, HE, Hev. done.
  - rewrite (storeCandidateNode_run _ _ _ H1), Hnew.
    set (s0 := mkManager _ _ _ _ _ _ _).
    eexists. split; [reflexivity|].
    destruct (distributed_frame s0 a1 n1) as (He & Hc & HE & HC & Hev).
    destruct (distributed_heap s0 a1 n1 H1 a2 n2 H2) as [ws Hh].
    destruct (distributed_size s0 a1 n1) as [Hs1 Hs2].
    split.
    + rewrite (storeCandidateNode_run _ _ (set_selectWeights ws n2)) by done.
      cbn. rewrite Hc, Hid. cbn. by rewrite lookup_insert_eq.
    + cbn. rewrite Hc, HC, Hev. done.
Qed.

(** Every slot the ledger records for the identity of [n] is one of the
    handles [n] holds, in the pool of the tier of [n]. *)
Definition holdsItsSlots (n : Node) (w : weightManager) : Prop :=
  (∀ h, edgeWeights w !! h = Some (NodeID n) →
        Type_ n = NodeEdge ∧ h ∈ selectWeights n) ∧
  (∀ h, candidateWeights w !! h = Some (NodeID n) →
        Type_ n = NodeCandidate ∧ h ∈ selectWeights n).

(** The pools after the handles of [n] were repaid to the pool of its tier:
    exactly those handles are gone. *)
Definition repaidPools (n : Node) (w w1 : weightManager) : Prop :=
  (∀ h, edgeWeights w1 !! h =
        if decide (Type_ n = NodeEdge ∧ h ∈ selectWeights n) then None
        else edgeWeights w !! h) ∧
  (∀ h, candidateWeights w1 !! h =
        if decide (Type_ n = NodeCandidate ∧ h ∈ selectWeights n) then None
        else candidateWeights w !! h).

Lemma repaid_pools (s : Manager) (a : nat) (n : Node) :
  repaidPools n (weightMgr s) (weightMgr (repaid a n s)).
Proof.
  unfold repaidPools, repaid.
  destruct (Type_ n); simpl; split; intros h;
    rewrite ?LedgerFacts.repayWeight_lookup;
    repeat destruct (decide _); naive_solver.
Qed.

Lemma repaidPools_no_slots (n : Node) (w w1 : weightManager) :
  repaidPools n w w1 → holdsItsSlots n w →
  slotsOf (NodeID n) (edgeWeights w1) = ∅ ∧
  slotsOf (NodeID n) (candidateWeights w1) = ∅.
Proof.
  intros [He Hc] [Hhe Hhc].
  split; apply LedgerFacts.slotsOf_empty_iff; intros h Hh.
  - rewrite He in Hh. destruct (decide _) as [|Hn]; [done|].
    apply Hn. by apply Hhe.
  - rewrite Hc in Hh. destruct (decide _) as [|Hn]; [done|].
    apply Hn. by apply Hhc.
Qed.

(** C2, as the code has it: for a non-nil node, [deleteEdgeNode] and
    [deleteCandidateNode] repay the handles the node holds and publish the
    offline event whether or not the map has the node, and only the map
    entry and the live count depend on the lookup.  The identity is left
    without slots when the slots recorded for it were the handles the node
    held ([holdsItsSlots]). *)
Theorem delete_repays_then_removes (s : Manager) (a : nat) (n : Node) :
  heap s !! a = Some n →
  ∃ s1,
    RepayNodeWeight (Some a) s = Some (tt, s1) ∧
    repaidPools n (weightMgr s) (weightMgr s1) ∧
    edgeNodes s1 = edgeNodes s ∧ candidateNodes s1 = candidateNodes s ∧
    Edges s1 = Edges s ∧ Candidates s1 = Candidates s ∧
    (∃ s3,
      deleteEdgeNode (Some a) s = Some (tt, s3) ∧
      heap s3 = heap s1 ∧ weightMgr s3 = weightMgr s1 ∧
      events s3 = events s ++ [EvPub (Some a) EventNodeOffline] ∧
      edgeNodes s3 = delete (NodeID n) (edgeNodes s) ∧
      Edges s3 = match edgeNodes s !! NodeID n with
                 | Some _ => wrap64 (Edges s - 1)
                 | None => Edges s
                 end ∧
      candidateNodes s3 = candidateNodes s ∧ Candidates s3 = Candidates s ∧
      (holdsItsSlots n (weightMgr s) →
       slotsOf (NodeID n) (edgeWeights (weightMgr s3)) = ∅ ∧
       slotsOf (NodeID n) (candidateWeights (weightMgr s3)) = ∅)) ∧
    (∃ s3,
      deleteCandidateNode (Some a) s = Some (tt, s3) ∧
      heap s3 = heap s1 ∧ weightMgr s3 = weightMgr s1 ∧
      events s3 = events s ++ [EvPub (Some a) EventNodeOffline] ∧
      candidateNodes s3 = delete (NodeID n) (candidateNodes s) ∧
      Candidates s3 = match candidateNodes s !! NodeID n with
                      | Some _ => wrap64 (Candidates s - 1)
                      | None => Candidates s
                      end ∧
      edgeNodes s3 = edgeNodes s ∧ Edges s3 = Edges s ∧
      (holdsItsSlots n (weightMgr s) →
       slotsOf (NodeID n) (edgeWeights (weightMgr s3)) = ∅ ∧
       slotsOf (NodeID n) (candidateWeights (weightMgr s3)) = ∅)).
Proof.
  intros Hn. exists (repaid a n s).
  destruct (repaid_frame s a n) as (He & Hc & HE & HC & Hev).
  pose proof (repaid_pools s a n) as Hp.
  split; [by apply RepayNodeWeight_run|].
  do 5 (split; [done|]).
  split.
  - rewrite (deleteEdgeNode_run _ _ _ Hn). eexists. split; [reflexivity|].
    cbn. do 7 (split; [done|]). by apply repaidPools_no_slots.
  - rewrite (deleteCandidateNode_run _ _ _ Hn). eexists.
    split; [reflexivity|].
    cbn. do 7 (split; [done|]). by apply repaidPools_no_slots.
Qed.

(** C10: [RepayNodeWeight] leaves the node without handles, so repaying
    again changes nothing: the second call returns the state it was
    given. *)
Theorem repay_idempotent (s : Manager) (a : nat) (n : Node) :
  heap s !! a = Some n → Type_ n ≠ NodeOther →
  ∃ s1 n1,
    RepayNodeWeight (Some a) s = Some (tt, s1) ∧
    repaidPools n (weightMgr s) (weightMgr s1) ∧
    heap s1 !! a = Some n1 ∧ selectWeights n1 = [] ∧
    repayWeight (edgeWeights (weightMgr s1)) (selectWeights n1)
      = edgeWeights (weightMgr s1) ∧
    repayWeight (candidateWeights (weightMgr s1)) (selectWeights n1)
      = candidateWeights (weightMgr s1) ∧
    RepayNodeWeight (Some a) s1 = Some (tt, s1).
Proof.
  intros Hn Hty. exists (repaid a n s), (set_selectWeights [] n).
  assert (Hh : heap (repaid a n s) !! a = Some (set_selectWeights [] n)).
  { unfold repaid. destruct (Type_ n); [| |done]; cbn;
      by rewrite lookup_insert_eq. }
  split; [by apply RepayNodeWeight_run|].
  split; [apply repaid_pools|].
  do 4 (split; [done|]).
  rewrite (RepayNodeWeight_run _ _ _ Hh). f_equal. f_equal.
  unfold repaid at 1. cbn [Type_ set_selectWeights selectWeights].
  destruct (Type_ n) eqn:Ht; [| |done].
  - rewrite LedgerFacts.repayWeight_nil, insert_id by done.
    unfold repaid. rewrite Ht. reflexivity.
  - rewrite LedgerFacts.repayWeight_nil, insert_id by done.
    unfold repaid. rewrite Ht. reflexivity.
Qed.

(** C8, as the code has it: the two store operations return at once on a
    nil node; the other four dereference it and panic. *)
Theorem nil_node (s : Manager) :
  storeEdgeNode None s = Some (tt, s) ∧
  storeCandidateNode None s = Some (tt, s) ∧
  RepayNodeWeight None s = None ∧
  deleteEdgeNode None s = None ∧
  deleteCandidateNode None s = None ∧
  DistributeNodeWeight None s = None.
Proof. repeat split. Qed.

(** The two outcomes of [nodeKeepalive]. *)
Lemma nodeKeepalive_alive (s : Manager) (a : nat) (n : Node) (t : Z)
  (isSave : bool) :
  heap s !! a = Some n → t < LastRequestTime n →
  nodeKeepalive (Some a) t isSave s =
    Some (true,
          if isSave
          then set_heap
                 <[a := set_OnlineDuration
                          (wrap64 (OnlineDuration n + saveMinutes)) n]> s
          else s).
Proof.
  intros Hn Ht. unfold nodeKeepalive.
  rewrite (bind_Some _ _ _ _ _ (deref_Some _ _ _ Hn)).
  unfold After. destruct (Z.ltb_spec t (LastRequestTime n)); [|lia]. cbn.
  destruct isSave; [|done].
  unfold mbind, M_bind. by rewrite (update_Some _ _ _ _ Hn).
Qed.

Lemma nodeKeepalive_dead (s : Manager) (a : nat) (n : Node) (t : Z)
  (isSave : bool) :
  heap s !! a = Some n → LastRequestTime n ≤ t →
  nodeKeepalive (Some a) t isSave s =
    let s0 := set_events (λ l, l ++ [EvClientCloser (Some a)]) s in
    match Type_ n with
    | NodeCandidate =>
        '(_, s') ← deleteCandidateNode (Some a) s0; Some (false, s')
    | NodeEdge => '(_, s') ← deleteEdgeNode (Some a) s0; Some (false, s')
    | NodeOther => Some (false, s0)
    end.
Proof.
  intros Hn Ht. unfold nodeKeepalive.
  rewrite (bind_Some _ _ _ _ _ (deref_Some _ _ _ Hn)).
  unfold After. destruct (Z.ltb_spec t (LastRequestTime n)); [lia|]. cbn.
  unfold emit, modify, mbind at 1, M_bind at 1.
  destruct (Type_ n); [| |done]; unfold mbind, M_bind, option_bind.
  - by destruct (deleteEdgeNode _ _) as [[[] s']|].
  - by destruct (deleteCandidateNode _ _) as [[[] s']|].
Qed.

Lemma saveMinutes_eq : saveMinutes = 1.
Proof. reflexivity. Qed.

(** C1, as the code has it: the node is alive exactly when its last contact
    is strictly after the cutoff.  At the cutoff itself, and before it, the
    node is dead: [ClientCloser] is called first and an edge or candidate
    node is taken out of its map.  An alive node leaves the registry as it
    was. *)
Theorem keepalive_cutoff (s : Manager) (a : nat) (n : Node) (t : Z)
  (isSave : bool) :
  heap s !! a = Some n →
  ∃ alive s',
    nodeKeepalive (Some a) t isSave s = Some (alive, s') ∧
    alive = bool_decide (t < LastRequestTime n) ∧
    if alive
    then edgeNodes s' = edgeNodes s ∧ candidateNodes s' = candidateNodes s ∧
         Edges s' = Edges s ∧ Candidates s' = Candidates s ∧
         events s' = events s
    else (∃ evs, events s' = events s ++ EvClientCloser (Some a) :: evs) ∧
         (Type_ n = NodeEdge → edgeNodes s' !! NodeID n = None) ∧
         (Type_ n = NodeCandidate → candidateNodes s' !! NodeID n = None).
Proof.
  intros Hn. destruct (decide (t < LastRequestTime n)) as [Hlt|Hge].
  - exists true. eexists. rewrite (nodeKeepalive_alive _ _ _ _ _ Hn Hlt).
    split; [reflexivity|]. rewrite bool_decide_true by done.
    split; [done|]. by destruct isSave.
  - assert (Hle : LastRequestTime n ≤ t) by lia.
    exists false. rewrite (nodeKeepalive_dead _ _ _ _ _ Hn Hle).
    rewrite bool_decide_false by done. cbn zeta.
    set (s0 := set_events _ s).
    assert (Hn0 : heap s0 !! a = Some n) by done.
    destruct (Type_ n) eqn:Hty.
    + rewrite (deleteEdgeNode_run _ _ _ Hn0). cbn. eexists.
      split; [reflexivity|]. split; [done|]. split; [|split; [|done]].
      * eexists. rewrite <- app_assoc. reflexivity.
      * intros _. apply lookup_delete_eq.
    + rewrite (deleteCandidateNode_run _ _ _ Hn0). cbn. eexists.
      split; [reflexivity|]. split; [done|]. split; [|split; [done|]].
      * eexists. rewrite <- app_assoc. reflexivity.
      * intros _. apply lookup_delete_eq.
    + eexists. split; [reflexivity|]. split; [done|].
      split; [by exists []|done].
Qed.

(** C9, as the code has it: on a save tick a node found alive gains
    [int((saveInfoInterval * keepaliveTime) / time.Minute)], which is one
    minute, the length of the two keepalive periods between save ticks; on
    any other tick its online duration stays. *)
Theorem keepalive_accrual (s : Manager) (a : nat) (n : Node) (t : Z)
  (isSave : bool) :
  heap s !! a = Some n → t < LastRequestTime n →
  ∃ s' n',
    nodeKeepalive (Some a) t isSave s = Some (true, s') ∧
    heap s' !! a = Some n' ∧
    OnlineDuration n' = (if isSave then wrap64 (OnlineDuration n + 1)
                         else OnlineDuration n) ∧
    saveMinutes = 1 ∧
    saveMinutes * Minute = saveInfoInterval * keepaliveTime.
Proof.
  intros Hn Ht. rewrite (nodeKeepalive_alive _ _ _ _ _ Hn Ht).
  destruct isSave.
  - eexists _, _. split; [reflexivity|]. cbn. rewrite lookup_insert_eq.
    split; [reflexivity|]. done.
  - eexists _, _. split; [reflexivity|]. done.
Qed.

(** *** Redistribution *)

(** The heap of [s'] has the nodes of [s] up to their handle lists. *)
Definition sameNodes (s s' : Manager) : Prop :=
  ∀ a n, heap s !! a = Some n →
    ∃ ws, heap s' !! a = Some (set_selectWeights ws n).

Lemma sameNodes_refl (s : Manager) : sameNodes s s.
Proof.
  intros a n Hn. exists (selectWeights n). rewrite Hn. f_equal. by destruct n.
Qed.

(** The slots the run gives to the node behind one map entry. *)
Definition slotCount (s : Manager) (node : option nat) : nat :=
  match node ≫= (λ a, heap s !! a) with
  | Some n =>
      if IsAbnormal n then 0%nat
      else getWeightNum (getNodeScoreLevel (NodeID n))
  | None => 0%nat
  end.

(** The entries of a map all point to nodes. *)
Definition pointsToNodes (s : Manager) (entries : list (string * option nat))
  : Prop :=
  ∀ key node, (key, node) ∈ entries → ∃ a n, node = Some a ∧ heap s !! a = Some n.

(** A slot of [id] is backed by one of the entries: a node that is not
    abnormal and has this identity. *)
Definition ownedBy (s : Manager) (entries : list (string * option nat))
  (id : string) : Prop :=
  ∃ key a n, (key, Some a) ∈ entries ∧ heap s !! a = Some n ∧
             NodeID n = id ∧ IsAbnormal n = false.

Lemma redistributeCandidate_run (s0 s : Manager) (key : string) (a : nat)
  (n : Node) :
  heap s0 !! a = Some n → sameNodes s0 s →
  ∃ s', redistributeCandidate key (Some a) s = Some (tt, s') ∧
    sameNodes s0 s' ∧
    size (candidateWeights (weightMgr s'))
      = (size (candidateWeights (weightMgr s)) + slotCount s0 (Some a))%nat ∧
    edgeWeights (weightMgr s') = edgeWeights (weightMgr s) ∧
    edgeNodes s' = edgeNodes s ∧ candidateNodes s' = candidateNodes s ∧
    Edges s' = Edges s ∧ Candidates s' = Candidates s ∧
    events s' = events s ∧
    (∀ h id, candidateWeights (weightMgr s') !! h = Some id →
       candidateWeights (weightMgr s) !! h = Some id ∨
       (NodeID n = id ∧ IsAbnormal n = false)).
Proof.
  intros Hn Hsame. destruct (Hsame a n Hn) as [ws0 Hn'].
  unfold redistributeCandidate, slotCount. cbn [mbind option_bind].
  rewrite (bind_Some _ _ _ _ _ (deref_Some _ _ _ Hn')), Hn.
  rewrite IsAbnormal_selectWeights. cbn [NodeID set_selectWeights].
  destruct (IsAbnormal n) eqn:Hab.
  { exists s. repeat split; try done; try lia; by left. }
  unfold distributeCandidateWeight, mbind, M_bind.
  destruct (distributeWeight _ _ _) as [ws pool] eqn:E.
  apply LedgerFacts.distributeWeight_spec in E as (_ & _ & _ & Hlk & Hsz).
  rewrite (update_Some _ _ (set_selectWeights ws0 n)) by done.
  eexists. split; [reflexivity|]. cbn.
  split; [|repeat split; try done].
  - intros b m Hm. destruct (Hsame b m Hm) as [wsb Hb]. cbn.
    destruct (decide (a = b)) as [->|Hne].
    + rewrite lookup_insert_eq. exists ws. simplify_eq. done.
    + rewrite lookup_insert_ne by done. eauto.
  - intros h id. rewrite Hlk. destruct (decide _); [|by left].
    intros [= <-]. by right.
Qed.

Lemma redistributeEdge_run (s0 s : Manager) (key : string) (a : nat)
  (n : Node) :
  heap s0 !! a = Some n → sameNodes s0 s →
  ∃ s', redistributeEdge key (Some a) s = Some (tt, s') ∧
    sameNodes s0 s' ∧
    size (edgeWeights (weightMgr s'))
      = (size (edgeWeights (weightMgr s)) + slotCount s0 (Some a))%nat ∧
    candidateWeights (weightMgr s') = candidateWeights (weightMgr s) ∧
    edgeNodes s' = edgeNodes s ∧ candidateNodes s' = candidateNodes s ∧
    Edges s' = Edges s ∧ Candidates s' = Candidates s ∧
    events s' = events s ∧
    (∀ h id, edgeWeights (weightMgr s') !! h = Some id →
       edgeWeights (weightMgr s) !! h = Some id ∨
       (NodeID n = id ∧ IsAbnormal n = false)).
Proof.
  intros Hn Hsame. destruct (Hsame a n Hn) as [ws0 Hn'].
  unfold redistributeEdge, slotCount. cbn [mbind option_bind].
  rewrite (bind_Some _ _ _ _ _ (deref_Some _ _ _ Hn')), Hn.
  rewrite IsAbnormal_selectWeights. cbn [NodeID set_selectWeights].
  destruct (IsAbnormal n) eqn:Hab.
  { exists s. repeat split; try done; try lia; by left. }
  unfold distributeEdgeWeight, mbind, M_bind.
  destruct (distributeWeight _ _ _) as [ws pool] eqn:E.
  apply LedgerFacts.distributeWeight_spec in E as (_ & _ & _ & Hlk & Hsz).
  rewrite (update_Some _ _ (set_selectWeights ws0 n)) by done.
  eexists. split; [reflexivity|]. cbn.
  split; [|repeat split; try done].
  - intros b m Hm. destruct (Hsame b m Hm) as [wsb Hb]. cbn.
    destruct (decide (a = b)) as [->|Hne].
    + rewrite lookup_insert_eq. exists ws. simplify_eq. done.
    + rewrite lookup_insert_ne by done. eauto.
  - intros h id. rewrite Hlk. destruct (decide _); [|by left].
    intros [= <-]. by right.
Qed.

Lemma range_redistributeCandidate (s0 : Manager)
  (entries : list (string * option nat)) :
  pointsToNodes s0 entries →
  ∀ s, sameNodes s0 s →
  ∃ s', range redistributeCandidate entries s = Some (tt, s') ∧
    sameNodes s0 s' ∧
    size (candidateWeights (weightMgr s'))
      = (size (candidateWeights (weightMgr s))
         + sum_list (slotCount s0 <$> entries.*2))%nat ∧
    edgeWeights (weightMgr s') = edgeWeights (weightMgr s) ∧
    edgeNodes s' = edgeNodes s ∧ candidateNodes s' = candidateNodes s ∧
    Edges s' = Edges s ∧ Candidates s' = Candidates s ∧
    events s' = events s ∧
    (∀ h id, candidateWeights (weightMgr s') !! h = Some id →
       candidateWeights (weightMgr s) !! h = Some id ∨ ownedBy s0 entries id).
Proof.
  induction entries as [|[key node] rest IH]; intros Hok s Hsame.
  - exists s. cbn. repeat split; try done; try lia; by left.
  - destruct (Hok key node) as (a & n & -> & Hn); [left|].
    destruct (redistributeCandidate_run s0 s key a n Hn Hsame)
      as (s1 & Hrun & Hsame1 & Hsz1 & Hew1 & He1 & Hc1 & HE1 & HC1 & Hev1 & Hown1).
    destruct (IH (λ k p Hin, Hok k p (list_elem_of_further _ _ _ Hin)) s1 Hsame1)
      as (s2 & Hrun2 & Hsame2 & Hsz2 & Hew2 & He2 & Hc2 & HE2 & HC2 & Hev2 & Hown2).
    exists s2. cbn [range]. rewrite (bind_Some _ _ _ _ _ Hrun).
    split; [done|]. split; [done|].
    split; [rewrite Hsz2, Hsz1; cbn; lia|].
    repeat split; try congruence.
    intros h id Hh. destruct (Hown2 h id Hh) as [Hh1|(k & b & m & Hin & ?)].
    + destruct (Hown1 h id Hh1) as [?|[Hid Hab]]; [by left|].
      right. exists key, a, n. repeat split; try done. left.
    + right. exists k, b, m. split; [by right|done].
Qed.

Lemma range_redistributeEdge (s0 : Manager)
  (entries : list (string * option nat)) :
  pointsToNodes s0 entries →
  ∀ s, sameNodes s0 s →
  ∃ s', range redistributeEdge entries s = Some (tt, s') ∧
    sameNodes s0 s' ∧
    size (edgeWeights (weightMgr s'))
      = (size (edgeWeights (weightMgr s))
         + sum_list (slotCount s0 <$> entries.*2))%nat ∧
    candidateWeights (weightMgr s') = candidateWeights (weightMgr s) ∧
    edgeNodes s' = edgeNodes s ∧ candidateNodes s' = candidateNodes s ∧
    Edges s' = Edges s ∧ Candidates s' = Candidates s ∧
    events s' = events s ∧
    (∀ h id, edgeWeights (weightMgr s') !! h = Some id →
       edgeWeights (weightMgr s) !! h = Some id ∨ ownedBy s0 entries id).
Proof.
  induction entries as [|[key node] rest IH]; intros Hok s Hsame.
  - exists s. cbn. repeat split; try done; try lia; by left.
  - destruct (Hok key node) as (a & n & -> & Hn); [left|].
    destruct (redistributeEdge_run s0 s key a n Hn Hsame)
      as (s1 & Hrun & Hsame1 & Hsz1 & Hew1 & He1 & Hc1 & HE1 & HC1 & Hev1 & Hown1).
    destruct (IH (λ k p Hin, Hok k p (list_elem_of_further _ _ _ Hin)) s1 Hsame1)
      as (s2 & Hrun2 & Hsame2 & Hsz2 & Hew2 & He2 & Hc2 & HE2 & HC2 & Hev2 & Hown2).
    exists s2. cbn [range]. rewrite (bind_Some _ _ _ _ _ Hrun).
    split; [done|]. split; [done|].
    split; [rewrite Hsz2, Hsz1; cbn; lia|].
    repeat split; try congruence.
    intros h id Hh. destruct (Hown2 h id Hh) as [Hh1|(k & b & m & Hin & ?)].
    + destruct (Hown1 h id Hh1) as [?|[Hid Hab]]; [by left|].
      right. exists key, a, n. repeat split; try done. left.
    + right. exists k, b, m. split; [by right|done].
Qed.

(** A call that returns had a node to read. *)
Lemma deref_inv (node : option nat) (s s' : Manager) (n : Node) :
  deref node s = Some (n, s') →
  ∃ a, node = Some a ∧ heap s !! a = Some n ∧ s' = s.
Proof.
  unfold deref. destruct node as [a|]; [|done].
  destruct (heap s !! a) eqn:Hn; [|done]. intros [= <- <-]. eauto.
Qed.

Lemma bind_deref_inv {A} (node : option nat) (k : Node → M A) (s s' : Manager)
  (r : A) :
  (deref node ≫= k) s = Some (r, s') →
  ∃ a n, node = Some a ∧ heap s !! a = Some n ∧ k n s = Some (r, s').
Proof.
  unfold mbind, M_bind. destruct (deref node s) as [[n s1]|] eqn:E; [|done].
  apply deref_inv in E as (a & -> & Hn & ->). eauto.
Qed.

(** What one callback of the run does to the node it visits and to the
    pool [pool] of its tier: nothing when the node is abnormal, and
    otherwise a fresh allocation whose handles replace the handle list of
    the node. *)
Definition allocates (pool : weightManager → gmap Z string)
  (f : string → option nat → M unit) : Prop :=
  ∀ (s s' : Manager) (key : string) (node : option nat),
    f key node s = Some (tt, s') →
    ∃ a m, node = Some a ∧ heap s !! a = Some m ∧
      if IsAbnormal m then s' = s
      else ∃ ws,
        heap s' = <[a := set_selectWeights ws m]> (heap s) ∧
        length ws = getWeightNum (getNodeScoreLevel (NodeID m)) ∧
        NoDup ws ∧
        (∀ h, h ∈ ws → pool (weightMgr s) !! h = None) ∧
        (∀ h, pool (weightMgr s') !! h
              = if decide (h ∈ ws) then Some (NodeID m)
                else pool (weightMgr s) !! h).

Lemma redistributeCandidate_allocates :
  allocates candidateWeights redistributeCandidate.
Proof.
  intros s s' key node Hrun. unfold redistributeCandidate in Hrun.
  apply bind_deref_inv in Hrun as (a & m & -> & Hm & Hrun).
  exists a, m. split; [done|]. split; [done|].
  destruct (IsAbnormal m); [by injection Hrun as <-|].
  unfold distributeCandidateWeight, mbind, M_bind in Hrun.
  destruct (distributeWeight _ _ _) as [ws pool] eqn:E.
  apply LedgerFacts.distributeWeight_spec in E as (Hlen & Hnd & Hfr & Hlk & _).
  rewrite (update_Some _ _ m) in Hrun by done. injection Hrun as <-.
  exists ws. done.
Qed.

Lemma redistributeEdge_allocates : allocates edgeWeights redistributeEdge.
Proof.
  intros s s' key node Hrun. unfold redistributeEdge in Hrun.
  apply bind_deref_inv in Hrun as (a & m & -> & Hm & Hrun).
  exists a, m. split; [done|]. split; [done|].
  destruct (IsAbnormal m); [by injection Hrun as <-|].
  unfold distributeEdgeWeight, mbind, M_bind in Hrun.
  destruct (distributeWeight _ _ _) as [ws pool] eqn:E.
  apply LedgerFacts.distributeWeight_spec in E as (Hlen & Hnd & Hfr & Hlk & _).
  rewrite (update_Some _ _ m) in Hrun by done. injection Hrun as <-.
  exists ws. done.
Qed.

(** The handle list the run leaves at a node it allocated to: as many
    handles as the slot count, all recorded for the node in [pool]. *)
Definition freshHandles (pool : gmap Z string) (m : Node) (ws : list Z)
  : Prop :=
  length ws = getWeightNum (getNodeScoreLevel (NodeID m)) ∧ NoDup ws ∧
  ∀ h, h ∈ ws → pool !! h = Some (NodeID m).

(** The nodes after a [Range] of the run: a node that is abnormal, or that
    no entry points to, is as it was, handle list included; a node that is
    not abnormal and that an entry points to holds a fresh allocation. *)
Lemma range_allocates (pool : weightManager → gmap Z string)
  (f : string → option nat → M unit)
  (entries : list (string * option nat)) :
  allocates pool f →
  ∀ s s', range f entries s = Some (tt, s') →
    (∀ a m, heap s !! a = Some m →
       IsAbnormal m = true ∨ Some a ∉ entries.*2 → heap s' !! a = Some m) ∧
    (∀ a m, heap s !! a = Some m → IsAbnormal m = false →
       Some a ∈ entries.*2 →
       ∃ ws, heap s' !! a = Some (set_selectWeights ws m) ∧
             freshHandles (pool (weightMgr s')) m ws) ∧
    (∀ h id, pool (weightMgr s) !! h = Some id →
       pool (weightMgr s') !! h = Some id).
Proof.
  intros Hf. induction entries as [|[key node] rest IH]; intros s s'.
  { intros [= <-]. split; [done|]. split; [|done].
    intros a m _ _ Hin. cbn in Hin. by apply elem_of_nil in Hin. }
  cbn [range]. unfold mbind, M_bind.
  destruct (f key node s) as [[[] s1]|] eqn:E; [|done]. intros Hrun.
  destruct (IH s1 s' Hrun) as (HA & HB & HC).
  destruct (Hf s s1 key node E) as (a & m & -> & Hm & Hstep).
  destruct (IsAbnormal m) eqn:Hab.
  - subst s1. split; [|split; [|done]].
    + intros b mb Hb [Habn|Hnin]; apply HA; auto.
      right. intros Hin. apply Hnin. cbn. by right.
    + intros b mb Hb Hnab Hin. apply HB; [done..|].
      cbn in Hin. apply elem_of_cons in Hin as [[= ->]|Hin]; [|done].
      congruence.
  - destruct Hstep as (ws & Hheap & Hlen & Hnd & Hfresh & Hlk).
    assert (Hpers : ∀ h id, pool (weightMgr s) !! h = Some id →
                            pool (weightMgr s1) !! h = Some id).
    { intros h id Hh. rewrite Hlk. destruct (decide (h ∈ ws)) as [Hin|]; [|done].
      rewrite (Hfresh h Hin) in Hh. done. }
    assert (Hm1 : heap s1 !! a = Some (set_selectWeights ws m)).
    { by rewrite Hheap, lookup_insert_eq. }
    assert (Hother : ∀ b, b ≠ a → heap s1 !! b = heap s !! b).
    { intros b Hne. by rewrite Hheap, lookup_insert_ne. }
    split; [|split].
    + intros b mb Hb [Habn|Hnin].
      * assert (b ≠ a) by (intros ->; congruence).
        apply HA; [by rewrite Hother|by left].
      * assert (b ≠ a).
        { intros ->. apply Hnin. cbn. left. }
        apply HA; [by rewrite Hother|]. right. intros Hin. apply Hnin.
        cbn. by right.
    + intros b mb Hb Hnab Hin.
      destruct (decide (Some b ∈ rest.*2)) as [Hrest|Hrest].
      * destruct (decide (b = a)) as [->|Hne].
        -- rewrite Hm in Hb. injection Hb as <-.
           destruct (HB a (set_selectWeights ws m) Hm1) as (ws' & Hh & Hfr');
             [by rewrite IsAbnormal_selectWeights|done|].
           exists ws'. split; [by rewrite Hh|]. done.
        -- apply HB; [by rewrite Hother|done..].
      * cbn in Hin. apply elem_of_cons in Hin as [[= ->]|Hin]; [|done].
        rewrite Hm in Hb. injection Hb as <-. exists ws. split.
        -- apply HA; [done|by right].
        -- split; [done|]. split; [done|].
           intros h Hh. apply HC. rewrite Hlk. by rewrite decide_True.
    + intros h id Hh. by apply HC, Hpers.
Qed.

Lemma elem_of_map_to_list_values (m : gmap string (option nat))
  (node : option nat) :
  node ∈ (map_to_list m).*2 ↔ ∃ key, m !! key = Some node.
Proof.
  rewrite list_elem_of_fmap. split.
  - intros ([key p] & -> & Hin%elem_of_map_to_list). by exists key.
  - intros [key Hkey]. exists (key, node). split; [done|].
    by apply elem_of_map_to_list.
Qed.

Lemma freshHandles_selectWeights (pool : gmap Z string) (m : Node)
  (ws0 ws : list Z) :
  freshHandles pool (set_selectWeights ws0 m) ws → freshHandles pool m ws.
Proof. done. Qed.

(** C4, as the code has it: after [redistributeNodeSelectWeights] each pool
    holds as many slots as the slot counts of the registered nodes of its
    tier that are not abnormal add up to; the outcome is the same whatever
    the ledger held before the run; every slot belongs to the identity of a
    registered node that is not abnormal; and a registered node that is not
    abnormal holds a fresh allocation, recorded for it in the pool.  The
    callbacks return on an abnormal node before they touch it: the run
    leaves such a node as it was, with the handle list of an earlier
    allocation, which the pools no longer record for it. *)
Theorem redistribute_total (s : Manager) :
  (∀ key node, candidateNodes s !! key = Some node →
     ∃ a n, node = Some a ∧ heap s !! a = Some n) →
  (∀ key node, edgeNodes s !! key = Some node →
     ∃ a n, node = Some a ∧ heap s !! a = Some n) →
  ∃ s',
    redistributeNodeSelectWeights s = Some (tt, s') ∧
    size (candidateWeights (weightMgr s'))
      = sum_list (slotCount s <$> (map_to_list (candidateNodes s)).*2) ∧
    size (edgeWeights (weightMgr s'))
      = sum_list (slotCount s <$> (map_to_list (edgeNodes s)).*2) ∧
    (∀ w0, redistributeNodeSelectWeights (set_weightMgr (λ _, w0) s)
           = Some (tt, s')) ∧
    (∀ h id, candidateWeights (weightMgr s') !! h = Some id →
       ∃ key a n, candidateNodes s !! key = Some (Some a) ∧
                  heap s !! a = Some n ∧ NodeID n = id ∧
                  IsAbnormal n = false) ∧
    (∀ h id, edgeWeights (weightMgr s') !! h = Some id →
       ∃ key a n, edgeNodes s !! key = Some (Some a) ∧
                  heap s !! a = Some n ∧ NodeID n = id ∧
                  IsAbnormal n = false) ∧
    edgeNodes s' = edgeNodes s ∧ candidateNodes s' = candidateNodes s ∧
    Edges s' = Edges s ∧ Candidates s' = Candidates s ∧
    (∀ a n, heap s !! a = Some n → IsAbnormal n = true →
       heap s' !! a = Some n) ∧
    (∀ a n, heap s !! a = Some n →
       (∀ key, edgeNodes s !! key ≠ Some (Some a)) →
       (∀ key, candidateNodes s !! key ≠ Some (Some a)) →
       heap s' !! a = Some n) ∧
    (∀ key a n, edgeNodes s !! key = Some (Some a) → heap s !! a = Some n →
       IsAbnormal n = false →
       ∃ ws, heap s' !! a = Some (set_selectWeights ws n) ∧
             freshHandles (edgeWeights (weightMgr s')) n ws) ∧
    (∀ key a n, candidateNodes s !! key = Some (Some a) →
       heap s !! a = Some n → IsAbnormal n = false →
       (∀ key', edgeNodes s !! key' ≠ Some (Some a)) →
       ∃ ws, heap s' !! a = Some (set_selectWeights ws n) ∧
             freshHandles (candidateWeights (weightMgr s')) n ws).
Proof.
  intros Hcand Hedge.
  set (s0 := set_weightMgr cleanWeights s).
  assert (Hsame0 : sameNodes s s0).
  { intros a n Hn. exact (sameNodes_refl s a n Hn). }
  assert (Hpc : pointsToNodes s (map_to_list (candidateNodes s))).
  { intros key node Hin%elem_of_map_to_list. eauto. }
  assert (Hpe : pointsToNodes s (map_to_list (edgeNodes s))).
  { intros key node Hin%elem_of_map_to_list. eauto. }
  destruct (range_redistributeCandidate s _ Hpc s0 Hsame0)
    as (s1 & Hrun1 & Hsame1 & Hsz1 & Hew1 & He1 & Hc1 & HE1 & HC1 & _ & Hown1).
  destruct (range_redistributeEdge s _ Hpe s1 Hsame1)
    as (s2 & Hrun2 & Hsame2 & Hsz2 & Hcw2 & He2 & Hc2 & HE2 & HC2 & _ & Hown2).
  assert (Hrun : ∀ w0, redistributeNodeSelectWeights (set_weightMgr (λ _, w0) s)
                       = Some (tt, s2)).
  { intros w0. unfold redistributeNodeSelectWeights, modify, gets.
    unfold mbind at 1 2 3 4, M_bind at 1 2 3 4.
    change (set_weightMgr cleanWeights (set_weightMgr (λ _, w0) s)) with s0.
    change (candidateNodes s0) with (candidateNodes s).
    by rewrite Hrun1, He1. }
  destruct (range_allocates _ _ _ redistributeCandidate_allocates _ _ Hrun1)
    as (HA1 & HB1 & _).
  destruct (range_allocates _ _ _ redistributeEdge_allocates _ _ Hrun2)
    as (HA2 & HB2 & _).
  change (heap s0) with (heap s) in HA1, HB1.
  assert (Hnotin : ∀ (m : gmap string (option nat)) a,
            (∀ key, m !! key ≠ Some (Some a)) → Some a ∉ (map_to_list m).*2).
  { intros m a Hno [key Hkey]%elem_of_map_to_list_values. by apply (Hno key). }
  exists s2. split.
  { rewrite <- (Hrun (weightMgr s)). by destruct s. }
  split; [by rewrite Hcw2, Hsz1|].
  split; [by rewrite Hsz2, Hew1|].
  split; [done|].
  split; [|split].
  - intros h id Hh. rewrite Hcw2 in Hh.
    destruct (Hown1 h id Hh) as [Hh0|(key & a & n & Hin & ?)]; [done|].
    exists key, a, n. by apply elem_of_map_to_list in Hin.
  - intros h id Hh.
    destruct (Hown2 h id Hh) as [Hh1|(key & a & n & Hin & ?)].
    + by rewrite Hew1 in Hh1.
    + exists key, a, n. by apply elem_of_map_to_list in Hin.
  - split; [by rewrite He2, He1|]. split; [by rewrite Hc2, Hc1|].
    split; [by rewrite HE2, HE1|]. split; [by rewrite HC2, HC1|].
    split; [|split; [|split]].
    + intros a n Hn Hab. apply HA2; [|by left]. apply HA1; [done|by left].
    + intros a n Hn Hne Hnc. apply HA2; [|right; by apply Hnotin].
      apply HA1; [done|]. right. by apply Hnotin.
    + intros key a n Hkey Hn Hab.
      destruct (Hsame1 a n Hn) as [ws0 Hn1].
      destruct (HB2 a _ Hn1) as (ws & Hh & Hfr).
      * by rewrite IsAbnormal_selectWeights.
      * apply elem_of_map_to_list_values. by exists key.
      * exists ws. split; [done|]. by apply (freshHandles_selectWeights _ _ ws0).
    + intros key a n Hkey Hn Hab Hne.
      destruct (HB1 a n Hn Hab) as (ws & Hh & Hfr).
      { apply elem_of_map_to_list_values. by exists key. }
      exists ws. split; [|by rewrite Hcw2].
      apply HA2; [done|]. right. by apply Hnotin.
Qed.

End RegistryFacts.

(** ** The registry as a whole *)

Section RegistryMore.
Context `{Collaborators}.

Lemma wrap64_add_l (x y : Z) : wrap64 (wrap64 x + y) = wrap64 (x + y).
Proof.
  unfold wrap64.
  replace ((x + 2 ^ 63) mod 2 ^ 64 - 2 ^ 63 + y + 2 ^ 63)
    with ((x + 2 ^ 63) mod 2 ^ 64 + y) by lia.
  rewrite Zplus_mod_idemp_l. f_equal. f_equal. lia.
Qed.

Lemma wrap64_id (x : Z) : - 2 ^ 63 ≤ x < 2 ^ 63 → wrap64 x = x.
Proof. intros Hx. unfold wrap64. rewrite Z.mod_small; lia. Qed.

(** The live counts are the sizes of the maps, as 64-bit integers. *)
Definition countsAgree (s : Manager) : Prop :=
  Edges s = wrap64 (Z.of_nat (size (edgeNodes s))) ∧
  Candidates s = wrap64 (Z.of_nat (size (candidateNodes s))).

(** The maps and the counts of [s'] are those of [s]. *)
Definition sameRegistry (s s' : Manager) : Prop :=
  edgeNodes s' = edgeNodes s ∧ candidateNodes s' = candidateNodes s ∧
  Edges s' = Edges s ∧ Candidates s' = Candidates s.

Lemma sameRegistry_counts (s s' : Manager) :
  sameRegistry s s' → countsAgree s → countsAgree s'.
Proof. intros (He & Hc & HE & HC) [H1 H2]. split; congruence. Qed.

Lemma storeEdgeNode_counts (node : option nat) (s s' : Manager) :
  storeEdgeNode node s = Some (tt, s') → countsAgree s → countsAgree s'.
Proof.
  destruct node as [a|]; [|by intros [= <-]].
  intros Hrun. pose proof Hrun as Hrun'.
  unfold storeEdgeNode in Hrun'.
  apply bind_deref_inv in Hrun' as (? & n & [= <-] & Hn & _).
  rewrite (storeEdgeNode_run _ _ _ Hn) in Hrun.
  destruct (edgeNodes s !! NodeID n) eqn:Hl; [by intros; simplify_eq|].
  cbn zeta in Hrun. injection Hrun as <-. intros [HE HC].
  set (s0 := mkManager _ _ _ _ _ _ _).
  destruct (distributed_frame s0 a n) as (He & Hc & HE' & HC' & _).
  split; cbn; rewrite ?He, ?Hc, ?HE', ?HC'; cbn; [|done].
  rewrite map_size_insert_None by done.
  rewrite HE, wrap64_add_l. f_equal. lia.
Qed.

Lemma storeCandidateNode_counts (node : option nat) (s s' : Manager) :
  storeCandidateNode node s = Some (tt, s') → countsAgree s → countsAgree s'.
Proof.
  destruct node as [a|]; [|by intros [= <-]].
  intros Hrun. pose proof Hrun as Hrun'.
  unfold storeCandidateNode in Hrun'.
  apply bind_deref_inv in Hrun' as (? & n & [= <-] & Hn & _).
  rewrite (storeCandidateNode_run _ _ _ Hn) in Hrun.
  destruct (candidateNodes s !! NodeID n) eqn:Hl; [by intros; simplify_eq|].
  cbn zeta in Hrun. injection Hrun as <-. intros [HE HC].
  set (s0 := mkManager _ _ _ _ _ _ _).
  destruct (distributed_frame s0 a n) as (He & Hc & HE' & HC' & _).
  split; cbn; rewrite ?He, ?Hc, ?HE', ?HC'; cbn; [done|].
  rewrite map_size_insert_None by done.
  rewrite HC, wrap64_add_l. f_equal. lia.
Qed.

Lemma size_delete_pred {A} (m : gmap string A) (k : string) (x : A) :
  m !! k = Some x →
  Z.of_nat (size (delete k m)) = Z.of_nat (size m) - 1.
Proof.
  intros Hk. rewrite map_size_delete_Some by eauto.
  assert (size m ≠ 0%nat); [|lia].
  intros H0%map_size_empty_inv. subst. by rewrite lookup_empty in Hk.
Qed.

Lemma RepayNodeWeight_inv (node : option nat) (s s' : Manager) :
  RepayNodeWeight node s = Some (tt, s') →
  ∃ a n, node = Some a ∧ heap s !! a = Some n ∧ s' = repaid a n s.
Proof.
  intros Hrun. pose proof Hrun as Hrun'. unfold RepayNodeWeight in Hrun'.
  apply bind_deref_inv in Hrun' as (a & n & -> & Hn & _).
  rewrite (RepayNodeWeight_run _ _ _ Hn) in Hrun. injection Hrun as <-. eauto.
Qed.

Lemma delete_inv (node : option nat) (s : Manager) :
  is_Some (deleteEdgeNode node s) ∨ is_Some (deleteCandidateNode node s) →
  ∃ a n, node = Some a ∧ heap s !! a = Some n.
Proof.
  assert (Hr : is_Some (RepayNodeWeight node s) →
               ∃ a n, node = Some a ∧ heap s !! a = Some n).
  { intros [[[] s'] (a & n & ? & ? & _)%RepayNodeWeight_inv]. eauto. }
  intros [[r Hd]|[r Hd]]; apply Hr;
    [unfold deleteEdgeNode in Hd|unfold deleteCandidateNode in Hd];
    unfold mbind at 1, M_bind at 1 in Hd;
    destruct (RepayNodeWeight node s); done.
Qed.

Lemma deleteEdgeNode_counts (node : option nat) (s s' : Manager) :
  deleteEdgeNode node s = Some (tt, s') → countsAgree s → countsAgree s'.
Proof.
  intros Hrun. destruct (delete_inv node s) as (a & n & -> & Hn); [left; eauto|].
  rewrite (deleteEdgeNode_run _ _ _ Hn) in Hrun. cbn zeta in Hrun.
  injection Hrun as <-. intros [HE HC]. split; cbn; [|done].
  destruct (edgeNodes s !! NodeID n) eqn:Hl.
  - rewrite (size_delete_pred _ _ _ Hl), HE.
    replace (wrap64 (Z.of_nat (size (edgeNodes s))) - 1)
      with (wrap64 (Z.of_nat (size (edgeNodes s))) + -1) by lia.
    rewrite wrap64_add_l. f_equal.
  - by rewrite delete_id.
Qed.

Lemma deleteCandidateNode_counts (node : option nat) (s s' : Manager) :
  deleteCandidateNode node s = Some (tt, s') → countsAgree s → countsAgree s'.
Proof.
  intros Hrun. destruct (delete_inv node s) as (a & n & -> & Hn); [right; eauto|].
  rewrite (deleteCandidateNode_run _ _ _ Hn) in Hrun. cbn zeta in Hrun.
  injection Hrun as <-. intros [HE HC]. split; cbn; [done|].
  destruct (candidateNodes s !! NodeID n) eqn:Hl.
  - rewrite (size_delete_pred _ _ _ Hl), HC.
    replace (wrap64 (Z.of_nat (size (candidateNodes s))) - 1)
      with (wrap64 (Z.of_nat (size (candidateNodes s))) + -1) by lia.
    rewrite wrap64_add_l. f_equal.
  - by rewrite delete_id.
Qed.

Lemma sameRegistry_refl (s : Manager) : sameRegistry s s.
Proof. done. Qed.

Lemma sameRegistry_trans (s1 s2 s3 : Manager) :
  sameRegistry s1 s2 → sameRegistry s2 s3 → sameRegistry s1 s3.
Proof.
  intros (? & ? & ? & ?) (? & ? & ? & ?). repeat split; congruence.
Qed.

Lemma DistributeNodeWeight_registry (node : option nat) (s s' : Manager) :
  DistributeNodeWeight node s = Some (tt, s') → sameRegistry s s'.
Proof.
  intros Hrun. pose proof Hrun as Hrun'. unfold DistributeNodeWeight in Hrun'.
  apply bind_deref_inv in Hrun' as (a & n & -> & Hn & _).
  rewrite (DistributeNodeWeight_run _ _ _ Hn) in Hrun. injection Hrun as <-.
  destruct (distributed_frame s a n) as (? & ? & ? & ? & _). done.
Qed.

Lemma RepayNodeWeight_registry (node : option nat) (s s' : Manager) :
  RepayNodeWeight node s = Some (tt, s') → sameRegistry s s'.
Proof.
  intros (a & n & -> & Hn & ->)%RepayNodeWeight_inv.
  destruct (repaid_frame s a n) as (? & ? & ? & ? & _). done.
Qed.

Lemma nodeKeepalive_counts (node : option nat) (t : Z) (isSave alive : bool)
  (s s' : Manager) :
  nodeKeepalive node t isSave s = Some (alive, s') →
  countsAgree s → countsAgree s'.
Proof.
  intros Hrun Hs. pose proof Hrun as Hrun'. unfold nodeKeepalive in Hrun'.
  apply bind_deref_inv in Hrun' as (a & n & -> & Hn & _).
  destruct (decide (t < LastRequestTime n)) as [Hlt|Hge].
  - rewrite (nodeKeepalive_alive _ _ _ _ _ Hn Hlt) in Hrun.
    injection Hrun as _ <-. by destruct isSave.
  - rewrite (nodeKeepalive_dead _ _ _ _ _ Hn) in Hrun by lia.
    cbn zeta in Hrun. set (s0 := set_events _ s) in Hrun.
    assert (Hs0 : countsAgree s0) by done.
    destruct (Type_ n).
    + destruct (deleteEdgeNode (Some a) s0) as [[[] s1]|] eqn:E; [|done].
      cbn in Hrun. injection Hrun as _ <-.
      by apply (deleteEdgeNode_counts _ _ _ E).
    + destruct (deleteCandidateNode (Some a) s0) as [[[] s1]|] eqn:E; [|done].
      cbn in Hrun. injection Hrun as _ <-.
      by apply (deleteCandidateNode_counts _ _ _ E).
    + by injection Hrun as _ <-.
Qed.

Lemma keepaliveEntry_counts (now t : Z) (isSave : bool)
  (nodes nodes' : list NodeSnapshot) (node : option nat) (s s' : Manager) :
  keepaliveEntry now t isSave nodes node s = Some (nodes', s') →
  countsAgree s → countsAgree s'.
Proof.
  destruct node as [a|]; [|by intros [= _ <-]].
  unfold keepaliveEntry. unfold mbind at 1, M_bind at 1.
  destruct (nodeKeepalive _ _ _ _) as [[alive s1]|] eqn:E; [|done].
  intros Hrun Hs. pose proof (nodeKeepalive_counts _ _ _ _ _ _ E Hs) as Hs1.
  destruct alive; [|by injection Hrun as _ <-].
  apply bind_deref_inv in Hrun as (? & n & _ & _ & Hret).
  by injection Hret as _ <-.
Qed.

Lemma keepaliveRange_counts (now t : Z) (isSave : bool)
  (entries : list (string * option nat)) :
  ∀ (nodes nodes' : list NodeSnapshot) (s s' : Manager),
    keepaliveRange now t isSave entries nodes s = Some (nodes', s') →
    countsAgree s → countsAgree s'.
Proof.
  induction entries as [|[key node] rest IH]; intros nodes nodes' s s'.
  - by intros [= _ <-].
  - cbn [keepaliveRange]. unfold mbind at 1, M_bind at 1.
    destruct (keepaliveEntry _ _ _ _ _ _) as [[nodes1 s1]|] eqn:E; [|done].
    intros Hrun Hs. apply (IH _ _ _ _ Hrun).
    by apply (keepaliveEntry_counts _ _ _ _ _ _ _ _ E).
Qed.

Lemma nodesKeepalive_counts (now : Z) (isSave : bool) (s s' : Manager) :
  nodesKeepalive now isSave s = Some (tt, s') →
  countsAgree s → countsAgree s'.
Proof.
  unfold nodesKeepalive, gets. unfold mbind at 1 2, M_bind at 1 2.
  destruct (keepaliveRange _ _ _ _ _ _) as [[nodes1 s1]|] eqn:E1; [|done].
  unfold mbind at 1 2, M_bind at 1 2.
  destruct (keepaliveRange _ _ _ _ _ s1) as [[nodes2 s2]|] eqn:E2; [|done].
  intros Hrun Hs.
  pose proof (keepaliveRange_counts _ _ _ _ _ _ _ _ E1 Hs) as Hs1.
  pose proof (keepaliveRange_counts _ _ _ _ _ _ _ _ E2 Hs1) as Hs2.
  destruct isSave; by injection Hrun as <-.
Qed.

Lemma redistributeCandidate_registry (key : string) (node : option nat)
  (s s' : Manager) :
  redistributeCandidate key node s = Some (tt, s') → sameRegistry s s'.
Proof.
  intros Hrun. pose proof Hrun as Hrun'. unfold redistributeCandidate in Hrun'.
  apply bind_deref_inv in Hrun' as (a & n & -> & Hn & _).
  destruct (redistributeCandidate_run s s key a n Hn)
    as (s1 & Hrun1 & _ & _ & _ & ? & ? & ? & ? & _).
  { intros b m Hm. exact (sameNodes_refl s b m Hm). }
  rewrite Hrun1 in Hrun. by injection Hrun as <-.
Qed.

Lemma redistributeEdge_registry (key : string) (node : option nat)
  (s s' : Manager) :
  redistributeEdge key node s = Some (tt, s') → sameRegistry s s'.
Proof.
  intros Hrun. pose proof Hrun as Hrun'. unfold redistributeEdge in Hrun'.
  apply bind_deref_inv in Hrun' as (a & n & -> & Hn & _).
  destruct (redistributeEdge_run s s key a n Hn)
    as (s1 & Hrun1 & _ & _ & _ & ? & ? & ? & ? & _).
  { intros b m Hm. exact (sameNodes_refl s b m Hm). }
  rewrite Hrun1 in Hrun. by injection Hrun as <-.
Qed.

Lemma range_registry (f : string → option nat → M unit)
  (entries : list (string * option nat)) :
  (∀ key node s s', f key node s = Some (tt, s') → sameRegistry s s') →
  ∀ s s', range f entries s = Some (tt, s') → sameRegistry s s'.
Proof.
  intros Hf. induction entries as [|[key node] rest IH]; intros s s'.
  - by intros [= <-].
  - cbn [range]. unfold mbind, M_bind.
    destruct (f key node s) as [[[] s1]|] eqn:E; [|done].
    intros Hrun. eapply sameRegistry_trans; eauto.
Qed.

Lemma redistributeNodeSelectWeights_registry (s s' : Manager) :
  redistributeNodeSelectWeights s = Some (tt, s') → sameRegistry s s'.
Proof.
  unfold redistributeNodeSelectWeights, modify, gets.
  unfold mbind at 1 2 3, M_bind at 1 2 3.
  destruct (range redistributeCandidate _ _) as [[[] s1]|] eqn:E1; [|done].
  unfold mbind, M_bind. intros E2.
  apply (range_registry _ _ redistributeCandidate_registry) in E1.
  apply (range_registry _ _ redistributeEdge_registry) in E2.
  eapply sameRegistry_trans; [|eapply sameRegistry_trans; [exact E1|exact E2]].
  done.
Qed.

(** [updateNodeProfits] and [GetAllEdgeNode] only read. *)
Lemma profitsEntry_state (infos infos' : gmap string (option Z))
  (node : option nat) (s s' : Manager) :
  profitsEntry infos node s = Some (infos', s') → s' = s.
Proof.
  destruct node as [a|]; [|by intros [= _ <-]].
  unfold profitsEntry. intros (? & n & _ & _ & Hrun)%bind_deref_inv.
  destruct (IsAbnormal n); by injection Hrun as _ <-.
Qed.

Lemma profitsRange_state (entries : list (string * option nat)) :
  ∀ (infos infos' : gmap string (option Z)) (s s' : Manager),
    profitsRange entries infos s = Some (infos', s') → s' = s.
Proof.
  induction entries as [|[key node] rest IH]; intros infos infos' s s'.
  - by intros [= _ <-].
  - cbn [profitsRange]. unfold mbind, M_bind.
    destruct (profitsEntry infos node s) as [[infos1 s1]|] eqn:E; [|done].
    apply profitsEntry_state in E as ->. apply IH.
Qed.

Lemma updateNodeProfits_state (infos : gmap string (option Z))
  (s s' : Manager) :
  updateNodeProfits s = Some (infos, s') → s' = s.
Proof.
  unfold updateNodeProfits, gets. unfold mbind at 1 2, M_bind at 1 2.
  destruct (profitsRange _ _ _) as [[infos1 s1]|] eqn:E1; [|done].
  apply profitsRange_state in E1 as ->.
  unfold mbind, M_bind. apply profitsRange_state.
Qed.

(** One call of an operation of the manager. *)
Inductive step : Manager → Manager → Prop :=
  | step_storeEdgeNode node s s' :
      storeEdgeNode node s = Some (tt, s') → step s s'
  | step_storeCandidateNode node s s' :
      storeCandidateNode node s = Some (tt, s') → step s s'
  | step_deleteEdgeNode node s s' :
      deleteEdgeNode node s = Some (tt, s') → step s s'
  | step_deleteCandidateNode node s s' :
      deleteCandidateNode node s = Some (tt, s') → step s s'
  | step_DistributeNodeWeight node s s' :
      DistributeNodeWeight node s = Some (tt, s') → step s s'
  | step_RepayNodeWeight node s s' :
      RepayNodeWeight node s = Some (tt, s') → step s s'
  | step_nodeKeepalive node t isSave alive s s' :
      nodeKeepalive node t isSave s = Some (alive, s') → step s s'
  | step_nodesKeepalive now isSave s s' :
      nodesKeepalive now isSave s = Some (tt, s') → step s s'
  | step_keepaliveTick now count count' s s' :
      keepaliveTick now count s = Some (count', s') → step s s'
  | step_redistributeNodeSelectWeights s s' :
      redistributeNodeSelectWeights s = Some (tt, s') → step s s'
  | step_updateNodeProfits infos s s' :
      updateNodeProfits s = Some (infos, s') → step s s'
  | step_GetAllEdgeNode nodes s s' :
      GetAllEdgeNode s = Some (nodes, s') → step s s'.

Lemma step_counts (s s' : Manager) :
  step s s' → countsAgree s → countsAgree s'.
Proof.
  intros [node ? ? Hrun|node ? ? Hrun|node ? ? Hrun|node ? ? Hrun
         |node ? ? Hrun|node ? ? Hrun|node t isSave alive ? ? Hrun
         |now isSave ? ? Hrun|now count count' ? ? Hrun|? ? Hrun
         |infos ? ? Hrun|nodes ? ? Hrun].
  - by apply (storeEdgeNode_counts node).
  - by apply (storeCandidateNode_counts node).
  - by apply (deleteEdgeNode_counts node).
  - by apply (deleteCandidateNode_counts node).
  - apply sameRegistry_counts. by apply (DistributeNodeWeight_registry node).
  - apply sameRegistry_counts. by apply (RepayNodeWeight_registry node).
  - by apply (nodeKeepalive_counts node t isSave alive).
  - by apply (nodesKeepalive_counts now isSave).
  - unfold keepaliveTick, mbind, M_bind in Hrun.
    destruct (nodesKeepalive _ _ _) as [[[] s1]|] eqn:E; [|done].
    injection Hrun as _ <-. by apply (nodesKeepalive_counts _ _ _ _ E).
  - apply sameRegistry_counts.
    by apply redistributeNodeSelectWeights_registry.
  - by apply updateNodeProfits_state in Hrun as ->.
  - by injection Hrun as _ <-.
Qed.

(** The live counts stay the sizes of the two maps, as 64-bit integers,
    through every sequence of calls that return: joins, leaves, weight
    calls, keepalive sweeps, redistribution and the read-only calls. *)
Theorem counts_agree_reachable (s s' : Manager) :
  countsAgree s → rtc step s s' →
  countsAgree s' ∧
  (Z.of_nat (size (edgeNodes s')) < 2 ^ 63 →
   Edges s' = Z.of_nat (size (edgeNodes s'))) ∧
  (Z.of_nat (size (candidateNodes s')) < 2 ^ 63 →
   Candidates s' = Z.of_nat (size (candidateNodes s'))).
Proof.
  intros Hs Hreach.
  assert (Hs' : countsAgree s').
  { induction Hreach as [|s1 s2 s3 Hstep _ IH]; [done|].
    apply IH. by apply (step_counts s1). }
  split; [done|]. destruct Hs' as [-> ->].
  split; intros Hlt; apply wrap64_id; lia.
Qed.


(** *** Joining and leaving *)

Lemma distribute_repay (pool pool' : gmap Z string) (id : string) (k : nat)
  (ws : list Z) :
  distributeWeight pool id k = (ws, pool') → repayWeight pool' ws = pool.
Proof.
  intros (_ & _ & Hfresh & Hlk & _)%LedgerFacts.distributeWeight_spec.
  apply map_eq. intros h. rewrite LedgerFacts.repayWeight_lookup, Hlk.
  destruct (decide (h ∈ ws)); [symmetry; auto | done].
Qed.

Lemma set_selectWeights_id (n : Node) (ws : list Z) :
  selectWeights n = [] → set_selectWeights [] (set_selectWeights ws n) = n.
Proof. destruct n. cbn. by intros ->. Qed.

(** Allocation to a node without handles, then repayment, restores the
    state. *)
Lemma repaid_distributed (s : Manager) (a : nat) (n : Node) :
  heap s !! a = Some n → selectWeights n = [] →
  ∃ n1, heap (distributed a n s) !! a = Some n1 ∧ NodeID n1 = NodeID n ∧
        repaid a n1 (distributed a n s) = s.
Proof.
  intros Hn Hws.
  assert (Hid : set_selectWeights [] n = n).
  { rewrite <- (set_selectWeights_id n (selectWeights n)) at 2 by done.
    by destruct n. }
  assert (Hplain : repaid a n s = s).
  { unfold repaid. rewrite Hws, Hid, LedgerFacts.repayWeight_nil.
    rewrite insert_id by done.
    destruct (Type_ n); by rewrite ?weightManager_eta, ?Manager_eta. }
  unfold distributed. destruct (IsAbnormal n); [by exists n|].
  destruct (Type_ n) eqn:Hty; [| |by exists n].
  - destruct (distributeWeight _ _ _) as [ws pool] eqn:E.
    exists (set_selectWeights ws n). cbn. rewrite lookup_insert_eq.
    split; [done|]. split; [done|].
    unfold repaid. cbn. rewrite Hty. cbn. fold (repayWeight pool ws).
    rewrite (distribute_repay _ _ _ _ _ E), insert_insert_eq.
    rewrite set_selectWeights_id, insert_id by done.
    by rewrite weightManager_eta, Manager_eta.
  - destruct (distributeWeight _ _ _) as [ws pool] eqn:E.
    exists (set_selectWeights ws n). cbn. rewrite lookup_insert_eq.
    split; [done|]. split; [done|].
    unfold repaid. cbn. rewrite Hty. cbn. fold (repayWeight pool ws).
    rewrite (distribute_repay _ _ _ _ _ E), insert_insert_eq.
    rewrite set_selectWeights_id, insert_id by done.
    by rewrite weightManager_eta, Manager_eta.
Qed.

Lemma repaid_set_events (f : list Event → list Event) (s : Manager) (a : nat)
  (n : Node) :
  repaid a n (set_events f s) = set_events f (repaid a n s).
Proof. unfold repaid. by destruct (Type_ n). Qed.

Lemma wrap64_succ_pred (x : Z) :
  - 2 ^ 63 ≤ x < 2 ^ 63 → wrap64 (wrap64 (x + 1) - 1) = x.
Proof.
  intros Hx. replace (wrap64 (x + 1) - 1) with (wrap64 (x + 1) + -1) by lia.
  rewrite wrap64_add_l. replace (x + 1 + -1) with x by lia.
  by apply wrap64_id.
Qed.

(** A node that joins without handles and leaves again, with no call in
    between, leaves the manager as it was: map, count, ledger and node are
    restored (the count also when it wraps around), and the online and the
    offline event are what remains. *)
Theorem store_delete_roundtrip (s : Manager) (a : nat) (n : Node) :
  heap s !! a = Some n → selectWeights n = [] →
  - 2 ^ 63 ≤ Edges s < 2 ^ 63 → - 2 ^ 63 ≤ Candidates s < 2 ^ 63 →
  let left := set_events (λ l, l ++ [EvPub (Some a) EventNodeOnline;
                                     EvPub (Some a) EventNodeOffline]) s in
  (edgeNodes s !! NodeID n = None →
   ∃ s1, storeEdgeNode (Some a) s = Some (tt, s1) ∧
         deleteEdgeNode (Some a) s1 = Some (tt, left)) ∧
  (candidateNodes s !! NodeID n = None →
   ∃ s1, storeCandidateNode (Some a) s = Some (tt, s1) ∧
         deleteCandidateNode (Some a) s1 = Some (tt, left)).
Proof.
  intros Hn Hws HE HC left. split; intros Hnew.
  - rewrite (storeEdgeNode_run _ _ _ Hn), Hnew. cbn zeta.
    set (s0 := mkManager _ _ _ _ _ _ _).
    destruct (repaid_distributed s0 a n Hn Hws) as (n1 & Hn1 & Hid & Hback).
    eexists. split; [reflexivity|].
    rewrite (deleteEdgeNode_run _ _ n1) by done. cbn zeta.
    rewrite repaid_set_events, Hback.
    destruct (distributed_frame s0 a n) as (He & Hc & HE' & HC' & Hev).
    cbn. rewrite He, Hc, HE', HC', Hev, Hid. cbn.
    rewrite lookup_insert_eq, delete_insert_eq, delete_id by done.
    rewrite wrap64_succ_pred by done. rewrite <- app_assoc. done.
  - rewrite (storeCandidateNode_run _ _ _ Hn), Hnew. cbn zeta.
    set (s0 := mkManager _ _ _ _ _ _ _).
    destruct (repaid_distributed s0 a n Hn Hws) as (n1 & Hn1 & Hid & Hback).
    eexists. split; [reflexivity|].
    rewrite (deleteCandidateNode_run _ _ n1) by done. cbn zeta.
    rewrite repaid_set_events, Hback.
    destruct (distributed_frame s0 a n) as (He & Hc & HE' & HC' & Hev).
    cbn. rewrite He, Hc, HE', HC', Hev, Hid. cbn.
    rewrite lookup_insert_eq, delete_insert_eq, delete_id by done.
    rewrite wrap64_succ_pred by done. rewrite <- app_assoc. done.
Qed.

(** *** The keepalive sweep *)

(** The node a map entry points to. *)
Definition view (s : Manager) (node : option nat) : option Node :=
  match node with
  | Some a => heap s !! a
  | None => None
  end.

(** The entries of a [Range], each with the node it points to. *)
Definition viewed (s : Manager) (entries : list (string * option nat))
  : list (string * option nat * option Node) :=
  (λ entry, (entry.1, entry.2, view s entry.2)) <$> entries.

Definition aliveNode (t : Z) (n : Node) : bool :=
  bool_decide (t < LastRequestTime n).

(** The node after [nodeKeepalive] has looked at it. *)
Definition visited (t : Z) (isSave : bool) (n : Node) : Node :=
  if aliveNode t n then
    if isSave
    then set_OnlineDuration (wrap64 (OnlineDuration n + saveMinutes)) n
    else n
  else
    match Type_ n with
    | NodeOther => n
    | _ => set_selectWeights [] n
    end.

(** What one entry contributes: the key deleted from the map of tier [ty],
    the handles repaid to the pool of tier [ty], the calls that leave the
    manager, and the snapshot. *)
Definition deadKey (ty : NodeType) (t : Z)
  (x : string * option nat * option Node) : option string :=
  match x.2 with
  | Some n =>
      if aliveNode t n then None
      else if decide (Type_ n = ty) then Some (NodeID n) else None
  | None => None
  end.

Definition deadHandles (ty : NodeType) (t : Z)
  (x : string * option nat * option Node) : list Z :=
  match x.2 with
  | Some n =>
      if aliveNode t n then []
      else if decide (Type_ n = ty) then selectWeights n else []
  | None => []
  end.

Definition closeEvent (t : Z) (x : string * option nat * option Node)
  : list Event :=
  match x.2 with
  | Some n =>
      if aliveNode t n then []
      else EvClientCloser x.1.2 ::
           match Type_ n with
           | NodeOther => []
           | _ => [EvPub x.1.2 EventNodeOffline]
           end
  | None => []
  end.

Definition snapshot (now t : Z) (isSave : bool)
  (x : string * option nat * option Node) : option NodeSnapshot :=
  match x.2 with
  | Some n =>
      if aliveNode t n
      then let n' := visited t isSave n in
           Some (mkNodeSnapshot (NodeID n') (OnlineDuration n')
                   (DiskUsage n') now)
      else None
  | None => None
  end.

(** The state and the snapshots after a [Range] over [entries], from the
    state [s] and the snapshots [nodes]. *)
Definition swept (now t : Z) (isSave : bool)
  (entries : list (string * option nat)) (s s' : Manager)
  (nodes nodes' : list NodeSnapshot) : Prop :=
  let xs := viewed s entries in
  edgeNodes s' = foldr delete (edgeNodes s) (omap (deadKey NodeEdge t) xs) ∧
  candidateNodes s'
    = foldr delete (candidateNodes s) (omap (deadKey NodeCandidate t) xs) ∧
  edgeWeights (weightMgr s')
    = repayWeight (edgeWeights (weightMgr s)) (xs ≫= deadHandles NodeEdge t) ∧
  candidateWeights (weightMgr s')
    = repayWeight (candidateWeights (weightMgr s))
        (xs ≫= deadHandles NodeCandidate t) ∧
  events s' = events s ++ (xs ≫= closeEvent t) ∧
  nodes' = nodes ++ omap (snapshot now t isSave) xs ∧
  ∀ a, heap s' !! a
       = (λ n, if bool_decide (Some a ∈ entries.*2)
               then visited t isSave n else n) <$> heap s !! a.

(** Every entry is nil or points to a node filed under its own id. *)
Definition filed (s : Manager) (entries : list (string * option nat)) : Prop :=
  ∀ key a, (key, Some a) ∈ entries →
    ∃ n, heap s !! a = Some n ∧ NodeID n = key.

Lemma foldr_delete_app `{Countable K} {A} (m : gmap K A) (ks1 ks2 : list K) :
  foldr delete (foldr delete m ks1) ks2 = foldr delete m (ks1 ++ ks2).
Proof.
  induction ks1 as [|k ks1 IH]; [done|].
  cbn [foldr app]. rewrite <- delete_foldr_delete. by rewrite IH.
Qed.

Lemma omap_cons_app {A B} (f : A → option B) (x : A) (l : list A) :
  omap f (x :: l) = omap f [x] ++ omap f l.
Proof. cbn. by destruct (f x). Qed.

Lemma visited_NodeID (t : Z) (isSave : bool) (n : Node) :
  NodeID (visited t isSave n) = NodeID n.
Proof.
  unfold visited. destruct (aliveNode t n); [by destruct isSave|].
  by destruct (Type_ n).
Qed.

Lemma heap_visited (h : gmap nat Node) (a : nat) (n : Node) (t : Z)
  (isSave : bool) (key : string) (b : nat) :
  h !! a = Some n →
  <[a := visited t isSave n]> h !! b
  = (λ m, if bool_decide (Some b ∈ [(key, Some a)].*2)
          then visited t isSave m else m) <$> h !! b.
Proof.
  intros Hn. destruct (decide (b = a)) as [->|Hne].
  - rewrite lookup_insert_eq, Hn. cbn. rewrite bool_decide_true; [done|].
    set_solver.
  - rewrite lookup_insert_ne by done. destruct (h !! b); [|done]. cbn.
    rewrite bool_decide_false; [done|]. set_solver.
Qed.

Lemma keepaliveEntry_run (now t : Z) (isSave : bool) (key : string)
  (node : option nat) (s : Manager) (nodes : list NodeSnapshot) :
  filed s [(key, node)] →
  ∃ nodes' s',
    keepaliveEntry now t isSave nodes node s = Some (nodes', s') ∧
    swept now t isSave [(key, node)] s s' nodes nodes'.
Proof.
  intros Hf. destruct node as [a|].
  2:{ exists nodes, s. split; [done|]. unfold swept. cbn.
      rewrite !app_nil_r. repeat split.
      intros a. destruct (heap s !! a); [|done]. cbn.
      rewrite bool_decide_false; [done|]. set_solver. }
  destruct (Hf key a) as (n & Hn & Hid); [left|].
  pose proof (λ b, heap_visited (heap s) a n t isSave key b Hn) as Hheap.
  unfold keepaliveEntry, swept, viewed. cbn [fmap list_fmap view fst snd].
  rewrite Hn. cbn [omap list_omap mbind list_bind].
  unfold deadKey, deadHandles, closeEvent, snapshot.
  cbn [fst snd]. unfold visited in Hheap |- *. unfold aliveNode in *.
  destruct (decide (t < LastRequestTime n)) as [Hlt|Hge].
  - rewrite bool_decide_true in Hheap |- * by done.
    rewrite (bind_Some _ _ _ _ _ (nodeKeepalive_alive _ _ _ _ _ Hn Hlt)).
    destruct isSave.
    + erewrite bind_Some; [|apply deref_Some; cbn; apply lookup_insert_eq].
      eexists _, _. split; [reflexivity|]. cbn. rewrite !app_nil_r.
      repeat split. intros b. apply Hheap.
    + erewrite bind_Some; [|apply deref_Some; exact Hn].
      eexists _, _. split; [reflexivity|]. cbn. rewrite !app_nil_r.
      repeat split. intros b. rewrite <- Hheap. by rewrite insert_id.
  - rewrite bool_decide_false in Hheap |- * by done.
    unfold mbind at 1, M_bind at 1.
    rewrite (nodeKeepalive_dead _ _ _ _ _ Hn) by lia. cbn zeta.
    set (s0 := set_events _ s).
    assert (Hn0 : heap s0 !! a = Some n) by done.
    destruct (Type_ n) eqn:Hty.
    + rewrite (deleteEdgeNode_run _ _ _ Hn0). cbn.
      eexists _, _. split; [reflexivity|].
      unfold repaid. rewrite Hty. cbn. rewrite !app_nil_r, <- app_assoc.
      repeat split. intros b. apply Hheap.
    + rewrite (deleteCandidateNode_run _ _ _ Hn0). cbn.
      eexists _, _. split; [reflexivity|].
      unfold repaid. rewrite Hty. cbn. rewrite !app_nil_r, <- app_assoc.
      repeat split. intros b. apply Hheap.
    + cbn. eexists _, _. split; [reflexivity|]. cbn. rewrite !app_nil_r.
      repeat split. intros b. rewrite <- Hheap. by rewrite insert_id.
Qed.

Lemma swept_cons (now t : Z) (isSave : bool) (key : string)
  (node : option nat) (rest : list (string * option nat))
  (s s1 s2 : Manager) (nodes nodes1 nodes2 : list NodeSnapshot) :
  key ∉ rest.*1 → filed s ((key, node) :: rest) →
  swept now t isSave [(key, node)] s s1 nodes nodes1 →
  swept now t isSave rest s1 s2 nodes1 nodes2 →
  swept now t isSave ((key, node) :: rest) s s2 nodes nodes2.
Proof.
  intros Hkey Hf (He1 & Hc1 & Hew1 & Hcw1 & Hev1 & Hn1 & Hh1)
    (He2 & Hc2 & Hew2 & Hcw2 & Hev2 & Hn2 & Hh2).
  assert (Hfresh : ∀ a, node = Some a → Some a ∉ rest.*2).
  { intros a -> Hin. apply list_elem_of_fmap in Hin as ([k' p] & Hp & Hin).
    cbn in Hp. subst p.
    destruct (Hf key a) as (n & Hn & Hid); [left|].
    destruct (Hf k' a) as (n' & Hn' & Hid'); [by right|].
    apply Hkey. apply list_elem_of_fmap. exists (k', Some a).
    split; [|done]. cbn. congruence. }
  assert (Hview : viewed s1 rest = viewed s rest).
  { unfold viewed. apply list_fmap_ext. intros i [k' p] Hi. cbn.
    f_equal. destruct p as [b|]; [|done]. cbn. rewrite Hh1.
    destruct (heap s !! b) eqn:Hb; [|done]. cbn.
    rewrite bool_decide_false; [done|].
    cbn. intros [<-|Hin%elem_of_nil]%elem_of_cons; [|done].
    apply (Hfresh b eq_refl). apply list_elem_of_fmap.
    exists (k', Some b). split; [done|]. by eapply list_elem_of_lookup_2. }
  rewrite Hview in *. unfold swept.
  change (viewed s ((key, node) :: rest))
    with ((key, node, view s node) :: viewed s rest).
  rewrite !(omap_cons_app _ (key, node, view s node) (viewed s rest)).
  change (viewed s [(key, node)]) with [(key, node, view s node)] in *.
  cbn [mbind list_bind] in *. rewrite app_nil_r in *.
  split; [by rewrite He2, He1, foldr_delete_app|].
  split; [by rewrite Hc2, Hc1, foldr_delete_app|].
  split; [by rewrite Hew2, Hew1; apply foldr_delete_app|].
  split; [by rewrite Hcw2, Hcw1; apply foldr_delete_app|].
  split; [by rewrite Hev2, Hev1, app_assoc|].
  split; [by rewrite Hn2, Hn1, app_assoc|].
  intros a. rewrite Hh2, Hh1. destruct (heap s !! a) as [n|]; [|done]. cbn.
  f_equal. destruct node as [b|].
  - destruct (decide (a = b)) as [->|Hne].
    + rewrite (bool_decide_true (Some b ∈ [Some b])) by set_solver.
      rewrite (bool_decide_false (Some b ∈ rest.*2)) by auto.
      rewrite bool_decide_true; [done|]. set_solver.
    + rewrite (bool_decide_false (Some a ∈ [Some b])) by set_solver.
      apply (f_equal (λ c : bool, if c then _ else _)).
      apply bool_decide_ext. set_solver.
  - rewrite (bool_decide_false (Some a ∈ [None])) by set_solver.
    apply (f_equal (λ c : bool, if c then _ else _)).
    apply bool_decide_ext. set_solver.
Qed.

Lemma swept_nil (now t : Z) (isSave : bool) (s : Manager)
  (nodes : list NodeSnapshot) : swept now t isSave [] s s nodes nodes.
Proof.
  unfold swept. cbn. rewrite !app_nil_r. repeat split.
  intros a. destruct (heap s !! a); [|done]. cbn.
  rewrite bool_decide_false; [done|]. set_solver.
Qed.

Lemma swept_filed (now t : Z) (isSave : bool)
  (entries rest : list (string * option nat)) (s s' : Manager)
  (nodes nodes' : list NodeSnapshot) :
  swept now t isSave entries s s' nodes nodes' → filed s rest → filed s' rest.
Proof.
  intros (_ & _ & _ & _ & _ & _ & Hh) Hf key a Hin.
  destruct (Hf key a Hin) as (n & Hn & Hid). rewrite Hh, Hn. cbn.
  eexists. split; [reflexivity|].
  destruct (bool_decide _); [by rewrite visited_NodeID|done].
Qed.

Lemma keepaliveRange_run (now t : Z) (isSave : bool)
  (entries : list (string * option nat)) :
  ∀ (s : Manager) (nodes : list NodeSnapshot),
    NoDup entries.*1 → filed s entries →
    ∃ nodes' s',
      keepaliveRange now t isSave entries nodes s = Some (nodes', s') ∧
      swept now t isSave entries s s' nodes nodes'.
Proof.
  induction entries as [|[key node] rest IH]; intros s nodes Hnd Hf.
  - exists nodes, s. split; [done|]. apply swept_nil.
  - apply NoDup_cons in Hnd as [Hkey Hnd].
    destruct (keepaliveEntry_run now t isSave key node s nodes)
      as (nodes1 & s1 & Hrun1 & Hsw1).
    { intros k a [[= -> <-]|Hin%elem_of_nil]%elem_of_cons; [|done].
      apply Hf. left. }
    destruct (IH s1 nodes1 Hnd) as (nodes2 & s2 & Hrun2 & Hsw2).
    { apply (swept_filed _ _ _ _ _ _ _ _ _ Hsw1).
      intros k a Hin. apply Hf. by right. }
    exists nodes2, s2. cbn [keepaliveRange].
    rewrite (bind_Some _ _ _ _ _ Hrun1). split; [done|].
    by apply (swept_cons _ _ _ _ _ _ _ s1 _ _ nodes1).
Qed.

(** The edge map holds edge nodes and the candidate map candidate nodes,
    each non-nil entry under the id of its node. *)
Definition filedAs (ty : NodeType) (s : Manager)
  (m : gmap string (option nat)) : Prop :=
  ∀ key a, m !! key = Some (Some a) →
    ∃ n, heap s !! a = Some n ∧ NodeID n = key ∧ Type_ n = ty.

Definition wellFiled (s : Manager) : Prop :=
  filedAs NodeEdge s (edgeNodes s) ∧ filedAs NodeCandidate s (candidateNodes s).

(** An entry stays in its map unless it points to a node whose last contact
    is not after the cutoff. *)
Definition stays (s : Manager) (t : Z) (node : option nat) : Prop :=
  ∀ n, view s node = Some n → t < LastRequestTime n.

#[local] Instance stays_dec (s : Manager) (t : Z) (node : option nat) :
  Decision (stays s t node).
Proof.
  unfold stays. destruct (view s node) as [n|].
  - destruct (decide (t < LastRequestTime n)) as [Hlt|Hge].
    + left. by intros ? [= <-].
    + right. intros Hall. by apply Hge, Hall.
  - left. done.
Defined.

Lemma filedAs_filed (ty : NodeType) (s : Manager)
  (m : gmap string (option nat)) :
  filedAs ty s m → filed s (map_to_list m).
Proof.
  intros Hf key a Hin%elem_of_map_to_list.
  destruct (Hf key a Hin) as (n & ? & ? & _). eauto.
Qed.

Lemma elem_of_viewed (s : Manager) (m : gmap string (option nat))
  (x : string * option nat * option Node) :
  x ∈ viewed s (map_to_list m) ↔
  m !! x.1.1 = Some x.1.2 ∧ x.2 = view s x.1.2.
Proof.
  unfold viewed. rewrite list_elem_of_fmap. split.
  - intros ([key node] & -> & Hin%elem_of_map_to_list). done.
  - destruct x as [[key node] v]. cbn. intros [Hkey ->].
    exists (key, node). split; [done|]. by apply elem_of_map_to_list.
Qed.

(** The keys the sweep deletes from a map are those of its dead nodes;
    the entries of the other tier's map name none. *)
Lemma deadKeys_same (ty : NodeType) (s : Manager) (t : Z)
  (m : gmap string (option nat)) (key : string) :
  filedAs ty s m →
  key ∈ omap (deadKey ty t) (viewed s (map_to_list m)) ↔
  ∃ node, m !! key = Some node ∧ ¬ stays s t node.
Proof.
  intros Hf. rewrite list_elem_of_omap. split.
  - intros ([[k node] v] & [Hk Hv]%elem_of_viewed & Hdead).
    cbn in Hk, Hv. subst v. unfold deadKey in Hdead. cbn in Hdead.
    destruct (view s node) as [n|] eqn:Hn; [|done].
    unfold aliveNode in Hdead. case_bool_decide as Hlt; [done|].
    case_decide; [|done]. injection Hdead as <-.
    destruct node as [a|]; [|done]. cbn in Hn.
    destruct (Hf k a Hk) as (n' & Hn' & Hid & _). simplify_eq.
    exists (Some a). split; [done|]. intros Hst. apply Hlt, Hst. done.
  - intros (node & Hkey & Hdead).
    exists (key, node, view s node). split.
    { apply elem_of_viewed. done. }
    unfold deadKey. cbn. unfold stays in Hdead.
    destruct node as [a|]; cbn in *; [|by destruct Hdead].
    destruct (heap s !! a) as [n|] eqn:Hn; [|by destruct Hdead].
    destruct (Hf key a Hkey) as (n' & Hn' & Hid & Hty). simplify_eq.
    unfold aliveNode. case_bool_decide as Hlt.
    + destruct Hdead. by intros ? [= <-].
    + by rewrite decide_True.
Qed.

Lemma deadKeys_other (ty ty' : NodeType) (s : Manager) (t : Z)
  (m : gmap string (option nat)) :
  filedAs ty s m → ty ≠ ty' →
  omap (deadKey ty' t) (viewed s (map_to_list m)) = [] ∧
  viewed s (map_to_list m) ≫= deadHandles ty' t = [].
Proof.
  intros Hf Hne.
  assert (Hty : ∀ x, x ∈ viewed s (map_to_list m) →
                ∀ n, x.2 = Some n → Type_ n = ty).
  { intros [[k node] v] [Hk Hv]%elem_of_viewed n Hn. cbn in *. subst v.
    destruct node as [a|]; [|done]. cbn in Hn.
    destruct (Hf k a Hk) as (n' & Hn' & _ & ?). congruence. }
  induction (viewed s (map_to_list m)) as [|x xs IH]; [done|].
  cbn. unfold deadKey at 1, deadHandles at 1.
  destruct (IH (λ y Hy, Hty y (list_elem_of_further _ _ _ Hy))) as [-> ->].
  destruct (x.2) as [n|] eqn:Hx; [|done].
  pose proof (Hty x (list_elem_of_here _ _) n Hx) as Hn.
  destruct (aliveNode t n); [done|].
  rewrite !decide_False by congruence. done.
Qed.

Lemma foldr_delete_filter (ty : NodeType) (s : Manager) (t : Z)
  (m : gmap string (option nat)) :
  filedAs ty s m →
  foldr delete m (omap (deadKey ty t) (viewed s (map_to_list m)))
  = filter (λ kv, stays s t kv.2) m.
Proof.
  intros Hf. apply map_eq. intros key.
  destruct (m !! key) as [node|] eqn:Hkey.
  - destruct (decide (stays s t node)) as [Hst|Hdead].
    + rewrite lookup_foldr_delete_not_elem_of.
      * rewrite Hkey. symmetry. by apply map_lookup_filter_Some.
      * intros (node' & Hk' & Hd)%(deadKeys_same _ _ _ _ _ Hf). congruence.
    + rewrite lookup_foldr_delete.
      * symmetry. apply map_lookup_filter_None. right.
        intros node' Hk'. cbn. congruence.
      * apply (deadKeys_same _ _ _ _ _ Hf). eauto.
  - transitivity (@None (option nat)).
    + destruct (foldr delete m _ !! key) eqn:E; [|done].
      apply lookup_foldr_delete_Some in E as [_ E]. congruence.
    + symmetry. apply map_lookup_filter_None. by left.
Qed.

(** Some entry of the edge map or of the candidate map points to [a]. *)
Definition registered (s : Manager) (a : nat) : Prop :=
  Some a ∈ (map_to_list (edgeNodes s) ++ map_to_list (candidateNodes s)).*2.

#[local] Instance registered_dec (s : Manager) (a : nat) :
  Decision (registered s a).
Proof. unfold registered. apply _. Defined.

Lemma registered_iff (s : Manager) (a : nat) :
  registered s a ↔
  ∃ key, edgeNodes s !! key = Some (Some a)
         ∨ candidateNodes s !! key = Some (Some a).
Proof.
  unfold registered. rewrite fmap_app, elem_of_app.
  rewrite !elem_of_map_to_list_values. naive_solver.
Qed.

(** What [nodesKeepalive] does to a manager whose maps are well filed. *)
Lemma nodesKeepalive_run (now : Z) (isSave : bool) (s : Manager) :
  wellFiled s →
  let t := now - keepaliveTime in
  let xs := viewed s (map_to_list (edgeNodes s)
                      ++ map_to_list (candidateNodes s)) in
  ∃ s',
    nodesKeepalive now isSave s = Some (tt, s') ∧
    edgeNodes s' = filter (λ kv, stays s t kv.2) (edgeNodes s) ∧
    candidateNodes s' = filter (λ kv, stays s t kv.2) (candidateNodes s) ∧
    edgeWeights (weightMgr s')
      = repayWeight (edgeWeights (weightMgr s)) (xs ≫= deadHandles NodeEdge t) ∧
    candidateWeights (weightMgr s')
      = repayWeight (candidateWeights (weightMgr s))
          (xs ≫= deadHandles NodeCandidate t) ∧
    events s'
      = events s ++ (xs ≫= closeEvent t)
        ++ (if isSave
            then [EvUpdateOnlineDuration (omap (snapshot now t isSave) xs)]
            else []) ∧
    ∀ a, heap s' !! a
         = (λ n, if bool_decide (registered s a)
                 then visited t isSave n else n) <$> heap s !! a.
Proof.
  intros [Hfe Hfc] t xs.
  set (E := map_to_list (edgeNodes s)). set (C := map_to_list (candidateNodes s)).
  destruct (keepaliveRange_run now t isSave E s [])
    as (nodes1 & s1 & Hrun1 & Hsw1).
  { apply NoDup_fst_map_to_list. }
  { by apply (filedAs_filed NodeEdge). }
  pose proof Hsw1 as (He1 & Hc1 & Hew1 & Hcw1 & Hev1 & Hn1 & Hh1).
  destruct (deadKeys_other NodeEdge NodeCandidate s t _ Hfe) as [Hk1 Hd1];
    [done|].
  fold E in Hk1, Hd1. rewrite Hk1 in Hc1. rewrite Hd1 in Hcw1. cbn in Hc1, Hcw1.
  destruct (keepaliveRange_run now t isSave C s1 nodes1)
    as (nodes2 & s2 & Hrun2 & Hsw2).
  { apply NoDup_fst_map_to_list. }
  { apply (swept_filed _ _ _ _ _ _ _ _ _ Hsw1).
    by apply (filedAs_filed NodeCandidate). }
  destruct Hsw2 as (He2 & Hc2 & Hew2 & Hcw2 & Hev2 & Hn2 & Hh2).
  assert (Hdisj : ∀ a, Some a ∈ E.*2 → Some a ∈ C.*2 → False).
  { intros a [k1 Hk]%elem_of_map_to_list_values
             [k2 Hk']%elem_of_map_to_list_values.
    destruct (Hfe k1 a Hk) as (n & Hn & _ & Hty).
    destruct (Hfc k2 a Hk') as (n' & Hn' & _ & Hty'). congruence. }
  assert (Hview : viewed s1 C = viewed s C).
  { unfold viewed. apply list_fmap_ext. intros i [k p] Hi. cbn.
    f_equal. destruct p as [b|]; [|done]. cbn. rewrite Hh1.
    destruct (heap s !! b) eqn:Hb; [|done]. cbn.
    rewrite bool_decide_false; [done|]. intros Hin. apply (Hdisj b Hin).
    apply list_elem_of_fmap. exists (k, Some b). split; [done|].
    by eapply list_elem_of_lookup_2. }
  rewrite Hview in *.
  destruct (deadKeys_other NodeCandidate NodeEdge s t _ Hfc) as [Hk2 Hd2];
    [done|].
  fold C in Hk2, Hd2. rewrite Hk2 in He2. rewrite Hd2 in Hew2. cbn in He2, Hew2.
  assert (Hxs : xs = viewed s E ++ viewed s C).
  { unfold xs, viewed. by rewrite fmap_app. }
  assert (Hrun : ∃ s', nodesKeepalive now isSave s = Some (tt, s') ∧
            heap s' = heap s2 ∧ edgeNodes s' = edgeNodes s2 ∧
            candidateNodes s' = candidateNodes s2 ∧
            weightMgr s' = weightMgr s2 ∧
            events s' = events s2
              ++ (if isSave then [EvUpdateOnlineDuration nodes2] else [])).
  { unfold nodesKeepalive, gets. unfold mbind at 1 2, M_bind at 1 2.
    fold t. fold E. rewrite Hrun1. unfold mbind at 1 2, M_bind at 1 2.
    rewrite Hc1. fold C. rewrite Hrun2.
    destruct isSave; eexists; (split; [reflexivity|]); cbn;
      rewrite ?app_nil_r; done. }
  destruct Hrun as (s' & Hrun & Hh' & He' & Hc' & Hw' & Hev').
  exists s'. split; [done|].
  split; [rewrite He', He2, He1; by apply (foldr_delete_filter NodeEdge)|].
  split; [rewrite Hc', Hc2, Hc1; by apply (foldr_delete_filter NodeCandidate)|].
  split.
  { rewrite Hw', Hew2, Hew1, Hxs, bind_app. fold E. rewrite Hd2, app_nil_r.
    done. }
  split.
  { rewrite Hw', Hcw2, Hcw1, Hxs, bind_app. rewrite Hd1. done. }
  split.
  { rewrite Hev', Hev2, Hev1, Hn2, Hn1, Hxs, bind_app, omap_app.
    rewrite <- !app_assoc. done. }
  intros a. rewrite Hh', Hh2, Hh1. destruct (heap s !! a) as [n|]; [|done].
  cbn. f_equal.
  destruct (decide (Some a ∈ E.*2)) as [HinE|HinE];
    destruct (decide (Some a ∈ C.*2)) as [HinC|HinC].
  - destruct (Hdisj a HinE HinC).
  - rewrite (bool_decide_true _ HinE), (bool_decide_false _ HinC).
    rewrite bool_decide_true; [done|].
    unfold registered. rewrite fmap_app. apply elem_of_app. by left.
  - rewrite (bool_decide_false _ HinE), (bool_decide_true _ HinC).
    rewrite bool_decide_true; [done|].
    unfold registered. rewrite fmap_app. apply elem_of_app. by right.
  - rewrite (bool_decide_false _ HinE), (bool_decide_false _ HinC).
    rewrite bool_decide_false; [done|].
    unfold registered. rewrite fmap_app. by intros [?|?]%elem_of_app.
Qed.

Lemma visited_Type (t : Z) (isSave : bool) (n : Node) :
  Type_ (visited t isSave n) = Type_ n.
Proof.
  unfold visited. destruct (aliveNode t n); [by destruct isSave|].
  destruct (Type_ n) eqn:E; done.
Qed.

(** The keepalive sweep over well-filed maps removes the entries whose node
    was last heard of at or before the cutoff [now - keepaliveTime], and no
    other entry; nil entries stay.  Every node an entry points to has been
    visited once: on a save tick an alive node has gained the minutes of
    the save interval, and a dead node has lost its handle list.  The maps
    are well filed again. *)
Theorem nodesKeepalive_sweep (now : Z) (isSave : bool) (s : Manager) :
  wellFiled s →
  let t := now - keepaliveTime in
  ∃ s',
    nodesKeepalive now isSave s = Some (tt, s') ∧
    edgeNodes s' = filter (λ kv, stays s t kv.2) (edgeNodes s) ∧
    candidateNodes s' = filter (λ kv, stays s t kv.2) (candidateNodes s) ∧
    (∀ a, heap s' !! a
          = (λ n, if bool_decide (registered s a)
                  then visited t isSave n else n) <$> heap s !! a) ∧
    wellFiled s'.
Proof.
  intros Hwf t.
  destruct (nodesKeepalive_run now isSave s Hwf)
    as (s' & Hrun & He & Hc & _ & _ & _ & Hh).
  exists s'. fold t in He, Hc, Hh. do 4 (split; [done|]).
  destruct Hwf as [Hfe Hfc].
  split; intros key a Hkey.
  - rewrite He in Hkey. apply map_lookup_filter_Some in Hkey as [Hkey _].
    destruct (Hfe key a Hkey) as (n & Hn & Hid & Hty).
    rewrite Hh, Hn. cbn. eexists. split; [reflexivity|].
    destruct (bool_decide _); [|done].
    by rewrite visited_NodeID, visited_Type.
  - rewrite Hc in Hkey. apply map_lookup_filter_Some in Hkey as [Hkey _].
    destruct (Hfc key a Hkey) as (n & Hn & Hid & Hty).
    rewrite Hh, Hn. cbn. eexists. split; [reflexivity|].
    destruct (bool_decide _); [|done].
    by rewrite visited_NodeID, visited_Type.
Qed.

(** The calls that leave the manager during a keepalive sweep over
    well-filed maps, edges first: for every dead node [ClientCloser] and
    then the offline event, and on a save tick one final
    [UpdateOnlineDuration] whose batch has one snapshot for every node found
    alive, with the online duration the tick has just added to.  The
    handles of the dead nodes are repaid to the pool of their tier. *)
Theorem nodesKeepalive_calls (now : Z) (isSave : bool) (s : Manager) :
  wellFiled s →
  let t := now - keepaliveTime in
  let xs := viewed s (map_to_list (edgeNodes s)
                      ++ map_to_list (candidateNodes s)) in
  ∃ s',
    nodesKeepalive now isSave s = Some (tt, s') ∧
    events s'
      = events s ++ (xs ≫= closeEvent t)
        ++ (if isSave
            then [EvUpdateOnlineDuration (omap (snapshot now t isSave) xs)]
            else []) ∧
    edgeWeights (weightMgr s')
      = repayWeight (edgeWeights (weightMgr s)) (xs ≫= deadHandles NodeEdge t) ∧
    candidateWeights (weightMgr s')
      = repayWeight (candidateWeights (weightMgr s))
          (xs ≫= deadHandles NodeCandidate t).
Proof.
  intros Hwf t xs.
  destruct (nodesKeepalive_run now isSave s Hwf)
    as (s' & Hrun & _ & _ & Hew & Hcw & Hev & _).
  exists s'. done.
Qed.

(** *** Eviction goes by the type of the node *)

(** A dead node is taken out of the map of its own type only: held by the
    map of the other tier, or of a third type, it stays registered and
    counted although [ClientCloser] has been called on it. *)
Theorem keepalive_removal_by_type (s : Manager) (a : nat) (n : Node) (t : Z)
  (isSave : bool) :
  heap s !! a = Some n → LastRequestTime n ≤ t →
  ∃ s',
    nodeKeepalive (Some a) t isSave s = Some (false, s') ∧
    (∃ evs, events s' = events s ++ EvClientCloser (Some a) :: evs) ∧
    (Type_ n ≠ NodeEdge →
     edgeNodes s' = edgeNodes s ∧ Edges s' = Edges s) ∧
    (Type_ n ≠ NodeCandidate →
     candidateNodes s' = candidateNodes s ∧ Candidates s' = Candidates s) ∧
    (Type_ n = NodeOther →
     s' = set_events (λ l, l ++ [EvClientCloser (Some a)]) s).
Proof.
  intros Hn Hle. rewrite (nodeKeepalive_dead _ _ _ _ _ Hn Hle). cbn zeta.
  set (s0 := set_events _ s).
  assert (Hn0 : heap s0 !! a = Some n) by done.
  destruct (Type_ n) eqn:Hty.
  - rewrite (deleteEdgeNode_run _ _ _ Hn0). cbn. eexists.
    split; [reflexivity|]. cbn. split.
    { eexists. rewrite <- app_assoc. reflexivity. }
    by repeat split.
  - rewrite (deleteCandidateNode_run _ _ _ Hn0). cbn. eexists.
    split; [reflexivity|]. cbn. split.
    { eexists. rewrite <- app_assoc. reflexivity. }
    by repeat split.
  - eexists. split; [reflexivity|]. split; [by exists []|]. by repeat split.
Qed.

(** *** Listing the edge nodes *)

Lemma GetAllEdgeNode_run (s : Manager) :
  GetAllEdgeNode s = Some ((map_to_list (edgeNodes s)).*2, s).
Proof.
  unfold GetAllEdgeNode, gets, mbind, M_bind, mret, M_ret. f_equal. f_equal.
  assert (Hfold : ∀ (l : list (string * option nat)) acc,
            foldl (λ nodes entry, nodes ++ [entry.2]) acc l = acc ++ l.*2).
  { induction l as [|x l IH]; intros acc; cbn; [by rewrite app_nil_r|].
    rewrite IH, <- app_assoc. done. }
  apply Hfold.
Qed.

(** [GetAllEdgeNode] returns each pointer of the edge map once, nil and
    abnormal nodes included, and leaves the manager as it is.  A join under
    a new id adds the node to the listing; a leave takes out the pointer
    that was filed under the id of the node. *)
Theorem GetAllEdgeNode_lists (s : Manager) :
  ∃ nodes,
    GetAllEdgeNode s = Some (nodes, s) ∧
    length nodes = size (edgeNodes s) ∧
    (∀ node, node ∈ nodes ↔ ∃ key, edgeNodes s !! key = Some node) ∧
    (∀ a n, heap s !! a = Some n → edgeNodes s !! NodeID n = None →
       ∃ s1 nodes1,
         storeEdgeNode (Some a) s = Some (tt, s1) ∧
         GetAllEdgeNode s1 = Some (nodes1, s1) ∧
         nodes1 ≡ₚ Some a :: nodes) ∧
    (∀ a n node, heap s !! a = Some n → edgeNodes s !! NodeID n = Some node →
       ∃ s3 nodes3,
         deleteEdgeNode (Some a) s = Some (tt, s3) ∧
         GetAllEdgeNode s3 = Some (nodes3, s3) ∧
         nodes ≡ₚ node :: nodes3).
Proof.
  exists (map_to_list (edgeNodes s)).*2.
  split; [apply GetAllEdgeNode_run|].
  split; [by rewrite length_fmap, length_map_to_list|].
  split; [apply elem_of_map_to_list_values|].
  split.
  - intros a n Hn Hnew. rewrite (storeEdgeNode_run _ _ _ Hn), Hnew. cbn zeta.
    eexists _, _. split; [reflexivity|]. rewrite GetAllEdgeNode_run.
    split; [reflexivity|].
    set (s0 := mkManager _ _ _ _ _ _ _).
    destruct (distributed_frame s0 a n) as (He & _).
    cbn. rewrite He. cbn.
    rewrite (map_to_list_insert _ _ _ Hnew). done.
  - intros a n node Hn Hold. rewrite (deleteEdgeNode_run _ _ _ Hn). cbn zeta.
    eexists _, _. split; [reflexivity|]. rewrite GetAllEdgeNode_run.
    split; [reflexivity|]. cbn.
    rewrite <- (map_to_list_delete _ _ _ Hold). done.
Qed.

(** *** The points batch *)

(** The points an entry contributes to the batch: none for a nil pointer
    and for an abnormal node. *)
Definition profit (s : Manager) (node : option nat) : option (option Z) :=
  match view s node with
  | Some n =>
      if IsAbnormal n then None
      else Some (Scoring.calculateAndSavePoints (Edges s) n)
  | None => None
  end.

Lemma profitsRange_run (s : Manager) (entries : list (string * option nat)) :
  ∀ infos, NoDup entries.*1 → filed s entries →
  ∃ infos',
    profitsRange entries infos s = Some (infos', s) ∧
    ∀ id, infos' !! id
          = match (list_to_map entries : gmap string (option nat)) !! id
                  ≫= profit s with
            | Some p => Some p
            | None => infos !! id
            end.
Proof.
  induction entries as [|[key node] rest IH]; intros infos Hnd Hf.
  { exists infos. split; [done|]. intros id. cbn. by rewrite lookup_empty. }
  apply NoDup_cons in Hnd as [Hkey Hnd].
  assert (Hrest : (list_to_map rest : gmap string (option nat)) !! key = None).
  { by apply not_elem_of_list_to_map_1. }
  assert (Hf' : filed s rest).
  { intros k a Hin. apply Hf. by right. }
  assert (Hstep : ∃ infos1,
            profitsEntry infos node s = Some (infos1, s) ∧
            ∀ id, infos1 !! id
                  = if decide (id = key)
                    then match profit s node with
                         | Some p => Some p
                         | None => infos !! id
                         end
                    else infos !! id).
  { unfold profitsEntry, profit. destruct node as [a|]; cbn.
    - destruct (Hf key a) as (n & Hn & Hid); [left|].
      rewrite (bind_Some _ _ _ _ _ (deref_Some _ _ _ Hn)), Hn.
      destruct (IsAbnormal n).
      + exists infos. split; [done|]. intros id. by destruct (decide _).
      + eexists. split; [reflexivity|]. intros id. rewrite Hid.
        destruct (decide (id = key)) as [->|Hne].
        * by rewrite lookup_insert_eq.
        * by rewrite lookup_insert_ne.
    - exists infos. split; [done|]. intros id. by destruct (decide _). }
  destruct Hstep as (infos1 & Hrun1 & Hl1).
  destruct (IH infos1 Hnd Hf') as (infos2 & Hrun2 & Hl2).
  exists infos2. cbn [profitsRange]. rewrite (bind_Some _ _ _ _ _ Hrun1).
  split; [done|]. intros id. rewrite Hl2, Hl1. cbn [list_to_map foldr].
  change (foldr _ ∅ rest) with (list_to_map rest : gmap string (option nat)).
  destruct (decide (id = key)) as [->|Hne].
  - rewrite lookup_insert_eq, Hrest. cbn. done.
  - rewrite lookup_insert_ne by done. done.
Qed.

(** [updateNodeProfits] computes the points of every registered node that
    is not abnormal and files them under the id of the node; a nil pointer
    and an abnormal node get no entry, and where both maps have an id the
    points of the candidate are what is saved.  The manager is left as it
    is. *)
Theorem updateNodeProfits_batch (s : Manager) :
  filed s (map_to_list (edgeNodes s)) →
  filed s (map_to_list (candidateNodes s)) →
  updateNodeProfits s
  = Some (omap (profit s) (candidateNodes s) ∪ omap (profit s) (edgeNodes s),
          s).
Proof.
  intros Hfe Hfc.
  destruct (profitsRange_run s (map_to_list (edgeNodes s)) ∅)
    as (infos1 & Hrun1 & Hl1); [apply NoDup_fst_map_to_list|done|].
  destruct (profitsRange_run s (map_to_list (candidateNodes s)) infos1)
    as (infos2 & Hrun2 & Hl2); [apply NoDup_fst_map_to_list|done|].
  unfold updateNodeProfits, gets. unfold mbind at 1 2, M_bind at 1 2.
  rewrite Hrun1. unfold mbind, M_bind. rewrite Hrun2.
  f_equal. f_equal. apply map_eq. intros id.
  rewrite Hl2, Hl1, !list_to_map_to_list, lookup_union, !lookup_omap.
  rewrite lookup_empty.
  destruct (candidateNodes s !! id ≫= profit s);
    destruct (edgeNodes s !! id ≫= profit s); done.
Qed.
End RegistryMore.

(** ** Concrete runs *)

Module Examples.

(** No node is abnormal and every score gives two slots. *)
#[local] Instance exampleCollab : Collaborators := {|
  IsAbnormal := λ _, false;
  getNodeScoreLevel := λ _, 0;
  getWeightNum := λ _, 2%nat;
  IsAbnormal_selectWeights := λ _ _, eq_refl
|}.

(** An edge node last heard of at time 100. *)
Definition node1 (ws : list Z) : Node :=
  mkNode "n1" NodeEdge (mkNodeInfo 4 4 ScoringFacts.disk1500GB) 200
    NatTypeFullCone 0%float 100 0 ws.

(** A manager with empty maps; the node object lives at address 0. *)
Definition start : Manager :=
  mkManager {[ 0%nat := node1 [] ]} ∅ ∅ 0 0 (mkWeightManager ∅ ∅) [].

(** After [storeEdgeNode]. *)
Definition joined : Manager :=
  mkManager {[ 0%nat := node1 [0; 1] ]} {[ "n1" := Some 0%nat ]} ∅ 1 0
    (mkWeightManager {[ 0 := "n1"; 1 := "n1" ]} ∅)
    [EvPub (Some 0%nat) EventNodeOnline].

(** After [storeEdgeNode] and one more [DistributeNodeWeight]. *)
Definition joinedTwice : Manager :=
  mkManager {[ 0%nat := node1 [2; 3] ]} {[ "n1" := Some 0%nat ]} ∅ 1 0
    (mkWeightManager {[ 0 := "n1"; 1 := "n1"; 2 := "n1"; 3 := "n1" ]} ∅)
    [EvPub (Some 0%nat) EventNodeOnline].

(** An edge node behind a full-cone NAT. *)
Definition node2 (cores : Z) (memory disk : float) (bandwidth : Z) : Node :=
  mkNode "n2" NodeEdge (mkNodeInfo cores memory disk) bandwidth
    NatTypeFullCone 0%float 100 0 [].

(** 500 GB and 1000 GB in bytes. *)
Definition disk500GB : float := 536870912000%float.
Definition disk1000GB : float := 1073741824000%float.

(** Two neighbouring disk sizes of about 1666.67 GB, in bytes. *)
Definition diskBelow : float := 0x1.a0aaaaaaaaaa2p+40%float.
Definition diskAbove : float := 0x1.a0aaaaaaaaaa3p+40%float.

(** A node is abnormal while it reports no upstream bandwidth; every score
    gives two slots. *)
Definition bandwidthCollab : Collaborators := {|
  IsAbnormal := λ n, BandwidthUp n =? 0;
  getNodeScoreLevel := λ _, 0;
  getWeightNum := λ _, 2%nat;
  IsAbnormal_selectWeights := λ _ _, eq_refl
|}.

(** Two edge nodes, the first with the upstream bandwidth [bandwidth]. *)
Definition nodeA (bandwidth : Z) (ws : list Z) : Node :=
  mkNode "a" NodeEdge (mkNodeInfo 4 4 ScoringFacts.disk1500GB) bandwidth
    NatTypeFullCone 0%float 100 0 ws.
Definition nodeB (ws : list Z) : Node :=
  mkNode "b" NodeEdge (mkNodeInfo 4 4 ScoringFacts.disk1500GB) 200
    NatTypeFullCone 0%float 100 0 ws.

(** Both nodes have joined; then the first one has lost its bandwidth. *)
Definition bothJoined (bandwidth : Z) : Manager :=
  mkManager {[ 0%nat := nodeA bandwidth [0; 1]; 1%nat := nodeB [2; 3] ]}
    {[ "a" := Some 0%nat; "b" := Some 1%nat ]} ∅ 2 0
    (mkWeightManager {[ 0 := "a"; 1 := "a"; 2 := "b"; 3 := "b" ]} ∅)
    [EvPub (Some 0%nat) EventNodeOnline; EvPub (Some 1%nat) EventNodeOnline].

(** After [redistributeNodeSelectWeights]. *)
Definition redistributed : Manager :=
  mkManager {[ 0%nat := nodeA 0 [0; 1]; 1%nat := nodeB [0; 1] ]}
    {[ "a" := Some 0%nat; "b" := Some 1%nat ]} ∅ 2 0
    (mkWeightManager {[ 0 := "b"; 1 := "b" ]} ∅)
    [EvPub (Some 0%nat) EventNodeOnline; EvPub (Some 1%nat) EventNodeOnline].

(** After the abnormal node has left. *)
Definition abnormalLeft : Manager :=
  mkManager {[ 0%nat := nodeA 0 []; 1%nat := nodeB [0; 1] ]}
    {[ "b" := Some 1%nat ]} ∅ 1 0 (mkWeightManager ∅ ∅)
    [EvPub (Some 0%nat) EventNodeOnline; EvPub (Some 1%nat) EventNodeOnline;
     EvPub (Some 0%nat) EventNodeOffline].

(** A candidate node that the edge map holds. *)
Definition node3 : Node :=
  mkNode "n3" NodeCandidate (mkNodeInfo 4 4 ScoringFacts.disk1500GB) 200
    NatTypeFullCone 0%float 100 0 [].

Definition misfiled : Manager :=
  mkManager {[ 0%nat := node3 ]} {[ "n3" := Some 0%nat ]} ∅ 1 0
    (mkWeightManager ∅ ∅) [].

(** A node behind a NAT of unknown type. *)
Definition node4 (bandwidth : Z) : Node :=
  mkNode "n4" NodeEdge (mkNodeInfo 4 4 ScoringFacts.disk1500GB) bandwidth
    NatTypeUnknown 0%float 100 0 [].

(** The cutoff of a sweep at this time is the last contact of [node1]. *)
Definition sweepTime : Z := keepaliveTime + 100.

Lemma joined_reached : storeEdgeNode (Some 0%nat) start = Some (tt, joined).
Proof. vm_compute. reflexivity. Qed.

Lemma joinedTwice_reached :
  DistributeNodeWeight (Some 0%nat) joined = Some (tt, joinedTwice).
Proof. vm_compute. reflexivity. Qed.

Lemma store_idempotent_witness :
  ∃ s1, storeEdgeNode (Some 0%nat) start = Some (tt, s1) ∧
        storeEdgeNode (Some 0%nat) s1 = Some (tt, s1) ∧
        Edges s1 = 1 ∧
        events s1 = [EvPub (Some 0%nat) EventNodeOnline] ∧
        size (edgeWeights (weightMgr s1)) = 2%nat.
Proof.
  destruct (store_idempotent start 0 0 (node1 []) (node1 [])
              eq_refl eq_refl eq_refl) as [Hedge _].
  destruct (Hedge eq_refl) as (s1 & H1 & H2 & H3 & _ & H5 & H6 & _).
  exists s1. split; [exact H1|]. split; [exact H2|]. split; [exact H3|].
  split; [exact H5 | exact H6].
Defined.

Lemma delete_repays_then_removes_witness :
  ∃ s3, deleteEdgeNode (Some 0%nat) joined = Some (tt, s3) ∧
        edgeNodes s3 = delete "n1" (edgeNodes joined) ∧
        Edges s3 = 0 ∧
        slotsOf "n1" (edgeWeights (weightMgr s3)) = ∅.
Proof.
  destruct (delete_repays_then_removes joined 0 (node1 [0; 1]) eq_refl)
    as (s1 & _ & _ & _ & _ & _ & _ & (s3 & H1 & _ & _ & _ & H5 & H6 & _ & _ & H9) & _).
  exists s3. repeat split; try assumption.
  apply H9. split; intros h Hh.
  - split; [reflexivity|].
    change (edgeWeights (weightMgr joined))
      with ({[ 0 := "n1"; 1 := "n1" ]} : gmap Z string) in Hh.
    cbn [selectWeights node1].
    apply lookup_insert_Some in Hh as [[<- _]|[_ Hh]]; [by left|].
    apply lookup_singleton_Some in Hh as [<- _]. right. by left.
  - change (candidateWeights (weightMgr joined))
      with (∅ : gmap Z string) in Hh.
    by rewrite lookup_empty in Hh.
Defined.

Lemma repay_idempotent_witness :
  ∃ s1, RepayNodeWeight (Some 0%nat) joined = Some (tt, s1) ∧
        RepayNodeWeight (Some 0%nat) s1 = Some (tt, s1).
Proof.
  destruct (repay_idempotent joined 0 (node1 [0; 1]) eq_refl)
    as (s1 & n1 & H1 & _ & _ & _ & _ & _ & H7); [discriminate|].
  exists s1. split; assumption.
Defined.

Lemma keepalive_cutoff_witness :
  ∃ s', nodeKeepalive (Some 0%nat) 100 true joined = Some (false, s') ∧
        edgeNodes s' !! "n1" = None.
Proof.
  destruct (keepalive_cutoff joined 0 (node1 [0; 1]) 100 true eq_refl)
    as (alive & s' & Hrun & -> & _ & Hgone & _).
  exists s'. split; [exact Hrun | exact (Hgone eq_refl)].
Defined.

Lemma keepalive_accrual_witness :
  ∃ s' n', nodeKeepalive (Some 0%nat) 99 true joined = Some (true, s') ∧
           heap s' !! 0%nat = Some n' ∧ OnlineDuration n' = 1.
Proof.
  destruct (keepalive_accrual joined 0 (node1 [0; 1]) 99 true eq_refl)
    as (s' & n' & Hrun & Hn' & Hdur & _); [reflexivity|].
  exists s', n'. repeat split; assumption.
Defined.

Lemma redistribute_total_witness :
  ∃ s', redistributeNodeSelectWeights joinedTwice = Some (tt, s') ∧
        size (candidateWeights (weightMgr s')) = 0%nat ∧
        size (edgeWeights (weightMgr s')) = 2%nat.
Proof.
  destruct (redistribute_total joinedTwice) as (s' & Hrun & Hc & He & _).
  - intros key node Hl.
    change (candidateNodes joinedTwice)
      with (∅ : gmap string (option nat)) in Hl.
    by rewrite lookup_empty in Hl.
  - intros key node Hl.
    change (edgeNodes joinedTwice)
      with ({[ "n1" := Some 0%nat ]} : gmap string (option nat)) in Hl.
    apply lookup_singleton_Some in Hl as [_ <-].
    exists 0%nat, (node1 [2; 3]). split; reflexivity.
  - exists s'. split; [exact Hrun|]. split; [exact Hc | exact He].
Defined.

Lemma points_monotone_witness :
  Scoring.calculateAndSavePoints 3000 (node2 2 2 disk500GB 100) = Some 71 ∧
  Scoring.calculateAndSavePoints 3000 (node2 4 3 disk1000GB 300) = Some 111 ∧
  71 ≤ 111.
Proof.
  split; [reflexivity|]. split; [reflexivity|].
  apply (ScoringFacts.points_monotone 3000
           (node2 2 2 disk500GB 100) (node2 4 3 disk1000GB 300) 71 111).
  - reflexivity.
  - discriminate.
  - right. reflexivity.
  - discriminate.
  - right. left. split; reflexivity.
  - reflexivity.
  - reflexivity.
Defined.

(** C1 as stated fails: a node whose last contact is the cutoff itself is
    closed and removed, and [nodeKeepalive] returns false. *)
Lemma keepalive_cutoff_counterexample :
  ¬ (∀ (s : Manager) (a : nat) (n : Node) (t : Z) (isSave : bool),
       heap s !! a = Some n → LastRequestTime n = t →
       ∃ s', nodeKeepalive (Some a) t isSave s = Some (true, s')).
Proof.
  intros Hc.
  destruct (Hc joined 0%nat (node1 [0; 1]) 100 false eq_refl eq_refl)
    as [s' Hs'].
  vm_compute in Hs'. discriminate.
Qed.

(** C2 as stated fails: after a join and one more [DistributeNodeWeight]
    the node holds the handles 2 and 3 only, and [deleteEdgeNode] leaves the
    slots 0 and 1 of its identity in the pool. *)
Lemma delete_leaves_slots_counterexample :
  ¬ (∀ (s s' : Manager) (a : nat) (n : Node),
       heap s !! a = Some n →
       deleteEdgeNode (Some a) s = Some (tt, s') →
       slotsOf (NodeID n) (edgeWeights (weightMgr s')) = ∅).
Proof.
  intros Hc.
  destruct (deleteEdgeNode (Some 0%nat) joinedTwice) as [[[] s']|] eqn:E;
    [|vm_compute in E; discriminate].
  pose proof (Hc joinedTwice s' 0%nat (node1 [2; 3]) eq_refl E) as Hnone.
  apply LedgerFacts.slotsOf_empty_iff with (h := 0) in Hnone.
  apply Hnone. vm_compute in E. injection E as <-. reflexivity.
Qed.

(** C9 as stated fails: on a save tick an alive node gains one minute, which
    is 60 seconds and not the 30 seconds of the keepalive period. *)
Lemma keepalive_accrual_counterexample :
  ¬ (∀ (s s' : Manager) (a : nat) (n n' : Node) (t : Z),
       heap s !! a = Some n → t < LastRequestTime n →
       nodeKeepalive (Some a) t true s = Some (true, s') →
       heap s' !! a = Some n' →
       (OnlineDuration n' - OnlineDuration n) * Minute = keepaliveTime).
Proof.
  intros Hc.
  destruct (nodeKeepalive (Some 0%nat) 99 true joined) as [[[] s']|] eqn:E;
    try (vm_compute in E; discriminate).
  assert (Hn' : heap s' !! 0%nat
                = Some (set_OnlineDuration 1 (node1 [0; 1]))).
  { vm_compute in E. injection E as <-. reflexivity. }
  pose proof (Hc joined s' 0%nat (node1 [0; 1]) _ 99 eq_refl eq_refl E Hn')
    as Heq.
  vm_compute in Heq. discriminate.
Qed.

(** C7 as stated fails: with 4 cores, memory 4, bandwidth 300, a full-cone
    NAT and 3000 edges, the disk size [diskBelow] gives 129 points and the
    next larger float [diskAbove] gives 128.  The disk score
    [min(size, 2000) * (0.01 + 1 / max(size, 1000))] is rounded after the
    division, the sum and the product, and between the two sizes it drops
    from 17.66666666666665 to 17.666666666666647, which takes the weighted
    total from 129 to just below it. *)
Lemma points_disk_counterexample :
  ¬ (∀ (edges : Z) (n n' : Node) (p p' : Z),
       NATType n = NATType n' →
       CPUCores (Info n) = CPUCores (Info n') → CPUCores (Info n') ≤ 4 →
       Memory (Info n) = Memory (Info n') →
       (Memory (Info n') <=? 4)%float = true →
       BandwidthUp n = BandwidthUp n' → BandwidthUp n' ≤ 500 →
       (DiskSpace (Info n) <=? DiskSpace (Info n'))%float = true →
       (Scoring.bytesToGB (DiskSpace (Info n')) <=? 2000)%float = true →
       Scoring.calculateAndSavePoints edges n = Some p →
       Scoring.calculateAndSavePoints edges n' = Some p' →
       p ≤ p').
Proof.
  intros Hc.
  assert (H : 129 ≤ 128); [|apply H; reflexivity].
  apply (Hc 3000 (node2 4 4 diskBelow 300) (node2 4 4 diskAbove 300));
    try reflexivity; discriminate.
Qed.

(** C4, the failing input: two edge nodes join, the first turns abnormal,
    and [redistributeNodeSelectWeights] runs.  The abnormal node still lists
    the handles 0 and 1, which the run has given to the other node; when the
    abnormal node leaves, [deleteEdgeNode] repays them, and the other node,
    still registered, is left without a slot in the pool. *)
Lemma redistribute_keeps_stale_handles :
  let start2 :=
    mkManager {[ 0%nat := nodeA 200 []; 1%nat := nodeB [] ]} ∅ ∅ 0 0
      (mkWeightManager ∅ ∅) [] in
  (@storeEdgeNode bandwidthCollab (Some 0%nat);;
   @storeEdgeNode bandwidthCollab (Some 1%nat)) start2
    = Some (tt, bothJoined 200) ∧
  @redistributeNodeSelectWeights bandwidthCollab (bothJoined 0)
    = Some (tt, redistributed) ∧
  heap redistributed !! 0%nat = Some (nodeA 0 [0; 1]) ∧
  @IsAbnormal bandwidthCollab (nodeA 0 [0; 1]) = true ∧
  edgeWeights (weightMgr redistributed) !! 0 = Some "b" ∧
  edgeWeights (weightMgr redistributed) !! 1 = Some "b" ∧
  deleteEdgeNode (Some 0%nat) redistributed
    = Some (tt, abnormalLeft) ∧
  edgeNodes abnormalLeft !! "b" = Some (Some 1%nat) ∧
  heap abnormalLeft !! 1%nat = Some (nodeB [0; 1]) ∧
  slotsOf "b" (edgeWeights (weightMgr abnormalLeft)) = ∅.
Proof. vm_compute. repeat split. Qed.

Lemma joined_wellFiled : wellFiled joined.
Proof.
  split; intros key a Hl.
  - change (edgeNodes joined)
      with ({[ "n1" := Some 0%nat ]} : gmap string (option nat)) in Hl.
    apply lookup_singleton_Some in Hl as [<- [= <-]].
    exists (node1 [0; 1]). repeat split.
  - change (candidateNodes joined)
      with (∅ : gmap string (option nat)) in Hl.
    by rewrite lookup_empty in Hl.
Defined.

Lemma counts_agree_reachable_witness :
  countsAgree joined ∧
  (Z.of_nat (size (edgeNodes joined)) < 2 ^ 63 →
   Edges joined = Z.of_nat (size (edgeNodes joined))) ∧
  (Z.of_nat (size (candidateNodes joined)) < 2 ^ 63 →
   Candidates joined = Z.of_nat (size (candidateNodes joined))).
Proof.
  apply (counts_agree_reachable start joined).
  - split; reflexivity.
  - apply rtc_once. exact (step_storeEdgeNode _ _ _ joined_reached).
Defined.

Lemma store_delete_roundtrip_witness :
  ∃ s1, storeEdgeNode (Some 0%nat) start = Some (tt, s1) ∧
        deleteEdgeNode (Some 0%nat) s1
        = Some (tt, set_events
                      (λ l, l ++ [EvPub (Some 0%nat) EventNodeOnline;
                                  EvPub (Some 0%nat) EventNodeOffline])
                      start).
Proof.
  refine (proj1 (store_delete_roundtrip start 0 (node1 []) eq_refl eq_refl
                   _ _) eq_refl); split; done.
Defined.

Lemma nodesKeepalive_sweep_witness :
  ∃ s', nodesKeepalive sweepTime true joined = Some (tt, s') ∧
        edgeNodes s' = ∅ ∧
        heap s' !! 0%nat = Some (node1 []).
Proof.
  destruct (nodesKeepalive_sweep sweepTime true joined joined_wellFiled)
    as (s' & Hrun & He & _ & Hh & _).
  exists s'. split; [exact Hrun|]. split.
  - rewrite He. vm_compute. reflexivity.
  - rewrite Hh. vm_compute. reflexivity.
Defined.

Lemma nodesKeepalive_calls_witness :
  ∃ s', nodesKeepalive sweepTime true joined = Some (tt, s') ∧
        events s'
        = [EvPub (Some 0%nat) EventNodeOnline; EvClientCloser (Some 0%nat);
           EvPub (Some 0%nat) EventNodeOffline; EvUpdateOnlineDuration []] ∧
        edgeWeights (weightMgr s') = ∅.
Proof.
  destruct (nodesKeepalive_calls sweepTime true joined joined_wellFiled)
    as (s' & Hrun & Hev & Hew & _).
  exists s'. split; [exact Hrun|]. split.
  - rewrite Hev. vm_compute. reflexivity.
  - rewrite Hew. vm_compute. reflexivity.
Defined.

Lemma keepalive_removal_by_type_witness :
  ∃ s', nodeKeepalive (Some 0%nat) 100 false misfiled = Some (false, s') ∧
        edgeNodes s' = edgeNodes misfiled ∧ Edges s' = 1.
Proof.
  destruct (keepalive_removal_by_type misfiled 0 node3 100 false eq_refl)
    as (s' & Hrun & _ & Hedge & _); [done|].
  exists s'. split; [exact Hrun|]. apply Hedge. discriminate.
Defined.

Lemma updateNodeProfits_batch_witness :
  updateNodeProfits joined = Some ({[ "n1" := Some 130 ]}, joined).
Proof.
  rewrite (updateNodeProfits_batch joined).
  - vm_compute. reflexivity.
  - apply (filedAs_filed NodeEdge), joined_wellFiled.
  - apply (filedAs_filed NodeCandidate), joined_wellFiled.
Defined.

Lemma weighting_antitone_witness :
  ScoringFacts.fle (Scoring.weighting 6000) (Scoring.weighting 3000) ∧
  ScoringFacts.fle 1 (Scoring.weighting 3000) ∧
  ScoringFacts.fle (Scoring.weighting 3000) 2.
Proof. apply (ScoringFacts.weighting_antitone 3000 6000). discriminate. Defined.

Lemma points_unknown_nat_witness :
  Scoring.calculateAndSavePoints 1000 (node4 400)
  = Scoring.calculateAndSavePoints 1000 (node4 0).
Proof.
  apply (ScoringFacts.points_unknown_nat 1000 (node4 0) (node4 400));
    try reflexivity; split; done.
Defined.

End Examples.
